(** * A shallow embedding of [autograd.py]

    The Python objects ([Value]s and [Operator]s) live in a store and are
    referred to by their position in it, so that an operand shared by several
    operators is one object, as in the source.  Scalars are IEEE binary64
    numbers (Python's [float]).  Methods are state transformers that may
    raise; the recursion of the two backward phases is bounded by a fuel
    argument. *)

From Stdlib Require Import ZArith Lia Floats.
From stdpp Require Import base list.

Local Open Scope Z_scope.

(** ** The object store *)

(** The classes deriving from [Operator].  [Operator_], [BinaryOp] and
    [UnaryOp] are the base classes of autograd.py, which can be instantiated
    although most of their methods raise; [PassThroughOp] is the subclass of
    [UnaryOp] declared in test_autograd.py, with its call counter. *)
Inductive Operator : Type :=
  | Operator_
  | BinaryOp (_in1 _in2 : nat)
  | UnaryOp (_in1 : nat)
  | AddOp (_in1 _in2 : nat)
  | SubOp (_in1 _in2 : nat)
  | MulOp (_in1 _in2 : nat)
  | PassThroughOp (_in1 : nat) (backprop_count : Z).

(** The attributes set by [Value.__init__]. *)
Record Value : Type := mkValue {
  _v : float;
  _requires_grad : bool;
  grad : option float;
  _op : option nat;
  _backprop_count : Z
}.

(** What the methods do to the store, in order.  The log is not part of the
    program: it records each call of the four backward methods and each write
    of a [_backprop_count], and nothing reads it. *)
Inductive Event : Type :=
  | ValueSetup (n : nat) (count : Z)
  | OperatorSetup (o : nat)
  | ValueCalc (n : nat) (g : float)
  | CountDown (n : nat) (count : Z)
  | OperatorCalc (o : nat) (g : float).

Record Heap : Type := mkHeap {
  values : list Value;
  operators : list Operator;
  log : list Event
}.

Definition empty_heap : Heap := mkHeap [] [] [].

Inductive Exn : Type := AssertionError | RuntimeError | AttributeError.

(** A call returns, raises (the store keeps what was written before), exhausts
    its fuel, or follows a reference to no object (which Python excludes). *)
Inductive Outcome (A : Type) : Type :=
  | Returned (a : A) (h : Heap)
  | Raised (e : Exn) (h : Heap)
  | OutOfFuel
  | Dangling.
Arguments Returned {A} a h.
Arguments Raised {A} e h.
Arguments OutOfFuel {A}.
Arguments Dangling {A}.

Definition M (A : Type) : Type := Heap -> Outcome A.

Definition ret {A} (a : A) : M A := fun h => Returned a h.

Definition bind {A B} (m : M A) (k : A -> M B) : M B := fun h =>
  match m h with
  | Returned a h' => k a h'
  | Raised e h' => Raised e h'
  | OutOfFuel => OutOfFuel
  | Dangling => Dangling
  end.

Declare Scope heap_scope.
Delimit Scope heap_scope with heap.
Notation "x ← y ; z" := (bind y (fun x => z))
  (at level 20, y at level 100, z at level 200, only parsing) : heap_scope.
Notation "x ;; z" := (bind x (fun _ => z))
  (at level 100, z at level 200, only parsing, right associativity)
  : heap_scope.
Local Open Scope heap_scope.

Definition raise {A} (e : Exn) : M A := fun h => Raised e h.
Definition out_of_fuel {A} : M A := fun _ => OutOfFuel.

Definition get_value (n : nat) : M Value := fun h =>
  match values h !! n with
  | Some x => Returned x h
  | None => Dangling
  end.

Definition set_value (n : nat) (x : Value) : M unit := fun h =>
  Returned tt (mkHeap (<[n := x]> (values h)) (operators h) (log h)).

Definition get_operator (o : nat) : M Operator := fun h =>
  match operators h !! o with
  | Some op => Returned op h
  | None => Dangling
  end.

Definition set_operator (o : nat) (op : Operator) : M unit := fun h =>
  Returned tt (mkHeap (values h) (<[o := op]> (operators h)) (log h)).

Definition emit (e : Event) : M unit := fun h =>
  Returned tt (mkHeap (values h) (operators h) (log h ++ [e])).

(** [m'] does what [m] does wherever [m] has fuel enough. *)
Definition extends {A} (m m' : M A) : Prop :=
  forall h, m h <> OutOfFuel -> m' h = m h.

(** ** class Value: construction and accessors *)

(** [Value.__init__]: the new object is appended to the store. *)
Definition Value_init (v : float) (requires_grad : bool) (op : option nat)
  : M nat := fun h =>
  Returned (length (values h))
    (mkHeap (values h ++ [mkValue v requires_grad None op 0])
            (operators h) (log h)).

(** The constructors of the operator classes only store their operands. *)
Definition Operator_init (op : Operator) : M nat := fun h =>
  Returned (length (operators h))
    (mkHeap (values h) (operators h ++ [op]) (log h)).

Definition Value_item (self : nat) : M float :=
  x ← get_value self; ret (_v x).

Definition Value_requires_grad (self : nat) : M bool :=
  x ← get_value self; ret (_requires_grad x).

(** ** class Value: the two phases *)

(** [BinaryOp.backprop_setup] and [UnaryOp.backprop_setup], by the class of
    the receiver; [setup] is [Value.backprop_setup]. *)
Definition Operator_backprop_setup (setup : nat -> M unit) (self : nat)
  : M unit :=
  op ← get_operator self;
  emit (OperatorSetup self);;
  match op with
  | Operator_ => raise RuntimeError
  | BinaryOp in1 in2 | AddOp in1 in2 | SubOp in1 in2 | MulOp in1 in2 =>
      setup in1;; setup in2
  | UnaryOp in1 | PassThroughOp in1 _ => setup in1
  end.

Fixpoint Value_backprop_setup (fuel : nat) (self : nat) : M unit :=
  match fuel with
  | O => out_of_fuel
  | S fuel' =>
      x ← get_value self;
      let c := _backprop_count x + 1 in
      set_value self
        (mkValue (_v x) (_requires_grad x) (grad x) (_op x) c);;
      emit (ValueSetup self c);;
      if c =? 1 then
        match _op x with
        | Some o => Operator_backprop_setup (Value_backprop_setup fuel') o
        | None => ret tt
        end
      else ret tt
  end.

(** [backprop_calc] of each operator class; [calc] is [Value.backprop_calc]. *)
Definition Operator_backprop_calc (calc : nat -> float -> M unit)
    (self : nat) (grad_output : float) : M unit :=
  op ← get_operator self;
  emit (OperatorCalc self grad_output);;
  match op with
  | AddOp in1 in2 =>
      calc in1 grad_output;; calc in2 grad_output
  | SubOp in1 in2 =>
      calc in1 grad_output;; calc in2 (- grad_output)%float
  | MulOp in1 in2 =>
      v2 ← Value_item in2;
      calc in1 (grad_output * v2)%float;;
      v1 ← Value_item in1;
      calc in2 (grad_output * v1)%float
  | PassThroughOp in1 count =>
      set_operator self (PassThroughOp in1 (count + 1));;
      calc in1 grad_output
  | Operator_ | BinaryOp _ _ | UnaryOp _ => raise RuntimeError
  end.

Fixpoint Value_backprop_calc (fuel : nat) (self : nat) (grad_output : float)
  : M unit :=
  match fuel with
  | O => out_of_fuel
  | S fuel' =>
      x ← get_value self;
      emit (ValueCalc self grad_output);;
      if _requires_grad x then
        let g0 := match grad x with None => 0%float | Some g => g end in
        let g := (g0 + grad_output)%float in
        let c := _backprop_count x - 1 in
        set_value self
          (mkValue (_v x) (_requires_grad x) (Some g) (_op x) c);;
        emit (CountDown self c);;
        if c <? 0 then raise AssertionError
        else if c =? 0 then
          match _op x with
          | Some o => Operator_backprop_calc (Value_backprop_calc fuel') o g
          | None => ret tt
          end
        else ret tt
      else ret tt
  end.

Definition Value_backward (fuel : nat) (self : nat) : M unit :=
  Value_backprop_setup fuel self;;
  Value_backprop_calc fuel self 1%float.

(** ** The operator classes: [requires_grad] and [forward] *)

Definition BinaryOp_requires_grad (in1 in2 : nat) : M bool :=
  r1 ← Value_requires_grad in1;
  if r1 then ret true else Value_requires_grad in2.

(** [UnaryOp.requires_grad] evaluates
    [self._in1._requires_grad or self._in2._requires_grad]; a unary operator
    has no attribute [_in2], which the second disjunct reads when the first
    is false. *)
Definition UnaryOp_requires_grad (in1 : nat) : M bool :=
  r1 ← Value_requires_grad in1;
  if r1 then ret true else raise AttributeError.

Definition Operator_requires_grad (self : nat) : M bool :=
  op ← get_operator self;
  match op with
  | BinaryOp in1 in2 | AddOp in1 in2 | SubOp in1 in2 | MulOp in1 in2 =>
      BinaryOp_requires_grad in1 in2
  | UnaryOp in1 | PassThroughOp in1 _ => UnaryOp_requires_grad in1
  | Operator_ => raise AttributeError
  end.

(** [forward] of [AddOp], [SubOp] and [MulOp], which differ in the scalar
    operation only. *)
Definition arith_forward (f : float -> float -> float) (self in1 in2 : nat)
  : M nat :=
  rg ← BinaryOp_requires_grad in1 in2;
  let op := if rg then Some self else None in
  v1 ← Value_item in1;
  v2 ← Value_item in2;
  Value_init (f v1 v2) rg op.

Definition Operator_forward (self : nat) : M nat :=
  op ← get_operator self;
  match op with
  | AddOp in1 in2 => arith_forward PrimFloat.add self in1 in2
  | SubOp in1 in2 => arith_forward PrimFloat.sub self in1 in2
  | MulOp in1 in2 => arith_forward PrimFloat.mul self in1 in2
  | PassThroughOp in1 _ =>
      v1 ← Value_item in1;
      rg ← Value_requires_grad in1;
      Value_init v1 rg (Some self)
  | Operator_ | BinaryOp _ _ | UnaryOp _ => raise RuntimeError
  end.

(** ** class Value: the overloaded operators *)

(** The right operand of [+], [-] and [*]: a float, a [Value], or an object
    of another type. *)
Inductive Operand : Type :=
  | OFloat (f : float)
  | OValue (n : nat)
  | OOther.

Definition coerce (other : Operand) : M nat :=
  match other with
  | OFloat f => Value_init f false None
  | OValue n => ret n
  | OOther => raise AssertionError
  end.

Definition Value_add (self : nat) (other : Operand) : M nat :=
  other' ← coerce other;
  o ← Operator_init (AddOp self other');
  Operator_forward o.

Definition Value_sub (self : nat) (other : Operand) : M nat :=
  other' ← coerce other;
  o ← Operator_init (SubOp self other');
  Operator_forward o.

Definition Value_mul (self : nat) (other : Operand) : M nat :=
  other' ← coerce other;
  o ← Operator_init (MulOp self other');
  Operator_forward o.

(** ** Reading the store *)

Definition grad_of (h : Heap) (n : nat) : option float :=
  match values h !! n with Some x => grad x | None => None end.

Definition count_of (h : Heap) (n : nat) : Z :=
  match values h !! n with Some x => _backprop_count x | None => 0 end.

Definition heap_of {A} (r : Outcome A) : option Heap :=
  match r with
  | Returned _ h | Raised _ h => Some h
  | OutOfFuel | Dangling => None
  end.

(** [x.backward()] with fuel for every object of the store: enough whenever
    no operator depends on the [Value] it produces. *)
Definition backward (self : nat) : M unit := fun h =>
  Value_backward (length (values h)) self h.

(** ** Programs over the public interface *)

Inductive Command : Type :=
  | NewValue (v : float) (requires_grad : bool)
  | Add (a : nat) (b : Operand)
  | Sub (a : nat) (b : Operand)
  | Mul (a : nat) (b : Operand)
  | PassThrough (a : nat)
  | Backward (n : nat).

Definition run_command (c : Command) : M unit :=
  match c with
  | NewValue v rg => _ ← Value_init v rg None; ret tt
  | Add a b => _ ← Value_add a b; ret tt
  | Sub a b => _ ← Value_sub a b; ret tt
  | Mul a b => _ ← Value_mul a b; ret tt
  | PassThrough a =>
      o ← Operator_init (PassThroughOp a 0);
      _ ← Operator_forward o; ret tt
  | Backward n => backward n
  end.

Fixpoint run (p : list Command) : M unit :=
  match p with
  | [] => ret tt
  | c :: p' => run_command c;; run p'
  end.

(** ** The graphs of the tests *)

(** test_short_multipath_backprop:
    a = Value(2.0, requires_grad=True); b = a + Value(3.0);
    c = a * Value(4.0); out = b * c; out.backward().
    Returns the references [a] and [out]. *)
Definition short_multipath : M (nat * nat) :=
  a ← Value_init 2 true None;
  k3 ← Value_init 3 false None;
  b ← Value_add a (OValue k3);
  k4 ← Value_init 4 false None;
  c ← Value_mul a (OValue k4);
  out ← Value_mul b (OValue c);
  backward out;;
  ret (a, out).

(** test_long_multipath_backprop:
    a = Value(2.0, requires_grad=True); passthrough = PassThroughOp(a);
    b = passthrough.forward(); c = b + Value(4.0); d = b + Value(5.0);
    out = c * d; out.backward().
    Returns the references [a], [b] and [passthrough]. *)
Definition long_multipath : M (nat * nat * nat) :=
  a ← Value_init 2 true None;
  passthrough ← Operator_init (PassThroughOp a 0);
  b ← Operator_forward passthrough;
  k4 ← Value_init 4 false None;
  c ← Value_add b (OValue k4);
  k5 ← Value_init 5 false None;
  d ← Value_add b (OValue k5);
  out ← Value_mul c (OValue d);
  backward out;;
  ret (a, b, passthrough).

(** The same graph with [b = a * 1.0] produced by a [MulOp]; returns [a],
    [b] and the reference of the operator that produced [b]. *)
Definition long_multipath_mul : M (nat * nat * nat) :=
  a ← Value_init 2 true None;
  b ← Value_mul a (OFloat 1);
  c ← Value_add b (OFloat 4);
  d ← Value_add b (OFloat 5);
  out ← Value_mul c (OValue d);
  backward out;;
  x ← get_value b;
  match _op x with
  | Some o => ret (a, b, o)
  | None => raise RuntimeError
  end.

(** a = Value(va, requires_grad=True); b = Value(vb, requires_grad=True);
    out = a op b; out.backward(), [times] times. *)
Definition two_leaves (op : nat -> Operand -> M nat) (va vb : float)
    (times : nat) : M (nat * nat * nat) :=
  a ← Value_init va true None;
  b ← Value_init vb true None;
  out ← op a (OValue b);
  Nat.iter times (fun k => backward out;; k) (ret (a, b, out)).

(** test_no_requires_grad:
    a = Value(2.0, requires_grad=True); b = Value(3.0); out = a + b;
    out.backward(). *)
Definition no_requires_grad_program : list Command :=
  [NewValue 2 true; NewValue 3 false; Add 0 (OValue 1); Backward 2].

(** The graph of test_short_multipath_backprop before [out.backward()]:
    [a] is object 0 and [out] object 5. *)
Definition diamond_program : list Command :=
  [NewValue 2 true; NewValue 3 false; Add 0 (OValue 1);
   NewValue 4 false; Mul 0 (OValue 3); Mul 2 (OValue 4)].

Definition diamond_graph : Heap :=
  Eval vm_compute in
    match run diamond_program empty_heap with
    | Returned _ h => h
    | _ => empty_heap
    end.

(** a = Value(3.0, requires_grad=True); b = Value(2.0, requires_grad=True);
    out = a + b, before [out.backward()]: [out] is object 2. *)
Definition sum_graph : Heap :=
  Eval vm_compute in
    match run [NewValue 3 true; NewValue 2 true; Add 0 (OValue 1)]
              empty_heap with
    | Returned _ h => h
    | _ => empty_heap
    end.

(** x = Value(1.0); u = UnaryOp(x). *)
Definition unary_heap : Heap :=
  mkHeap [mkValue 1 false None None 0] [UnaryOp 0] [].

(** A store with the single object [Value(1.0)]. *)
Definition plain_leaf : Heap :=
  mkHeap [mkValue 1 false None None 0] [] [].

(** A store with the single object [Value(1.0, requires_grad=True)]. *)
Definition differentiable_leaf : Heap :=
  mkHeap [mkValue 1 true None None 0] [] [].

(** a = Value(2.0, requires_grad=True); b = a * 1.0; c = b * 2.0;
    c.backward(): [b] is object 2 and its gradient is 2.0. *)
Definition scaled_graph : Heap :=
  Eval vm_compute in
    match run [NewValue 2 true; Mul 0 (OFloat 1); Mul 2 (OFloat 2);
               Backward 4] empty_heap with
    | Returned _ h => h
    | _ => empty_heap
    end.

(** x = Value(1.0); b = PassThroughOp(x).forward(): [b] (object 1) does not
    require gradients and has a producer. *)
Definition passed_leaf : Heap :=
  Eval vm_compute in
    match run [NewValue 1 false; PassThrough 0] empty_heap with
    | Returned _ h => h
    | _ => empty_heap
    end.

(** The commands of autograd.py itself: all but the test's
    [PassThroughOp]. *)
Definition arithmetic (c : Command) : Prop :=
  match c with PassThrough _ => False | _ => True end.

(** Every [Value] that has a producer requires gradients. *)
Definition producers_require (h : Heap) : Prop :=
  forall n x, values h !! n = Some x -> _op x <> None ->
    _requires_grad x = true.

(** ** Reading the log *)

(** The contributions passed to [backprop_calc] of [Value] [n], in order. *)
Definition value_calcs (n : nat) (l : list Event) : list float :=
  omap (fun e => match e with
                 | ValueCalc n' g => if Nat.eqb n n' then Some g else None
                 | _ => None
                 end) l.

Definition is_operator_setup (o : nat) (e : Event) : bool :=
  match e with OperatorSetup o' => Nat.eqb o o' | _ => false end.

Definition is_operator_calc (o : nat) (e : Event) : bool :=
  match e with OperatorCalc o' _ => Nat.eqb o o' | _ => false end.

Definition is_value_calc (n : nat) (e : Event) : bool :=
  match e with ValueCalc n' _ => Nat.eqb n n' | _ => false end.

Definition is_traversal (e : Event) : bool :=
  match e with OperatorSetup _ | OperatorCalc _ _ => true | _ => false end.

(** The gradients passed to [backprop_calc] of operator [o], in order. *)
Definition operator_calcs (o : nat) (l : list Event) : list float :=
  omap (fun e => match e with
                 | OperatorCalc o' g => if Nat.eqb o o' then Some g else None
                 | _ => None
                 end) l.

(** Number of calls of [backprop_setup] of operator [o]. *)
Fixpoint setups_of (o : nat) (l : list Event) : nat :=
  match l with
  | [] => 0
  | e :: l' => (if is_operator_setup o e then 1 else 0) + setups_of o l'
  end.

(** [Value.backprop_calc] was not called on [n]. *)
Definition untouched (n : nat) (l : list Event) : Prop :=
  Forall (fun e => is_value_calc n e = false) l.

(** Every counter value written is non-negative. *)
Definition count_written_ok (e : Event) : Prop :=
  match e with
  | ValueSetup _ c | CountDown _ c => 0 <= c
  | _ => True
  end.

(** ** The shape of the graph and the bookkeeping of the two phases *)

Definition operands (op : Operator) : list nat :=
  match op with
  | Operator_ => []
  | BinaryOp in1 in2 | AddOp in1 in2 | SubOp in1 in2 | MulOp in1 in2 =>
      [in1; in2]
  | UnaryOp in1 | PassThroughOp in1 _ => [in1]
  end.

(** The classes that implement [forward] and [backprop_calc]. *)
Definition concrete (op : Operator) : bool :=
  match op with
  | AddOp _ _ | SubOp _ _ | MulOp _ _ | PassThroughOp _ _ => true
  | Operator_ | BinaryOp _ _ | UnaryOp _ => false
  end.

(** Number of occurrences of [k] in [l]. *)
Fixpoint occ (k : nat) (l : list nat) : Z :=
  match l with
  | [] => 0
  | i :: l' => (if Nat.eqb i k then 1 else 0) + occ k l'
  end.

Definition requires (h : Heap) (k : nat) : bool :=
  match values h !! k with Some x => _requires_grad x | None => false end.

Definition producer (h : Heap) (k : nat) : option Operator :=
  match values h !! k with
  | Some x =>
      match _op x with Some o => operators h !! o | None => None end
  | None => None
  end.

(** The contributions that the producer of [x] delivers to [k] when it is
    called. *)
Definition due (ops : list Operator) (k : nat) (x : Value) : Z :=
  match _op x with
  | Some o =>
      match ops !! o with Some op => occ k (operands op) | None => 0 end
  | None => 0
  end.

(** The contributions that the producer of [x] still has to deliver to [k]:
    those of an operator whose output has been registered and has not yet
    released its gradient. *)
Definition owed_by (ops : list Operator) (k : nat) (x : Value) : Z :=
  if 1 <=? _backprop_count x then due ops k x else 0.

Fixpoint sumZ (l : list Z) : Z :=
  match l with [] => 0 | z :: l' => z + sumZ l' end.

Definition owed (h : Heap) (k : nat) : Z :=
  sumZ (owed_by (operators h) k <$> values h).

(** Registered contributions of [k] that no operator is going to deliver. *)
Definition balance (h : Heap) (k : nat) : Z := count_of h k - owed h k.

(** Between two passes no differentiable [Value] expects a contribution
    beyond those of the operators above it. *)
Definition settled (h : Heap) : Prop :=
  forall k, requires h k = true -> balance h k = 0.

Definition counts_nonneg (h : Heap) : Prop :=
  forall k, 0 <= count_of h k.

(** What the constructors guarantee of a graph: a producer is an object of
    the store of a class that implements the two phases, its operands were
    built before its output, it produces one [Value] only, and the output of
    an operator without differentiable operand is not differentiable. *)
Record well_formed (h : Heap) : Prop := {
  wf_producer : forall n x o, values h !! n = Some x -> _op x = Some o ->
      exists op, operators h !! o = Some op /\ concrete op = true /\
                 Forall (fun i => (i < n)%nat) (operands op);
  wf_owner : forall n n' x x' o, values h !! n = Some x ->
      values h !! n' = Some x' -> _op x = Some o -> _op x' = Some o ->
      n = n';
  wf_requires : forall n x o op i, values h !! n = Some x ->
      _op x = Some o -> operators h !! o = Some op ->
      i ∈ operands op -> requires h i = true -> _requires_grad x = true
}.

(** The [Value]s from which [root] is computed. *)
Inductive reach (h : Heap) (root : nat) : nat -> Prop :=
  | reach_root : reach h root root
  | reach_operand m op i :
      reach h root m -> producer h m = Some op -> i ∈ operands op ->
      reach h root i.

(** The registered [Value]s produced by operator [o]. *)
Definition active_by (o : nat) (x : Value) : Z :=
  if 1 <=? _backprop_count x then
    match _op x with
    | Some o' => if Nat.eqb o o' then 1 else 0
    | None => 0
    end
  else 0.

Definition active (h : Heap) (o : nat) : Z :=
  sumZ (active_by o <$> values h).

(** No [Value] that has a producer is registered. *)
Definition idle (h : Heap) : Prop :=
  forall n x, values h !! n = Some x -> _op x <> None ->
    _backprop_count x = 0.

(** The operands of the producer of a registered [Value] are registered. *)
Definition operands_registered (h : Heap) (m : nat) : Prop :=
  forall op i, producer h m = Some op -> i ∈ operands op ->
    1 <= count_of h i.

(** What a phase that returns leaves of the counters: none is negative and
    no negative value was written. *)
Definition counters_kept (h h' : Heap) : Prop :=
  counts_nonneg h ->
  counts_nonneg h' /\
  exists l, log h' = log h ++ l /\ Forall count_written_ok l.

(** A gradient is absent wherever it must be: on every [Value] that does not
    require gradients, and on every [Value] on which [backprop_calc] was
    never called. *)
Definition absent_ok (h : Heap) : Prop :=
  forall k x, values h !! k = Some x ->
    _requires_grad x = false \/ untouched k (log h) -> grad x = None.

(** The gradient of such a [Value] is not written between [h] and [h']. *)
Definition grads_kept (h h' : Heap) : Prop :=
  (exists l, log h' = log h ++ l) /\
  forall k x', values h' !! k = Some x' ->
    exists x, values h !! k = Some x /\
      _requires_grad x = _requires_grad x' /\
      (_requires_grad x' = false \/ untouched k (log h') ->
       grad x' = grad x).

(** The store with one more object. *)
Definition with_value (x : Value) (h : Heap) : Heap :=
  mkHeap (values h ++ [x]) (operators h) (log h).

Definition with_operator (op : Operator) (h : Heap) : Heap :=
  mkHeap (values h) (operators h ++ [op]) (log h).

(** What holds of the store between two calls of the public interface. *)
Definition good (h : Heap) : Prop :=
  well_formed h /\ settled h /\ counts_nonneg h.

(** The parts of the store that no method writes. *)
Definition value_shape (x : Value) : float * bool * option nat :=
  (_v x, _requires_grad x, _op x).

Definition operator_shape (op : Operator) : Operator :=
  match op with
  | PassThroughOp in1 _ => PassThroughOp in1 0
  | _ => op
  end.

Definition same_shape (h h' : Heap) : Prop :=
  value_shape <$> values h = value_shape <$> values h' /\
  operator_shape <$> operators h = operator_shape <$> operators h'.

(** The store after the writes at the head of [Value.backprop_setup]. *)
Definition registered (n : nat) (x : Value) (h : Heap) : Heap :=
  mkHeap
    (<[n := mkValue (_v x) (_requires_grad x) (grad x) (_op x)
                    (_backprop_count x + 1)]> (values h))
    (operators h)
    (log h ++ [ValueSetup n (_backprop_count x + 1)]).

(** The store after [Value.backprop_calc] has added [g] to the gradient of a
    differentiable [Value] and decremented its counter. *)
Definition accumulated (n : nat) (x : Value) (g : float) (h : Heap) : Heap :=
  mkHeap
    (<[n := mkValue (_v x) (_requires_grad x)
              (Some (match grad x with None => 0 | Some g0 => g0 end + g)%float)
              (_op x) (_backprop_count x - 1)]> (values h))
    (operators h)
    (log h ++ [ValueCalc n g; CountDown n (_backprop_count x - 1)]).

Definition new_grad (x : Value) (g : float) : float :=
  (match grad x with None => 0 | Some g0 => g0 end + g)%float.

(** The store after [Value.backprop_calc] on a [Value] that does not require
    gradients. *)
Definition discarded (n : nat) (g : float) (h : Heap) : Heap :=
  mkHeap (values h) (operators h) (log h ++ [ValueCalc n g]).

(** The store once [backprop_setup] of operator [o] has been entered. *)
Definition entered_setup (o : nat) (h : Heap) : Heap :=
  mkHeap (values h) (operators h) (log h ++ [OperatorSetup o]).

(** The store once [backprop_calc] of operator [o], an instance [op], has been
    entered with [g]: a [PassThroughOp] has counted the call. *)
Definition entered_calc (o : nat) (op : Operator) (g : float) (h : Heap)
  : Heap :=
  mkHeap (values h)
    (match op with
     | PassThroughOp in1 c => <[o := PassThroughOp in1 (c + 1)]> (operators h)
     | _ => operators h
     end)
    (log h ++ [OperatorCalc o g]).

Definition item_of (h : Heap) (n : nat) : float :=
  match values h !! n with Some x => _v x | None => 0%float end.

(** The gradients that [op.backprop_calc(g)] hands to the operands, in the
    order of the calls. *)
Definition contributions (h : Heap) (op : Operator) (g : float)
  : list (nat * float) :=
  match op with
  | AddOp in1 in2 => [(in1, g); (in2, g)]
  | SubOp in1 in2 => [(in1, g); (in2, (- g)%float)]
  | MulOp in1 in2 =>
      [(in1, (g * item_of h in2)%float); (in2, (g * item_of h in1)%float)]
  | PassThroughOp in1 _ => [(in1, g)]
  | Operator_ | BinaryOp _ _ | UnaryOp _ => []
  end.

Fixpoint setup_list (setup : nat -> M unit) (l : list nat) : M unit :=
  match l with
  | [] => ret tt
  | i :: l' => setup i;; setup_list setup l'
  end.

Fixpoint calc_list (calc : nat -> float -> M unit) (l : list (nat * float))
  : M unit :=
  match l with
  | [] => ret tt
  | (i, g) :: l' => calc i g;; calc_list calc l'
  end.

(** ** Further graphs of the tests *)

(** test_simple_multiop_backprop, for any four values:
    out = a - b + c * d; out.backward().  Returns the four leaves. *)
Definition simple_multiop (va vb vc vd : float)
  : M (nat * nat * nat * nat) :=
  a ← Value_init va true None;
  b ← Value_init vb true None;
  c ← Value_init vc true None;
  d ← Value_init vd true None;
  ab ← Value_sub a (OValue b);
  cd ← Value_mul c (OValue d);
  out ← Value_add ab (OValue cd);
  backward out;;
  ret (a, b, c, d).

(** test_long_multipath_backprop2, for any value of [a]:
    b = a * 1.0; passthrough = PassThroughOp(b); c = passthrough.forward();
    out = (c * 3.0) + (c * 4.0); out.backward().
    Returns [a], [b], [c] and [passthrough]. *)
Definition long_multipath2 (va : float) : M (nat * nat * nat * nat) :=
  a ← Value_init va true None;
  b ← Value_mul a (OFloat 1);
  passthrough ← Operator_init (PassThroughOp b 0);
  c ← Operator_forward passthrough;
  c3 ← Value_mul c (OFloat 3);
  c4 ← Value_mul c (OFloat 4);
  out ← Value_add c3 (OValue c4);
  backward out;;
  ret (a, b, c, passthrough).

(** x = Value(v, requires_grad=True); out = x op x; out.backward(): the two
    operands of the operator are the same object. *)
Definition same_operand (op : nat -> Operand -> M nat) (v : float)
  : M (nat * nat) :=
  x ← Value_init v true None;
  out ← op x (OValue x);
  backward out;;
  ret (x, out).

(** ** Further bookkeeping *)

(** The commands that build the graph. *)
Definition constructs (c : Command) : Prop :=
  match c with Backward _ => False | _ => True end.

(** Number of calls of [backprop_calc] of [Value] [k], of operator [o]. *)
Definition received (k : nat) (l : list Event) : nat :=
  length (value_calcs k l).

Definition calcs_of (o : nat) (l : list Event) : nat :=
  length (operator_calcs o l).

(** Number of calls of [backprop_setup] of [Value] [k]. *)
Definition registrations (k : nat) (l : list Event) : nat :=
  length (omap (fun e => match e with
                         | ValueSetup n _ =>
                             if Nat.eqb k n then Some tt else None
                         | _ => None
                         end) l).

(** The gradient of a [Value] that requires gradients once the contributions
    [l] have been added, in this order, to the gradient [g0]:
    [if self.grad is None: self.grad = 0.0; self.grad += grad_output]. *)
Definition accumulate (g0 : option float) (l : list float) : option float :=
  foldl (fun acc g =>
           Some (match acc with None => 0 | Some a => a end + g)%float) g0 l.

(** A produced [Value] requires gradients exactly when an operand of its
    producer does. *)
Definition requires_consistent (h : Heap) : Prop :=
  forall n x o op, values h !! n = Some x -> _op x = Some o ->
    operators h !! o = Some op ->
    _requires_grad x = existsb (requires h) (operands op).

(** * Properties *)

(** ** Stepping through the monad *)

Lemma bind_returned {A B} (m : M A) (k : A -> M B) h a h1 :
  m h = Returned a h1 -> bind m k h = k a h1.
Proof. unfold bind. intros ->. reflexivity. Qed.

Lemma bind_heap_of {A B} (m : M A) (k : A -> M B) h h' :
  heap_of (bind m k h) = Some h' ->
  (exists a h1, m h = Returned a h1 /\ heap_of (k a h1) = Some h') \/
  (exists e, m h = Raised e h').
Proof.
  unfold bind. destruct (m h) as [a h1 | e h1 | |]; simpl; intros E.
  - left. eauto.
  - right. injection E as ->. eauto.
  - discriminate.
  - discriminate.
Qed.

Lemma bind_unit_ret (m : M unit) h : bind m (fun _ => ret tt) h = m h.
Proof. unfold bind, ret. destruct (m h) as [[] ? | | |]; reflexivity. Qed.

Lemma bind_ext {A B} (m : M A) (k k' : A -> M B) h :
  (forall a h1, k a h1 = k' a h1) -> bind m k h = bind m k' h.
Proof. intros E. unfold bind. destruct (m h); trivial. Qed.

Lemma setup_unfold fuel n h x :
  values h !! n = Some x ->
  Value_backprop_setup (S fuel) n h =
    if _backprop_count x + 1 =? 1 then
      match _op x with
      | Some o =>
          Operator_backprop_setup (Value_backprop_setup fuel) o
            (registered n x h)
      | None => Returned tt (registered n x h)
      end
    else Returned tt (registered n x h).
Proof.
  intros Hx. simpl. unfold bind at 1, get_value. rewrite Hx.
  unfold bind at 1, set_value. unfold bind at 1, emit. simpl.
  unfold registered.
  destruct (_backprop_count x + 1 =? 1); [destruct (_op x) |]; reflexivity.
Qed.

Lemma operator_setup_cases setup o h :
  Operator_backprop_setup setup o h =
    match operators h !! o with
    | None => Dangling
    | Some Operator_ => Raised RuntimeError (entered_setup o h)
    | Some op => setup_list setup (operands op) (entered_setup o h)
    end.
Proof.
  unfold Operator_backprop_setup.
  unfold bind at 1, get_operator. destruct (operators h !! o) as [op|]; trivial.
  unfold bind at 1, emit. fold (entered_setup o h).
  destruct op; trivial; simpl; unfold bind, ret;
    repeat match goal with
    | |- context [match setup ?i ?h0 with _ => _ end] =>
        destruct (setup i h0) as [[] ? | | |]
    end; reflexivity.
Qed.

Lemma calc_unfold fuel n g h :
  Value_backprop_calc (S fuel) n g h =
    match values h !! n with
    | None => Dangling
    | Some x =>
        if _requires_grad x then
          if _backprop_count x - 1 <? 0 then
            Raised AssertionError (accumulated n x g h)
          else if _backprop_count x - 1 =? 0 then
            match _op x with
            | Some o =>
                Operator_backprop_calc (Value_backprop_calc fuel) o
                  (new_grad x g) (accumulated n x g h)
            | None => Returned tt (accumulated n x g h)
            end
          else Returned tt (accumulated n x g h)
        else Returned tt (discarded n g h)
    end.
Proof.
  simpl. unfold bind at 1, get_value.
  destruct (values h !! n) as [x|]; trivial.
  unfold bind at 1, emit. simpl.
  unfold accumulated, discarded, new_grad.
  destruct (_requires_grad x); trivial.
  unfold bind at 1, set_value. simpl. unfold bind at 1, emit. simpl.
  rewrite <- app_assoc. simpl.
  destruct (_backprop_count x - 1 <? 0); trivial.
  destruct (_backprop_count x - 1 =? 0); trivial.
  destruct (_op x); trivial.
Qed.

Lemma value_item_eq n h :
  Value_item n h =
    match values h !! n with
    | Some x => Returned (_v x) h
    | None => Dangling
    end.
Proof.
  unfold Value_item, bind, get_value.
  destruct (values h !! n); reflexivity.
Qed.

(** ** What the two phases may write *)

(** A reflexive and transitive relation that contains every write of the
    setup phase relates the store before a call with the store after it,
    whether the call returns or raises. *)
Section SetupGuarantee.

Variable R : Heap -> Heap -> Prop.
Hypothesis R_refl : forall h, R h h.
Hypothesis R_trans : forall h1 h2 h3, R h1 h2 -> R h2 h3 -> R h1 h3.
Hypothesis R_registered : forall h n x,
  values h !! n = Some x -> R h (registered n x h).
Hypothesis R_entered : forall h o, R h (entered_setup o h).

Lemma setup_list_guarantee (setup : nat -> M unit) :
  (forall n h h', heap_of (setup n h) = Some h' -> R h h') ->
  forall l h h', heap_of (setup_list setup l h) = Some h' -> R h h'.
Proof.
  intros Hs l. induction l as [|i l IH]; intros h h' E.
  - injection E as <-. apply R_refl.
  - simpl in E. apply bind_heap_of in E as [(a & h1 & E1 & E2) | (e & E1)].
    + apply R_trans with h1.
      * apply Hs with i. rewrite E1. reflexivity.
      * apply IH. exact E2.
    + apply Hs with i. rewrite E1. reflexivity.
Qed.

Lemma setup_guarantee fuel : forall n h h',
  heap_of (Value_backprop_setup fuel n h) = Some h' -> R h h'.
Proof.
  induction fuel as [|fuel IH]; intros n h h' E.
  - discriminate.
  - destruct (values h !! n) as [x|] eqn:Hx.
    2:{ simpl in E. unfold bind at 1, get_value in E. rewrite Hx in E.
        discriminate. }
    rewrite (setup_unfold _ _ _ _ Hx) in E.
    pose proof (R_registered _ _ _ Hx) as R1.
    destruct (_backprop_count x + 1 =? 1);
      [destruct (_op x) as [o|] |]; try (injection E as <-; exact R1).
    rewrite operator_setup_cases in E.
    destruct (operators (registered n x h) !! o) as [op|]; [|discriminate].
    apply R_trans with (1 := R1).
    apply R_trans with (1 := R_entered _ o).
    destruct op; try (injection E as <-; apply R_refl);
      apply (setup_list_guarantee _ IH) in E; exact E.
Qed.

End SetupGuarantee.

(** The same for the calc phase, whose writes are the accumulation into a
    [Value] that requires gradients, the entry into an operator and the log
    entry of a discarded contribution. *)
Section CalcGuarantee.

Variable R : Heap -> Heap -> Prop.
Hypothesis R_refl : forall h, R h h.
Hypothesis R_trans : forall h1 h2 h3, R h1 h2 -> R h2 h3 -> R h1 h3.
Hypothesis R_accumulated : forall h n x g,
  values h !! n = Some x -> _requires_grad x = true ->
  R h (accumulated n x g h).
Hypothesis R_discarded : forall h n g, R h (discarded n g h).
Hypothesis R_entered : forall h o op g,
  operators h !! o = Some op -> R h (entered_calc o op g h).

Lemma operator_calc_guarantee (calc : nat -> float -> M unit) :
  (forall n g h h', heap_of (calc n g h) = Some h' -> R h h') ->
  forall o g h h',
    heap_of (Operator_backprop_calc calc o g h) = Some h' -> R h h'.
Proof.
  intros Hc o g h h' E. unfold Operator_backprop_calc in E.
  unfold bind at 1, get_operator in E.
  destruct (operators h !! o) as [op|] eqn:Ho; [|discriminate].
  unfold bind at 1, emit in E.
  apply R_trans with (1 := R_entered _ _ _ g Ho).
  destruct op; simpl in E; unfold entered_calc;
    try (injection E as <-; apply R_refl).
  - (* AddOp *)
    apply bind_heap_of in E as [(a & h1 & E1 & E2) | (e & E1)].
    + apply R_trans with h1; eapply Hc; [rewrite E1|]; eauto.
    + eapply Hc. rewrite E1. reflexivity.
  - (* SubOp *)
    apply bind_heap_of in E as [(a & h1 & E1 & E2) | (e & E1)].
    + apply R_trans with h1; eapply Hc; [rewrite E1|]; eauto.
    + eapply Hc. rewrite E1. reflexivity.
  - (* MulOp *)
    apply bind_heap_of in E as [(v2 & h0 & E0 & E) | (e & E0)];
      rewrite value_item_eq in E0; simpl in E0;
      destruct (values h !! _in2); try discriminate.
    injection E0 as <- <-.
    apply bind_heap_of in E as [(a & h1 & E1 & E) | (e & E1)].
    2:{ eapply Hc. rewrite E1. reflexivity. }
    apply R_trans with h1; [eapply Hc; rewrite E1; reflexivity|].
    apply bind_heap_of in E as [(v1 & h0 & E0 & E) | (e & E0)];
      rewrite value_item_eq in E0;
      destruct (values h1 !! _in1); try discriminate.
    injection E0 as <- <-. eapply Hc. exact E.
  - (* PassThroughOp *)
    unfold bind at 1, set_operator in E. simpl in E.
    eapply Hc. exact E.
Qed.

Lemma calc_guarantee fuel : forall n g h h',
  heap_of (Value_backprop_calc fuel n g h) = Some h' -> R h h'.
Proof.
  induction fuel as [|fuel IH]; intros n g h h' E.
  - discriminate.
  - rewrite calc_unfold in E.
    destruct (values h !! n) as [x|] eqn:Hx; [|discriminate].
    destruct (_requires_grad x) eqn:Hrg.
    2:{ injection E as <-. apply R_discarded. }
    pose proof (R_accumulated _ _ _ g Hx Hrg) as R1.
    destruct (_backprop_count x - 1 <? 0); [injection E as <-; exact R1|].
    destruct (_backprop_count x - 1 =? 0);
      [destruct (_op x) as [o|] |]; try (injection E as <-; exact R1).
    apply R_trans with (1 := R1).
    eapply operator_calc_guarantee; [exact IH | exact E].
Qed.

End CalcGuarantee.

(** ** The shape of the graph is never written *)

Lemma same_shape_refl h : same_shape h h.
Proof. split; reflexivity. Qed.

Lemma same_shape_trans h1 h2 h3 :
  same_shape h1 h2 -> same_shape h2 h3 -> same_shape h1 h3.
Proof. intros [A B] [C D]. split; congruence. Qed.

Lemma same_shape_sym h1 h2 : same_shape h1 h2 -> same_shape h2 h1.
Proof. intros [A B]. split; congruence. Qed.

Lemma fmap_insert_same {A B} (f : A -> B) (l : list A) n x y :
  l !! n = Some x -> f y = f x -> f <$> <[n := y]> l = f <$> l.
Proof.
  intros Hx Hf. rewrite list_fmap_insert, Hf.
  apply list_insert_id. rewrite list_lookup_fmap, Hx. reflexivity.
Qed.

Lemma same_shape_registered h n x :
  values h !! n = Some x -> same_shape h (registered n x h).
Proof.
  intros Hx. split; simpl; trivial.
  symmetry. apply fmap_insert_same with x; trivial.
Qed.

Lemma same_shape_accumulated h n x g :
  values h !! n = Some x -> same_shape h (accumulated n x g h).
Proof.
  intros Hx. split; simpl; trivial.
  symmetry. apply fmap_insert_same with x; trivial.
Qed.

Lemma same_shape_entered_calc h o op g :
  operators h !! o = Some op -> same_shape h (entered_calc o op g h).
Proof.
  intros Ho. split; simpl; trivial.
  destruct op; trivial.
  symmetry. apply fmap_insert_same with (PassThroughOp _in1 backprop_count);
    trivial.
Qed.

Lemma setup_same_shape fuel n h h' :
  heap_of (Value_backprop_setup fuel n h) = Some h' -> same_shape h h'.
Proof.
  apply setup_guarantee.
  - apply same_shape_refl.
  - apply same_shape_trans.
  - apply same_shape_registered.
  - intros. split; reflexivity.
Qed.

Lemma calc_same_shape fuel n g h h' :
  heap_of (Value_backprop_calc fuel n g h) = Some h' -> same_shape h h'.
Proof.
  apply calc_guarantee.
  - apply same_shape_refl.
  - apply same_shape_trans.
  - intros. apply same_shape_accumulated. assumption.
  - intros. split; reflexivity.
  - apply same_shape_entered_calc.
Qed.

Lemma same_shape_length h h' :
  same_shape h h' -> length (values h') = length (values h).
Proof.
  intros [A _]. apply (f_equal length) in A.
  rewrite !length_fmap in A. congruence.
Qed.

Lemma same_shape_value h h' n x :
  same_shape h h' -> values h !! n = Some x ->
  exists x', values h' !! n = Some x' /\ _v x' = _v x /\
             _requires_grad x' = _requires_grad x /\ _op x' = _op x.
Proof.
  intros [A _] Hx.
  apply (f_equal (fun l => l !! n)) in A.
  rewrite !list_lookup_fmap, Hx in A. simpl in A.
  destruct (values h' !! n) as [x'|]; [|discriminate].
  injection A as A1 A2 A3. eauto.
Qed.

Lemma operator_shape_operands op op' :
  operator_shape op' = operator_shape op ->
  operands op' = operands op /\ concrete op' = concrete op.
Proof. destruct op, op'; simpl; intros E; try discriminate; inversion E; auto. Qed.

Lemma same_shape_operator h h' o op :
  same_shape h h' -> operators h !! o = Some op ->
  exists op', operators h' !! o = Some op' /\
              operands op' = operands op /\ concrete op' = concrete op.
Proof.
  intros [_ A] Ho.
  apply (f_equal (fun l => l !! o)) in A.
  rewrite !list_lookup_fmap, Ho in A. simpl in A.
  destruct (operators h' !! o) as [op'|]; [|discriminate].
  injection A as A. exists op'. split; trivial.
  apply operator_shape_operands. congruence.
Qed.

Lemma same_shape_item h h' n : same_shape h h' -> item_of h' n = item_of h n.
Proof.
  intros S. unfold item_of.
  destruct (values h !! n) as [x|] eqn:Hx.
  - destruct (same_shape_value _ _ _ _ S Hx) as (x' & -> & E & _). exact E.
  - destruct (values h' !! n) as [x'|] eqn:Hx'; trivial.
    destruct (same_shape_value _ _ _ _ (same_shape_sym _ _ S) Hx')
      as (y & Hy & _). congruence.
Qed.

Lemma same_shape_requires h h' n :
  same_shape h h' -> requires h' n = requires h n.
Proof.
  intros S. unfold requires.
  destruct (values h !! n) as [x|] eqn:Hx.
  - destruct (same_shape_value _ _ _ _ S Hx) as (x' & -> & _ & E & _). exact E.
  - destruct (values h' !! n) as [x'|] eqn:Hx'; trivial.
    destruct (same_shape_value _ _ _ _ (same_shape_sym _ _ S) Hx')
      as (y & Hy & _). congruence.
Qed.

Lemma same_shape_well_formed h h' :
  same_shape h h' -> well_formed h -> well_formed h'.
Proof.
  intros S [W1 W2 W3]. pose proof (same_shape_sym _ _ S) as S'.
  split.
  - intros n x o Hx Ho.
    destruct (same_shape_value _ _ _ _ S' Hx) as (y & Hy & _ & _ & Eo).
    destruct (W1 n y o Hy) as (op & Hop & Hc & Hlt); [congruence|].
    destruct (same_shape_operator _ _ _ _ S Hop) as (op' & Hop' & E1 & E2).
    exists op'. rewrite E1, E2. auto.
  - intros n n' x x' o Hx Hx' Ho Ho'.
    destruct (same_shape_value _ _ _ _ S' Hx) as (y & Hy & _ & _ & Eo).
    destruct (same_shape_value _ _ _ _ S' Hx') as (y' & Hy' & _ & _ & Eo').
    apply (W2 n n' y y' o); congruence.
  - intros n x o op i Hx Ho Hop Hi Hr.
    destruct (same_shape_value _ _ _ _ S' Hx) as (y & Hy & _ & Er & Eo).
    destruct (same_shape_operator _ _ _ _ S' Hop) as (op' & Hop' & E1 & _).
    rewrite <- Er. apply (W3 n y o op' i); try congruence.
    rewrite <- (same_shape_requires _ _ _ S). exact Hr.
Qed.

Lemma operator_calc_cases fuel o g h op :
  operators h !! o = Some op ->
  Forall (fun i => (i < length (values h))%nat) (operands op) ->
  Operator_backprop_calc (Value_backprop_calc fuel) o g h =
    if concrete op then
      calc_list (Value_backprop_calc fuel) (contributions h op g)
        (entered_calc o op g h)
    else Raised RuntimeError (entered_calc o op g h).
Proof.
  intros Ho Hv. unfold Operator_backprop_calc.
  unfold bind at 1, get_operator. rewrite Ho.
  unfold bind at 1, emit.
  destruct op; simpl; trivial; unfold entered_calc.
  - apply bind_ext. intros. symmetry. apply bind_unit_ret.
  - apply bind_ext. intros. symmetry. apply bind_unit_ret.
  - inversion Hv as [|? ? H1 Hv']. inversion Hv' as [|? ? H2 _]. subst.
    apply lookup_lt_is_Some in H1 as [y1 Hy1], H2 as [y2 Hy2].
    set (h1 := mkHeap _ _ _).
    unfold bind at 1. rewrite value_item_eq. simpl. rewrite Hy2.
    assert (E2 : item_of h _in2 = _v y2)
      by (unfold item_of; rewrite Hy2; trivial).
    rewrite E2. unfold bind at 1 3.
    destruct (Value_backprop_calc fuel _in1 (g * _v y2) h1)
      as [[] h2 | | |] eqn:E; trivial.
    assert (S : same_shape h1 h2)
      by (eapply calc_same_shape; rewrite E; trivial).
    destruct (same_shape_value h1 h2 _in1 y1 S Hy1) as (y1' & Hy1' & Ev & _).
    unfold bind at 1. rewrite value_item_eq, Hy1'.
    assert (E1 : item_of h _in1 = _v y1)
      by (unfold item_of; rewrite Hy1; trivial).
    rewrite E1, Ev. symmetry. apply bind_unit_ret.
  - unfold bind at 1, set_operator. simpl.
    symmetry. apply bind_unit_ret.
Qed.

(** ** Both phases return on a well-formed graph *)

Lemma concrete_not_base op : concrete op = true -> op <> Operator_.
Proof. intros H ->. discriminate. Qed.

Lemma setup_list_run (setup : nat -> M unit) (m : nat) :
  (forall n h, well_formed h -> (n < m)%nat -> (n < length (values h))%nat ->
     exists h', setup n h = Returned tt h' /\ same_shape h h') ->
  forall l h, well_formed h ->
    Forall (fun i => (i < m)%nat /\ (i < length (values h))%nat) l ->
    exists h', setup_list setup l h = Returned tt h' /\ same_shape h h'.
Proof.
  intros Hs l. induction l as [|i l IH]; intros h W Hl.
  - exists h. split; [reflexivity | apply same_shape_refl].
  - inversion Hl as [|? ? [Hi Hi'] Hl']. subst.
    destruct (Hs i h W Hi Hi') as (h1 & E1 & S1).
    destruct (IH h1) as (h2 & E2 & S2).
    + eapply same_shape_well_formed; eauto.
    + rewrite (same_shape_length _ _ S1). exact Hl'.
    + exists h2. split; [|eapply same_shape_trans; eauto].
      simpl. rewrite (bind_returned _ _ _ _ _ E1). exact E2.
Qed.

Lemma setup_returns fuel : forall n h,
  well_formed h -> (n < fuel)%nat -> (n < length (values h))%nat ->
  exists h', Value_backprop_setup fuel n h = Returned tt h' /\ same_shape h h'.
Proof.
  induction fuel as [|fuel IH]; intros n h W Hf Hn; [lia|].
  assert (Hres : exists h', Value_backprop_setup (S fuel) n h = Returned tt h').
  2:{ destruct Hres as (h' & E). exists h'. split; trivial.
      eapply setup_same_shape. rewrite E. reflexivity. }
  destruct (lookup_lt_is_Some_2 _ _ Hn) as [x Hx].
  rewrite (setup_unfold _ _ _ _ Hx).
  destruct (_backprop_count x + 1 =? 1); [|eauto].
  destruct (_op x) as [o|] eqn:Ho; [|eauto].
  destruct (wf_producer _ W n x o Hx Ho) as (op & Hop & Hc & Hlt).
  rewrite operator_setup_cases. simpl. rewrite Hop.
  assert (W1 : well_formed (entered_setup o (registered n x h))).
  { eapply same_shape_well_formed; [|exact W].
    apply (same_shape_registered h n x Hx). }
  destruct (setup_list_run (Value_backprop_setup fuel) n) with
    (l := operands op) (h := entered_setup o (registered n x h))
    as (h' & E & _); trivial.
  - intros. apply IH; trivial. lia.
  - simpl. rewrite length_insert.
    eapply Forall_impl; [exact Hlt|]. simpl. intros. lia.
  - exists h'. destruct op; try discriminate; exact E.
Qed.

(** ** Induction on a call that returned *)

Section SetupInduction.

Variable P : nat -> Heap -> Heap -> Prop.
Variable Q : list nat -> Heap -> Heap -> Prop.
Hypothesis P_again : forall n h x,
  well_formed h -> values h !! n = Some x ->
  _backprop_count x <> 0 \/ _op x = None ->
  P n h (registered n x h).
Hypothesis P_first : forall n h x o op h',
  well_formed h -> values h !! n = Some x -> _backprop_count x = 0 ->
  _op x = Some o -> operators h !! o = Some op ->
  same_shape h h' ->
  Q (operands op) (entered_setup o (registered n x h)) h' ->
  P n h h'.
Hypothesis Q_nil : forall h, well_formed h -> Q [] h h.
Hypothesis Q_cons : forall i l h h1 h2,
  well_formed h -> same_shape h h1 -> same_shape h1 h2 ->
  P i h h1 -> Q l h1 h2 -> Q (i :: l) h h2.

Lemma setup_list_returned_ind (setup : nat -> M unit) :
  (forall n h h', well_formed h -> setup n h = Returned tt h' ->
     P n h h' /\ same_shape h h') ->
  forall l h h', well_formed h -> setup_list setup l h = Returned tt h' ->
    Q l h h' /\ same_shape h h'.
Proof.
  intros Hs l. induction l as [|i l IH]; intros h h' W E.
  - injection E as <-. split; [apply Q_nil, W | apply same_shape_refl].
  - simpl in E. unfold bind in E.
    destruct (setup i h) as [[] h1 | | |] eqn:E1; try discriminate.
    destruct (Hs _ _ _ W E1) as [HP S].
    destruct (IH h1 h') as [HQ S']; trivial.
    { eapply same_shape_well_formed; eauto. }
    split; [|eapply same_shape_trans; eauto].
    apply Q_cons with h1; trivial.
Qed.

Lemma setup_returned_ind fuel : forall n h h',
  well_formed h -> Value_backprop_setup fuel n h = Returned tt h' ->
  P n h h'.
Proof.
  induction fuel as [|fuel IH]; intros n h h' W E; [discriminate|].
  destruct (values h !! n) as [x|] eqn:Hx.
  2:{ simpl in E. unfold bind at 1, get_value in E. rewrite Hx in E.
      discriminate. }
  rewrite (setup_unfold _ _ _ _ Hx) in E.
  destruct (_backprop_count x + 1 =? 1) eqn:Hc.
  2:{ injection E as <-. apply P_again; trivial. left. lia. }
  destruct (_op x) as [o|] eqn:Ho.
  2:{ injection E as <-. apply P_again; auto. }
  destruct (wf_producer _ W n x o Hx Ho) as (op & Hop & Hcon & Hlt).
  rewrite operator_setup_cases in E. simpl in E. rewrite Hop in E.
  pose proof (same_shape_registered h n x Hx) as S1.
  destruct (setup_list_returned_ind (Value_backprop_setup fuel))
    with (l := operands op) (h := entered_setup o (registered n x h))
         (h' := h') as [HQ S2].
  - intros m h1 h2 W1 E1. split; [apply IH; trivial|].
    eapply setup_same_shape. rewrite E1. reflexivity.
  - eapply same_shape_well_formed; [|exact W]. exact S1.
  - destruct op; try discriminate; exact E.
  - apply P_first with x o op; trivial; [lia|].
    eapply same_shape_trans; [exact S1 | exact S2].
Qed.

End SetupInduction.

Section CalcInduction.

Variable P : nat -> float -> Heap -> Heap -> Prop.
Variable Q : list (nat * float) -> Heap -> Heap -> Prop.
Hypothesis P_discard : forall n g h x,
  well_formed h -> values h !! n = Some x -> _requires_grad x = false ->
  P n g h (discarded n g h).
Hypothesis P_hold : forall n g h x,
  well_formed h -> values h !! n = Some x -> _requires_grad x = true ->
  1 <= _backprop_count x ->
  _backprop_count x <> 1 \/ _op x = None ->
  P n g h (accumulated n x g h).
Hypothesis P_release : forall n g h x o op h',
  well_formed h -> values h !! n = Some x -> _requires_grad x = true ->
  _backprop_count x = 1 -> _op x = Some o -> operators h !! o = Some op ->
  same_shape h h' ->
  Q (contributions h op (new_grad x g))
    (entered_calc o op (new_grad x g) (accumulated n x g h)) h' ->
  P n g h h'.
Hypothesis Q_nil : forall h, well_formed h -> Q [] h h.
Hypothesis Q_cons : forall i g l h h1 h2,
  well_formed h -> same_shape h h1 -> same_shape h1 h2 ->
  P i g h h1 -> Q l h1 h2 -> Q ((i, g) :: l) h h2.

Lemma calc_list_returned_ind (calc : nat -> float -> M unit) :
  (forall n g h h', well_formed h -> calc n g h = Returned tt h' ->
     P n g h h' /\ same_shape h h') ->
  forall l h h', well_formed h -> calc_list calc l h = Returned tt h' ->
    Q l h h' /\ same_shape h h'.
Proof.
  intros Hs l. induction l as [|[i g] l IH]; intros h h' W E.
  - injection E as <-. split; [apply Q_nil, W | apply same_shape_refl].
  - simpl in E. unfold bind in E.
    destruct (calc i g h) as [[] h1 | | |] eqn:E1; try discriminate.
    destruct (Hs _ _ _ _ W E1) as [HP S].
    destruct (IH h1 h') as [HQ S']; trivial.
    { eapply same_shape_well_formed; eauto. }
    split; [|eapply same_shape_trans; eauto].
    apply Q_cons with h1; trivial.
Qed.

Lemma calc_returned_ind fuel : forall n g h h',
  well_formed h -> Value_backprop_calc fuel n g h = Returned tt h' ->
  P n g h h'.
Proof.
  induction fuel as [|fuel IH]; intros n g h h' W E; [discriminate|].
  rewrite calc_unfold in E.
  destruct (values h !! n) as [x|] eqn:Hx; [|discriminate].
  destruct (_requires_grad x) eqn:Hrg.
  2:{ injection E as <-. apply P_discard with x; trivial. }
  destruct (_backprop_count x - 1 <? 0) eqn:Hneg; [discriminate|].
  destruct (_backprop_count x - 1 =? 0) eqn:Hc.
  2:{ injection E as <-. apply P_hold; trivial; [lia | left; lia]. }
  destruct (_op x) as [o|] eqn:Ho.
  2:{ injection E as <-. apply P_hold; auto. lia. }
  destruct (wf_producer _ W n x o Hx Ho) as (op & Hop & Hcon & Hlt).
  pose proof (same_shape_accumulated h n x g Hx) as S1.
  rewrite (operator_calc_cases _ _ _ _ op), Hcon in E; trivial.
  2:{ simpl. rewrite length_insert.
      eapply Forall_impl; [exact Hlt|]. simpl. intros i Hi.
      apply lookup_lt_Some in Hx. lia. }
  assert (S2 : same_shape h
            (entered_calc o op (new_grad x g) (accumulated n x g h))).
  { eapply same_shape_trans; [exact S1|].
    apply same_shape_entered_calc. exact Hop. }
  destruct (calc_list_returned_ind (Value_backprop_calc fuel))
    with (l := contributions (accumulated n x g h) op (new_grad x g))
         (h := entered_calc o op (new_grad x g) (accumulated n x g h))
         (h' := h') as [HQ S3].
  - intros m g1 h1 h2 W1 E1. split; [apply IH; trivial|].
    eapply calc_same_shape. rewrite E1. reflexivity.
  - eapply same_shape_well_formed; [|exact W]. exact S2.
  - exact E.
  - apply P_release with x o op; trivial; [lia | |].
    + eapply same_shape_trans; [exact S2 | exact S3].
    + replace (contributions h op (new_grad x g))
        with (contributions (accumulated n x g h) op (new_grad x g));
        trivial.
      destruct op; simpl; trivial.
      rewrite !(same_shape_item _ _ _ S1). trivial.
Qed.

End CalcInduction.

(** ** Counting the contributions *)

Lemma occ_nonneg k l : 0 <= occ k l.
Proof. induction l as [|i l IH]; simpl; [lia|]. destruct (Nat.eqb i k); lia. Qed.

Lemma occ_pos_elem k l : 0 < occ k l -> k ∈ l.
Proof.
  induction l as [|i l IH]; simpl; [lia|].
  destruct (Nat.eqb_spec i k) as [->|]; intros H.
  - apply elem_of_cons. auto.
  - apply elem_of_cons. right. apply IH. lia.
Qed.

Lemma due_nonneg ops k x : 0 <= due ops k x.
Proof.
  unfold due. destruct (_op x); [|lia].
  destruct (ops !! n); [apply occ_nonneg | lia].
Qed.

Lemma owed_by_nonneg ops k x : 0 <= owed_by ops k x.
Proof.
  unfold owed_by. destruct (1 <=? _backprop_count x); [apply due_nonneg | lia].
Qed.

Lemma sumZ_nonneg l : Forall (fun z => 0 <= z) l -> 0 <= sumZ l.
Proof. induction 1; simpl; lia. Qed.

Lemma sumZ_insert l n a b :
  l !! n = Some a -> sumZ (<[n := b]> l) = sumZ l - a + b.
Proof.
  revert n. induction l as [|z l IH]; intros [|n] E; try discriminate.
  - injection E as ->. simpl. lia.
  - simpl in *. rewrite (IH n E). lia.
Qed.

Lemma owed_nonneg h k : 0 <= owed h k.
Proof.
  apply sumZ_nonneg, Forall_fmap, Forall_forall.
  intros x _. apply owed_by_nonneg.
Qed.

Lemma owed_insert h n x y k l :
  values h !! n = Some x ->
  owed (mkHeap (<[n := y]> (values h)) (operators h) l) k =
    owed h k - owed_by (operators h) k x + owed_by (operators h) k y.
Proof.
  intros Hx. unfold owed. simpl. rewrite list_fmap_insert.
  apply sumZ_insert. rewrite list_lookup_fmap, Hx. reflexivity.
Qed.

Lemma count_of_insert h n x y k l :
  values h !! n = Some x ->
  count_of (mkHeap (<[n := y]> (values h)) (operators h) l) k =
    if Nat.eqb n k then _backprop_count y else count_of h k.
Proof.
  intros Hx. unfold count_of. simpl.
  destruct (Nat.eqb_spec n k) as [->|Hne].
  - rewrite list_lookup_insert_eq; trivial. eapply lookup_lt_Some; eauto.
  - rewrite list_lookup_insert_ne; trivial.
Qed.

Lemma due_same_shape ops ops' k x :
  operator_shape <$> ops = operator_shape <$> ops' ->
  due ops' k x = due ops k x.
Proof.
  intros E. unfold due. destruct (_op x) as [o|]; trivial.
  apply (f_equal (fun l => l !! o)) in E. rewrite !list_lookup_fmap in E.
  destruct (ops !! o) as [op|], (ops' !! o) as [op'|]; try discriminate;
    trivial.
  injection E as E. symmetry in E.
  apply operator_shape_operands in E as [-> _]. trivial.
Qed.

Lemma owed_operators h ops l k :
  operator_shape <$> operators h = operator_shape <$> ops ->
  owed (mkHeap (values h) ops l) k = owed h k.
Proof.
  intros E. unfold owed. simpl. f_equal.
  apply list_fmap_ext. intros i x _. unfold owed_by.
  rewrite (due_same_shape _ _ _ _ E). trivial.
Qed.

Lemma balance_registered h n x k :
  values h !! n = Some x ->
  balance (registered n x h) k =
    balance h k + (if Nat.eqb n k then 1 else 0)
    - (if _backprop_count x =? 0 then due (operators h) k x else 0).
Proof.
  intros Hx. unfold balance, registered.
  rewrite (owed_insert _ _ _ _ _ _ Hx), (count_of_insert _ _ _ _ _ _ Hx).
  unfold owed_by. simpl.
  replace (due (operators h) k (mkValue (_v x) (_requires_grad x) (grad x)
             (_op x) (_backprop_count x + 1))) with (due (operators h) k x)
    by reflexivity.
  assert (Hc : count_of h n = _backprop_count x)
    by (unfold count_of; rewrite Hx; trivial).
  destruct (Nat.eqb_spec n k) as [->|];
    destruct (Z.leb_spec 1 (_backprop_count x + 1));
    destruct (Z.leb_spec 1 (_backprop_count x));
    destruct (Z.eqb_spec (_backprop_count x) 0); lia.
Qed.

Lemma balance_accumulated h n x g k :
  values h !! n = Some x ->
  balance (accumulated n x g h) k =
    balance h k - (if Nat.eqb n k then 1 else 0)
    + (if _backprop_count x =? 1 then due (operators h) k x else 0).
Proof.
  intros Hx. unfold balance, accumulated.
  rewrite (owed_insert _ _ _ _ _ _ Hx), (count_of_insert _ _ _ _ _ _ Hx).
  unfold owed_by. simpl.
  replace (due (operators h) k (mkValue (_v x) (_requires_grad x)
             (Some (match grad x with None => 0 | Some g0 => g0 end + g)%float)
             (_op x) (_backprop_count x - 1))) with (due (operators h) k x)
    by reflexivity.
  assert (Hc : count_of h n = _backprop_count x)
    by (unfold count_of; rewrite Hx; trivial).
  destruct (Nat.eqb_spec n k) as [->|];
    destruct (Z.leb_spec 1 (_backprop_count x - 1));
    destruct (Z.leb_spec 1 (_backprop_count x));
    destruct (Z.eqb_spec (_backprop_count x) 1); lia.
Qed.

Lemma balance_entered_calc h o op g k :
  operators h !! o = Some op ->
  balance (entered_calc o op g h) k = balance h k.
Proof.
  intros Ho. unfold balance, entered_calc. f_equal.
  apply owed_operators.
  apply (same_shape_entered_calc h o op g Ho).
Qed.

Lemma due_producer h x o op k :
  _op x = Some o -> operators h !! o = Some op ->
  due (operators h) k x = occ k (operands op).
Proof. intros E1 E2. unfold due. rewrite E1, E2. trivial. Qed.

Lemma due_leaf ops x k : _op x = None -> due ops k x = 0.
Proof. intros E. unfold due. rewrite E. trivial. Qed.

Lemma contributions_operands h op g :
  concrete op = true -> (contributions h op g).*1 = operands op.
Proof. destruct op; simpl; trivial; discriminate. Qed.

(** [backprop_setup] registers one contribution for its receiver, and every
    contribution registered below it is owed by an operator. *)
Lemma setup_balance fuel n h h' :
  well_formed h -> Value_backprop_setup fuel n h = Returned tt h' ->
  forall k, balance h' k = balance h k + (if Nat.eqb n k then 1 else 0).
Proof.
  revert n h h'.
  apply (setup_returned_ind
    (fun n h h' => forall k,
       balance h' k = balance h k + (if Nat.eqb n k then 1 else 0))
    (fun l h h' => forall k, balance h' k = balance h k + occ k l)).
  - intros n h x W Hx Hc k. rewrite (balance_registered _ _ _ _ Hx).
    destruct Hc as [Hc | Hc].
    + destruct (Z.eqb_spec (_backprop_count x) 0); lia.
    + rewrite (due_leaf _ _ _ Hc). destruct (_backprop_count x =? 0); lia.
  - intros n h x o op h' W Hx Hc Ho Hop S HQ k.
    rewrite HQ. change (balance (entered_setup o (registered n x h)) k)
      with (balance (registered n x h) k).
    rewrite (balance_registered _ _ _ _ Hx), Hc. simpl.
    rewrite (due_producer _ _ _ _ _ Ho Hop). lia.
  - intros. simpl. lia.
  - intros i l h h1 h2 W S1 S2 HP HQ k. rewrite HQ, HP. simpl. lia.
Qed.

(** [backprop_calc] consumes one registered contribution of its receiver. *)
Lemma calc_balance fuel n g h h' :
  well_formed h -> Value_backprop_calc fuel n g h = Returned tt h' ->
  forall k, requires h k = true ->
    balance h' k = balance h k - (if Nat.eqb n k then 1 else 0).
Proof.
  revert n g h h'.
  apply (calc_returned_ind
    (fun n g h h' => forall k, requires h k = true ->
       balance h' k = balance h k - (if Nat.eqb n k then 1 else 0))
    (fun l h h' => forall k, requires h k = true ->
       balance h' k = balance h k - occ k l.*1)).
  - intros n g h x W Hx Hrg k Hk.
    change (balance (discarded n g h) k) with (balance h k).
    destruct (Nat.eqb_spec n k) as [->|]; [|lia].
    unfold requires in Hk. rewrite Hx in Hk. congruence.
  - intros n g h x W Hx Hrg Hc Hc' k _.
    rewrite (balance_accumulated _ _ _ _ _ Hx).
    destruct Hc' as [Hc' | Hc'].
    + destruct (Z.eqb_spec (_backprop_count x) 1); lia.
    + rewrite (due_leaf _ _ _ Hc'). destruct (_backprop_count x =? 1); lia.
  - intros n g h x o op h' W Hx Hrg Hc Ho Hop S HQ k Hk.
    destruct (wf_producer _ W n x o Hx Ho) as (op' & Hop' & Hcon & _).
    assert (op' = op) as -> by congruence.
    rewrite HQ.
    2:{ erewrite same_shape_requires; [exact Hk|].
        eapply same_shape_trans; [apply (same_shape_accumulated h n x g Hx)|].
        apply same_shape_entered_calc. exact Hop. }
    rewrite balance_entered_calc by exact Hop.
    rewrite (balance_accumulated _ _ _ _ _ Hx), Hc. simpl.
    rewrite (due_producer _ _ _ _ _ Ho Hop).
    rewrite contributions_operands by exact Hcon. lia.
  - intros. simpl. lia.
  - intros i g l h h1 h2 W S1 S2 HP HQ k Hk. rewrite HQ, HP; trivial.
    + rewrite fmap_cons. cbn [occ fst]. lia.
    + rewrite (same_shape_requires _ _ _ S1). exact Hk.
Qed.

Lemma count_balance h k : count_of h k = balance h k + owed h k.
Proof. unfold balance. lia. Qed.

Lemma calc_list_returns (calc : nat -> float -> M unit) (m : nat) :
  (forall n g h (D : nat -> Z), well_formed h -> (n < m)%nat ->
     (n < length (values h))%nat -> (forall k, 0 <= D k) ->
     (forall k, requires h k = true ->
        D k + (if Nat.eqb n k then 1 else 0) <= balance h k) ->
     exists h', calc n g h = Returned tt h' /\ same_shape h h' /\
       forall k, requires h k = true ->
         balance h' k = balance h k - (if Nat.eqb n k then 1 else 0)) ->
  forall l h (D : nat -> Z), well_formed h ->
    Forall (fun i => (i < m)%nat /\ (i < length (values h))%nat) l.*1 ->
    (forall k, 0 <= D k) ->
    (forall k, requires h k = true -> D k + occ k l.*1 <= balance h k) ->
    exists h', calc_list calc l h = Returned tt h'.
Proof.
  intros Hs l. induction l as [|[i g] l IH]; intros h D W Hl HD Hb.
  - exists h. reflexivity.
  - rewrite fmap_cons in Hl, Hb. cbn [occ fst] in Hl, Hb.
    inversion Hl as [|? ? [Hi Hi'] Hl']. subst.
    destruct (Hs i g h (fun k => D k + occ k l.*1) W Hi Hi')
      as (h1 & E1 & S1 & B1).
    + intros k. pose proof (HD k). pose proof (occ_nonneg k l.*1). lia.
    + intros k Hk. specialize (Hb k Hk). lia.
    + destruct (IH h1 D) as (h2 & E2); trivial.
      * eapply same_shape_well_formed; eauto.
      * rewrite (same_shape_length _ _ S1). exact Hl'.
      * intros k Hk. rewrite (same_shape_requires _ _ _ S1) in Hk.
        rewrite (B1 k Hk). specialize (Hb k Hk). lia.
      * exists h2. simpl. rewrite (bind_returned _ _ _ _ _ E1). exact E2.
Qed.

(** A contribution that was registered and is not owed to anyone else can be
    accumulated: the assertion holds and the call returns. *)
Lemma calc_returns fuel : forall n g h (D : nat -> Z),
  well_formed h -> (n < fuel)%nat -> (n < length (values h))%nat ->
  (forall k, 0 <= D k) ->
  (forall k, requires h k = true ->
     D k + (if Nat.eqb n k then 1 else 0) <= balance h k) ->
  exists h', Value_backprop_calc fuel n g h = Returned tt h' /\
    same_shape h h' /\
    forall k, requires h k = true ->
      balance h' k = balance h k - (if Nat.eqb n k then 1 else 0).
Proof.
  induction fuel as [|fuel IH]; intros n g h D W Hf Hn HD Hb; [lia|].
  assert (Hres : exists h', Value_backprop_calc (S fuel) n g h = Returned tt h').
  2:{ destruct Hres as (h' & E). exists h'. split; trivial. split.
      - eapply calc_same_shape. rewrite E. reflexivity.
      - eapply calc_balance; eauto. }
  destruct (lookup_lt_is_Some_2 _ _ Hn) as [x Hx].
  rewrite calc_unfold, Hx.
  destruct (_requires_grad x) eqn:Hrg; [|eauto].
  assert (Hk : requires h n = true) by (unfold requires; rewrite Hx; trivial).
  assert (Hc : 1 <= _backprop_count x).
  { pose proof (Hb n Hk) as B. rewrite Nat.eqb_refl in B.
    pose proof (count_balance h n) as C. unfold count_of in C at 1.
    rewrite Hx in C. pose proof (owed_nonneg h n). pose proof (HD n). lia. }
  destruct (Z.ltb_spec (_backprop_count x - 1) 0); [lia|].
  destruct (Z.eqb_spec (_backprop_count x - 1) 0) as [Hz|]; [|eauto].
  destruct (_op x) as [o|] eqn:Ho; [|eauto].
  destruct (wf_producer _ W n x o Hx Ho) as (op & Hop & Hcon & Hlt).
  pose proof (same_shape_accumulated h n x g Hx) as S1.
  set (h1 := accumulated n x g h) in *.
  assert (S2 : same_shape h (entered_calc o op (new_grad x g) h1)).
  { eapply same_shape_trans; [exact S1|].
    apply same_shape_entered_calc. exact Hop. }
  assert (Hlen : length (values h1) = length (values h))
    by apply (same_shape_length _ _ S1).
  rewrite (operator_calc_cases _ _ _ _ op), Hcon; trivial.
  2:{ rewrite Hlen. eapply Forall_impl; [exact Hlt|]. simpl. intros. lia. }
  apply (calc_list_returns (Value_backprop_calc fuel) n) with (D := D); trivial.
  - intros. apply IH with D0; trivial. lia.
  - eapply same_shape_well_formed; [exact S2 | exact W].
  - rewrite contributions_operands by exact Hcon.
    change (values (entered_calc o op (new_grad x g) h1)) with (values h1).
    rewrite Hlen.
    eapply Forall_impl; [exact Hlt|]. simpl. intros. lia.
  - intros k Hk'. rewrite (same_shape_requires _ _ _ S2) in Hk'.
    rewrite contributions_operands by exact Hcon.
    rewrite balance_entered_calc by exact Hop.
    unfold h1. rewrite (balance_accumulated _ _ _ _ _ Hx).
    replace (_backprop_count x =? 1) with true by (symmetry; apply Z.eqb_eq; lia).
    rewrite (due_producer _ _ _ _ _ Ho Hop).
    specialize (Hb k Hk'). lia.
Qed.

(** ** A whole backward pass *)

Lemma backward_unfold n h :
  backward n h =
    bind (Value_backprop_setup (length (values h)) n)
         (fun _ => Value_backprop_calc (length (values h)) n 1%float) h.
Proof. reflexivity. Qed.

Lemma backward_returns n h :
  well_formed h -> settled h -> (n < length (values h))%nat ->
  exists h1 h', Value_backprop_setup (length (values h)) n h = Returned tt h1 /\
    Value_backprop_calc (length (values h)) n 1%float h1 = Returned tt h' /\
    backward n h = Returned tt h' /\
    same_shape h h1 /\ same_shape h1 h' /\ settled h'.
Proof.
  intros W St Hn.
  destruct (setup_returns (length (values h)) n h W Hn Hn) as (h1 & E1 & S1).
  pose proof (setup_balance _ _ _ _ W E1) as B1.
  pose proof (same_shape_well_formed _ _ S1 W) as W1.
  destruct (calc_returns (length (values h)) n 1%float h1 (fun _ => 0))
    as (h' & E2 & S2 & B2); trivial.
  - rewrite (same_shape_length _ _ S1). exact Hn.
  - intros. lia.
  - intros k Hk. rewrite (same_shape_requires _ _ _ S1) in Hk.
    rewrite B1, (St k Hk). lia.
  - exists h1, h'. split; [exact E1|]. split; [exact E2|].
    split; [|split; [exact S1|split; [exact S2|]]].
    + rewrite backward_unfold, (bind_returned _ _ _ _ _ E1). exact E2.
    + intros k Hk.
      rewrite (same_shape_requires _ _ _ S2), (same_shape_requires _ _ _ S1)
        in Hk.
      rewrite B2, B1, (St k Hk); [lia|].
      rewrite (same_shape_requires _ _ _ S1). exact Hk.
Qed.

Lemma sumZ_zero l : (forall i z, l !! i = Some z -> z = 0) -> sumZ l = 0.
Proof.
  induction l as [|a l IH]; intros H; trivial.
  simpl. rewrite (H 0%nat a eq_refl), IH; trivial.
  intros i z E. apply (H (S i)). exact E.
Qed.

Lemma requires_lt h k : requires h k = true -> (k < length (values h))%nat.
Proof.
  unfold requires. destruct (values h !! k) as [x|] eqn:E; [|discriminate].
  intros _. eapply lookup_lt_Some; eauto.
Qed.

(** Between two passes the counter of every differentiable [Value] of a
    well-formed graph is zero. *)
Lemma settled_zero h :
  well_formed h -> settled h ->
  forall k, requires h k = true -> count_of h k = 0.
Proof.
  intros W St.
  assert (H : forall d k, (length (values h) - k <= d)%nat ->
            requires h k = true -> count_of h k = 0).
  2:{ intros k. apply (H (length (values h) - k)%nat). lia. }
  induction d as [|d IH]; intros k Hd Hk.
  - apply requires_lt in Hk. lia.
  - rewrite count_balance, (St k Hk). simpl.
    apply sumZ_zero. intros m z Hz.
    rewrite list_lookup_fmap in Hz.
    destruct (values h !! m) as [x|] eqn:Hx; [|discriminate].
    injection Hz as <-. unfold owed_by.
    destruct (Z.leb_spec 1 (_backprop_count x)) as [Hc|]; trivial.
    unfold due. destruct (_op x) as [o|] eqn:Ho; trivial.
    destruct (operators h !! o) as [op|] eqn:Hop; trivial.
    pose proof (occ_nonneg k (operands op)) as Hocc.
    destruct (Z.eq_dec (occ k (operands op)) 0) as [|Hne]; trivial.
    exfalso.
    assert (Hin : k ∈ operands op) by (apply occ_pos_elem; lia).
    destruct (wf_producer _ W m x o Hx Ho) as (op' & Hop' & _ & Hlt).
    assert (op' = op) as -> by congruence.
    rewrite Forall_forall in Hlt. specialize (Hlt k Hin).
    pose proof (wf_requires _ W m x o op k Hx Ho Hop Hin Hk) as Hrg.
    assert (Hm : count_of h m = 0).
    { apply IH.
      - apply lookup_lt_Some in Hx. apply requires_lt in Hk. lia.
      - unfold requires. rewrite Hx. exact Hrg. }
    unfold count_of in Hm. rewrite Hx in Hm. lia.
Qed.

(** ** The counters stay non-negative *)

Lemma counters_kept_trans h1 h2 h3 :
  counters_kept h1 h2 -> counters_kept h2 h3 -> counters_kept h1 h3.
Proof.
  intros A B N1. destruct (A N1) as (N2 & l1 & E1 & F1).
  destruct (B N2) as (N3 & l2 & E2 & F2).
  split; trivial. exists (l1 ++ l2). split.
  - rewrite E2, E1, app_assoc. trivial.
  - apply Forall_app. auto.
Qed.

Lemma counters_kept_refl h : counters_kept h h.
Proof.
  intros N. split; trivial. exists []. split; [|constructor].
  rewrite app_nil_r. trivial.
Qed.

Lemma counters_kept_registered h n x :
  values h !! n = Some x -> counters_kept h (registered n x h).
Proof.
  intros Hx N.
  assert (Hc : 0 <= _backprop_count x).
  { specialize (N n). unfold count_of in N. rewrite Hx in N. exact N. }
  split.
  - intros k. unfold registered. rewrite (count_of_insert _ _ _ _ _ _ Hx).
    simpl. destruct (Nat.eqb n k); [lia | apply N].
  - exists [ValueSetup n (_backprop_count x + 1)]. split; trivial.
    repeat constructor. simpl. lia.
Qed.

Lemma counters_kept_accumulated h n x g :
  values h !! n = Some x -> 1 <= _backprop_count x ->
  counters_kept h (accumulated n x g h).
Proof.
  intros Hx Hc N. split.
  - intros k. unfold accumulated. rewrite (count_of_insert _ _ _ _ _ _ Hx).
    simpl. destruct (Nat.eqb n k); [lia | apply N].
  - exists [ValueCalc n g; CountDown n (_backprop_count x - 1)].
    split; trivial. repeat constructor. simpl. lia.
Qed.

Lemma counters_kept_log h ops e :
  count_written_ok e ->
  counters_kept h (mkHeap (values h) ops (log h ++ [e])).
Proof.
  intros He N. split; [exact N|].
  exists [e]. split; trivial. repeat constructor. exact He.
Qed.

Lemma setup_counters_kept fuel n h h' :
  well_formed h -> Value_backprop_setup fuel n h = Returned tt h' ->
  counters_kept h h'.
Proof.
  revert n h h'.
  apply (setup_returned_ind (fun _ => counters_kept) (fun _ => counters_kept)).
  - intros. apply counters_kept_registered. assumption.
  - intros n h x o op h' W Hx Hc Ho Hop S HQ.
    eapply counters_kept_trans; [apply (counters_kept_registered h n x Hx)|].
    eapply counters_kept_trans; [|exact HQ].
    apply counters_kept_log. exact I.
  - intros. apply counters_kept_refl.
  - intros. eapply counters_kept_trans; eauto.
Qed.

Lemma calc_counters_kept fuel n g h h' :
  well_formed h -> Value_backprop_calc fuel n g h = Returned tt h' ->
  counters_kept h h'.
Proof.
  revert n g h h'.
  apply (calc_returned_ind (fun _ _ => counters_kept)
           (fun _ => counters_kept)).
  - intros. apply counters_kept_log. exact I.
  - intros. apply counters_kept_accumulated; assumption.
  - intros n g h x o op h' W Hx Hrg Hc Ho Hop S HQ.
    eapply counters_kept_trans;
      [apply (counters_kept_accumulated h n x g Hx); lia|].
    eapply counters_kept_trans; [|exact HQ].
    apply counters_kept_log. exact I.
  - intros. apply counters_kept_refl.
  - intros. eapply counters_kept_trans; eauto.
Qed.

(** ** Each operator is set up once *)

Lemma setups_of_app o l1 l2 :
  setups_of o (l1 ++ l2) = (setups_of o l1 + setups_of o l2)%nat.
Proof. induction l1 as [|e l IH]; simpl; [|rewrite IH]; lia. Qed.

Lemma active_insert h n x y o l :
  values h !! n = Some x ->
  active (mkHeap (<[n := y]> (values h)) (operators h) l) o =
    active h o - active_by o x + active_by o y.
Proof.
  intros Hx. unfold active. simpl. rewrite list_fmap_insert.
  apply sumZ_insert. rewrite list_lookup_fmap, Hx. reflexivity.
Qed.

(** The calls of [backprop_setup] of an operator are as many as its outputs
    that went from unregistered to registered. *)
Lemma setup_setups fuel n h h' :
  well_formed h -> Value_backprop_setup fuel n h = Returned tt h' ->
  forall o, Z.of_nat (setups_of o (log h')) - active h' o =
            Z.of_nat (setups_of o (log h)) - active h o.
Proof.
  revert n h h'.
  apply (setup_returned_ind
    (fun _ h h' => forall o,
       Z.of_nat (setups_of o (log h')) - active h' o =
       Z.of_nat (setups_of o (log h)) - active h o)
    (fun _ h h' => forall o,
       Z.of_nat (setups_of o (log h')) - active h' o =
       Z.of_nat (setups_of o (log h)) - active h o)).
  - intros n h x W Hx Hc o. unfold registered.
    rewrite (active_insert _ _ _ _ _ _ Hx). simpl.
    rewrite setups_of_app. simpl. unfold active_by. simpl.
    destruct Hc as [Hc | Hc].
    + destruct (Z.leb_spec 1 (_backprop_count x + 1));
        destruct (Z.leb_spec 1 (_backprop_count x)); lia.
    + rewrite Hc.
      destruct (1 <=? _backprop_count x + 1), (1 <=? _backprop_count x); lia.
  - intros n h x o op h' W Hx Hc Ho Hop S HQ o'. rewrite HQ.
    unfold entered_setup, registered. simpl.
    change (active (mkHeap ?v ?ops (?l ++ [?e])) o')
      with (active (mkHeap v ops l) o').
    rewrite (active_insert _ _ _ _ _ _ Hx).
    rewrite !setups_of_app. simpl. unfold active_by. simpl.
    rewrite Ho, Hc. simpl. destruct (Nat.eqb o' o); lia.
  - trivial.
  - intros i l h h1 h2 W S1 S2 HP HQ o. rewrite HQ, HP. trivial.
Qed.

Lemma calc_setups fuel n g h h' :
  heap_of (Value_backprop_calc fuel n g h) = Some h' ->
  forall o, setups_of o (log h') = setups_of o (log h).
Proof.
  revert n g h h'.
  apply (calc_guarantee
    (fun h h' => forall o, setups_of o (log h') = setups_of o (log h))).
  - trivial.
  - intros h1 h2 h3 A B o. rewrite B. apply A.
  - intros. simpl. rewrite setups_of_app. simpl. lia.
  - intros. simpl. rewrite setups_of_app. simpl. lia.
  - intros. simpl. rewrite setups_of_app. simpl. lia.
Qed.

Lemma producer_same_shape h h' m op :
  same_shape h h' -> producer h m = Some op ->
  exists op', producer h' m = Some op' /\ operands op' = operands op.
Proof.
  intros S. unfold producer.
  destruct (values h !! m) as [x|] eqn:Hx; [|discriminate].
  destruct (same_shape_value _ _ _ _ S Hx) as (x' & -> & _ & _ & ->).
  destruct (_op x) as [o|]; [|discriminate]. intros Ho.
  destruct (same_shape_operator _ _ _ _ S Ho) as (op' & -> & E & _). eauto.
Qed.

Lemma reach_same_shape h h' a b :
  same_shape h h' -> reach h a b -> reach h' a b.
Proof.
  intros S. induction 1 as [|m op i _ IH Hp Hi]; [constructor|].
  destruct (producer_same_shape _ _ _ _ S Hp) as (op' & Hp' & E).
  apply reach_operand with m op'; trivial. rewrite E. exact Hi.
Qed.

Lemma reach_trans h a b c : reach h a b -> reach h b c -> reach h a c.
Proof.
  intros Hab. induction 1 as [|m op i _ IH Hp Hi]; trivial.
  apply reach_operand with m op; trivial.
Qed.

Lemma count_of_registered h n x k :
  values h !! n = Some x ->
  count_of (registered n x h) k =
    count_of h k + (if Nat.eqb n k then 1 else 0).
Proof.
  intros Hx. unfold registered. rewrite (count_of_insert _ _ _ _ _ _ Hx).
  simpl. destruct (Nat.eqb_spec n k) as [->|]; [|lia].
  unfold count_of. rewrite Hx. lia.
Qed.

Lemma operands_registered_mono h h' m :
  same_shape h h' -> (forall k, count_of h k <= count_of h' k) ->
  operands_registered h m -> operands_registered h' m.
Proof.
  intros S Hm H op' i Hp Hi.
  destruct (producer_same_shape _ _ _ _ (same_shape_sym _ _ S) Hp)
    as (op & Hp0 & E).
  specialize (H op i Hp0). rewrite E in H. specialize (H Hi).
  specialize (Hm i). lia.
Qed.

(** After [backprop_setup] the receiver is registered, and so are the
    operands of the producer of every [Value] that it registered. *)
Lemma setup_closure fuel n h h' :
  well_formed h -> Value_backprop_setup fuel n h = Returned tt h' ->
  counts_nonneg h ->
  (forall k, count_of h k <= count_of h' k) /\
  1 <= count_of h' n /\
  forall m, 1 <= count_of h' m ->
    (1 <= count_of h m -> operands_registered h m) ->
    operands_registered h' m.
Proof.
  revert n h h'.
  apply (setup_returned_ind
    (fun n h h' => counts_nonneg h ->
       (forall k, count_of h k <= count_of h' k) /\
       1 <= count_of h' n /\
       forall m, 1 <= count_of h' m ->
         (1 <= count_of h m -> operands_registered h m) ->
         operands_registered h' m)
    (fun l h h' => counts_nonneg h ->
       (forall k, count_of h k <= count_of h' k) /\
       (forall i, i ∈ l -> 1 <= count_of h' i) /\
       forall m, 1 <= count_of h' m ->
         (1 <= count_of h m -> operands_registered h m) ->
         operands_registered h' m)).
  - intros n h x W Hx Hc N.
    pose proof (same_shape_registered h n x Hx) as S.
    assert (Hm : forall k, count_of h k <= count_of (registered n x h) k).
    { intros k. rewrite (count_of_registered _ _ _ _ Hx).
      destruct (Nat.eqb n k); lia. }
    split; [exact Hm|]. split.
    { rewrite (count_of_registered _ _ _ _ Hx), Nat.eqb_refl.
      specialize (N n). lia. }
    intros m H1 H0.
    destruct (Nat.eq_dec m n) as [->|Hne].
    + destruct Hc as [Hc | Hc].
      * apply (operands_registered_mono h); trivial. apply H0.
        pose proof (N n) as Hn. unfold count_of in Hn |- *.
        rewrite Hx in *. lia.
      * intros op i Hp. unfold producer, registered in Hp. simpl in Hp.
        rewrite list_lookup_insert_eq in Hp
          by (eapply lookup_lt_Some; eauto).
        simpl in Hp. rewrite Hc in Hp. discriminate.
    + apply (operands_registered_mono h); trivial. apply H0.
      rewrite (count_of_registered _ _ _ _ Hx) in H1.
      destruct (Nat.eqb_spec n m); [congruence | lia].
  - intros n h x o op h' W Hx Hc Ho Hop S HQ N.
    pose proof (same_shape_registered h n x Hx) as S1.
    set (h1 := entered_setup o (registered n x h)) in *.
    assert (Hm1 : forall k, count_of h k <= count_of h1 k).
    { intros k. change (count_of h1 k) with (count_of (registered n x h) k).
      rewrite (count_of_registered _ _ _ _ Hx). destruct (Nat.eqb n k); lia. }
    assert (N1 : counts_nonneg h1).
    { intros k. specialize (Hm1 k). specialize (N k). lia. }
    destruct (HQ N1) as (Hm & Hops & Hcl).
    split; [intros k; specialize (Hm1 k); specialize (Hm k); lia|]. split.
    { specialize (Hm n).
      change (count_of h1 n) with (count_of (registered n x h) n) in Hm.
      rewrite (count_of_registered _ _ _ _ Hx), Nat.eqb_refl in Hm.
      specialize (N n). lia. }
    intros m H1 H0.
    destruct (Nat.eq_dec m n) as [->|Hne].
    + intros op' i Hp Hi.
      assert (Hp0 : producer h n = Some op)
        by (unfold producer; rewrite Hx, Ho; exact Hop).
      destruct (producer_same_shape _ _ _ _ S Hp0) as (op2 & Hp2 & E).
      assert (op2 = op') as -> by congruence.
      apply Hops. rewrite <- E. exact Hi.
    + apply Hcl; trivial. intros H2.
      apply (operands_registered_mono h); trivial. apply H0.
      change (count_of h1 m) with (count_of (registered n x h) m) in H2.
      rewrite (count_of_registered _ _ _ _ Hx) in H2.
      destruct (Nat.eqb_spec n m); [congruence | lia].
  - intros h W N. split; [intros; lia|]. split.
    + intros i Hi. inversion Hi.
    + intros m H1 H0. apply H0, H1.
  - intros i l h h1 h2 W S1 S2 HP HQ N.
    destruct (HP N) as (Hm1 & Hi & Hcl1).
    assert (N1 : counts_nonneg h1).
    { intros k. specialize (Hm1 k). specialize (N k). lia. }
    destruct (HQ N1) as (Hm2 & Hl & Hcl2).
    split; [intros k; specialize (Hm1 k); specialize (Hm2 k); lia|]. split.
    + intros j Hj. apply elem_of_cons in Hj as [->|Hj]; [|auto].
      specialize (Hm2 i). lia.
    + intros m H2 H0. apply Hcl2; trivial. intros H1. apply Hcl1; trivial.
Qed.

Lemma reach_registered h root :
  (forall m, 1 <= count_of h m -> operands_registered h m) ->
  1 <= count_of h root ->
  forall m, reach h root m -> 1 <= count_of h m.
Proof.
  intros Hcl Hroot m. induction 1 as [|m op i _ IH Hp Hi]; trivial.
  apply (Hcl m IH op i Hp Hi).
Qed.

(** [backprop_setup] writes the [Value]s below its receiver only. *)
Lemma setup_frame fuel n h h' :
  well_formed h -> Value_backprop_setup fuel n h = Returned tt h' ->
  forall k, ~ reach h n k -> values h' !! k = values h !! k.
Proof.
  revert n h h'.
  apply (setup_returned_ind
    (fun n h h' => forall k, ~ reach h n k ->
       values h' !! k = values h !! k)
    (fun l h h' => forall k, (forall i, i ∈ l -> ~ reach h i k) ->
       values h' !! k = values h !! k)).
  - intros n h x W Hx _ k Hk. unfold registered. simpl.
    apply list_lookup_insert_ne. intros ->. apply Hk. constructor.
  - intros n h x o op h' W Hx Hc Ho Hop S HQ k Hk.
    pose proof (same_shape_registered h n x Hx) as S1.
    rewrite HQ.
    + unfold registered. simpl.
      apply list_lookup_insert_ne. intros ->. apply Hk. constructor.
    + intros i Hi Hr. apply Hk.
      apply reach_trans with i.
      * apply reach_operand with n op; [constructor | | exact Hi].
        unfold producer. rewrite Hx, Ho. exact Hop.
      * apply (reach_same_shape _ h) in Hr; trivial.
        apply same_shape_sym. exact S1.
  - trivial.
  - intros i l h h1 h2 W S1 S2 HP HQ k Hk.
    rewrite HQ, HP; trivial.
    + apply Hk, elem_of_cons. auto.
    + intros j Hj Hr. apply (Hk j); [apply elem_of_cons; auto|].
      apply (reach_same_shape h1); trivial. apply same_shape_sym, S1.
Qed.

Lemma sumZ_single l m a :
  l !! m = Some a -> (forall i z, i <> m -> l !! i = Some z -> z = 0) ->
  sumZ l = a.
Proof.
  revert m. induction l as [|b l IH]; intros [|m] E H; try discriminate.
  - injection E as ->. simpl. rewrite sumZ_zero; [lia|].
    intros i z. apply (H (S i)). lia.
  - simpl in *. rewrite (H 0%nat b) by (trivial; lia).
    rewrite (IH m E); [lia|].
    intros i z Hi. apply (H (S i)). lia.
Qed.

Lemma active_owner h m x o :
  well_formed h -> values h !! m = Some x -> _op x = Some o ->
  active h o = if 1 <=? _backprop_count x then 1 else 0.
Proof.
  intros W Hx Ho. unfold active.
  rewrite (sumZ_single _ m (active_by o x)).
  - unfold active_by. rewrite Ho, Nat.eqb_refl. trivial.
  - rewrite list_lookup_fmap, Hx. trivial.
  - intros i z Hi Hz. rewrite list_lookup_fmap in Hz.
    destruct (values h !! i) as [y|] eqn:Hy; [|discriminate].
    injection Hz as <-. unfold active_by.
    destruct (1 <=? _backprop_count y); trivial.
    destruct (_op y) as [o'|] eqn:Ho'; trivial.
    destruct (Nat.eqb_spec o o') as [<-|]; trivial.
    exfalso. apply Hi. apply (wf_owner _ W i m y x o); trivial.
Qed.

Lemma idle_active h o : idle h -> active h o = 0.
Proof.
  intros I. apply sumZ_zero. intros i z Hz.
  rewrite list_lookup_fmap in Hz.
  destruct (values h !! i) as [y|] eqn:Hy; [|discriminate].
  injection Hz as <-. unfold active_by.
  destruct (Z.leb_spec 1 (_backprop_count y)); trivial.
  destruct (_op y) as [o'|] eqn:Ho'; trivial.
  rewrite (I i y Hy) in *; [lia | congruence].
Qed.

(** From a graph in which no produced [Value] is registered, the setup phase
    calls [backprop_setup] once on the producer of each [Value] from which
    the root is computed, and on no other operator. *)
Lemma setup_once fuel root h h' :
  well_formed h -> idle h -> counts_nonneg h ->
  Value_backprop_setup fuel root h = Returned tt h' ->
  (forall m x o, reach h root m -> values h !! m = Some x ->
     _op x = Some o ->
     setups_of o (log h') = S (setups_of o (log h))) /\
  (forall o, (forall m x, reach h root m -> values h !! m = Some x ->
                _op x <> Some o) ->
     setups_of o (log h') = setups_of o (log h)).
Proof.
  intros W I N E.
  assert (S : same_shape h h')
    by (eapply setup_same_shape; rewrite E; reflexivity).
  pose proof (same_shape_well_formed _ _ S W) as W'.
  pose proof (setup_setups _ _ _ _ W E) as Hs.
  destruct (setup_closure _ _ _ _ W E N) as (Hm & Hroot & Hcl).
  pose proof (setup_frame _ _ _ _ W E) as Hf.
  split.
  - intros m x o Hr Hx Ho.
    destruct (same_shape_value _ _ _ _ S Hx) as (x' & Hx' & _ & _ & Ho').
    assert (Hc : 1 <= count_of h' m).
    { apply (reach_registered h' root); trivial.
      - intros k Hk. apply Hcl; trivial. intros Hk0 op i Hp.
        exfalso. unfold producer in Hp.
        destruct (values h !! k) as [y|] eqn:Hy; [|discriminate].
        unfold count_of in Hk0. rewrite Hy in Hk0.
        destruct (_op y) eqn:Hoy; [|discriminate].
        rewrite (I k y Hy) in Hk0; [lia | congruence].
      - apply (reach_same_shape h); trivial. }
    specialize (Hs o). rewrite (idle_active _ _ I) in Hs.
    rewrite (active_owner h' m x' o W' Hx') in Hs by congruence.
    unfold count_of in Hc. rewrite Hx' in Hc.
    destruct (Z.leb_spec 1 (_backprop_count x')); lia.
  - intros o Ho. specialize (Hs o). rewrite (idle_active _ _ I) in Hs.
    assert (Ha : active h' o = 0); [|lia].
    apply sumZ_zero. intros k z Hz. rewrite list_lookup_fmap in Hz.
    destruct (values h' !! k) as [y'|] eqn:Hy'; [|discriminate].
    injection Hz as <-. unfold active_by.
    destruct (Z.leb_spec 1 (_backprop_count y')) as [Hc|]; trivial.
    destruct (_op y') as [o'|] eqn:Ho'; trivial.
    destruct (Nat.eqb_spec o o') as [<-|]; trivial.
    exfalso.
    assert (Hnr : ~ reach h root k).
    { intros Hr.
      destruct (same_shape_value _ _ _ _ (same_shape_sym _ _ S) Hy')
        as (y & Hy & _ & _ & Hoy).
      apply (Ho k y Hr Hy). congruence. }
    rewrite (Hf k Hnr) in Hy'.
    rewrite (I k y' Hy') in Hc; [lia | congruence].
Qed.

(** ** What a pass does to the gradients *)

Lemma setup_keeps_grads fuel n h h' :
  heap_of (Value_backprop_setup fuel n h) = Some h' ->
  grad <$> values h' = grad <$> values h /\ operators h' = operators h.
Proof.
  revert n h h'.
  apply (setup_guarantee
    (fun h h' => grad <$> values h' = grad <$> values h /\
                 operators h' = operators h)).
  - auto.
  - intros h1 h2 h3 [A B] [C D]. split; congruence.
  - intros h n x Hx. split; trivial. simpl.
    apply fmap_insert_same with x; trivial.
  - auto.
Qed.

Lemma grad_of_fmap h h' k :
  grad <$> values h' = grad <$> values h -> grad_of h' k = grad_of h k.
Proof.
  intros E. apply (f_equal (fun l => l !! k)) in E.
  rewrite !list_lookup_fmap in E. unfold grad_of.
  destruct (values h' !! k), (values h !! k); simpl in E; congruence.
Qed.

(** [backprop_calc] leaves the [Value]s built after its receiver as they
    are, and the gradient of a receiver that requires gradients is its
    former gradient plus the contribution. *)
Lemma calc_receiver fuel n g h h' :
  well_formed h -> Value_backprop_calc fuel n g h = Returned tt h' ->
  (forall k, (n < k)%nat -> values h' !! k = values h !! k) /\
  (forall x, values h !! n = Some x -> _requires_grad x = true ->
     grad_of h' n = Some (new_grad x g)).
Proof.
  revert n g h h'.
  apply (calc_returned_ind
    (fun n g h h' =>
       (forall k, (n < k)%nat -> values h' !! k = values h !! k) /\
       (forall x, values h !! n = Some x -> _requires_grad x = true ->
          grad_of h' n = Some (new_grad x g)))
    (fun l h h' => forall k, Forall (fun i => (i < k)%nat) l.*1 ->
       values h' !! k = values h !! k)).
  - intros n g h x W Hx Hrg. split; trivial.
    intros y Hy. congruence.
  - intros n g h x W Hx Hrg Hc _. split.
    + intros k Hk. simpl. apply list_lookup_insert_ne. lia.
    + intros y Hy _. assert (y = x) as -> by congruence.
      unfold grad_of, accumulated. simpl.
      rewrite list_lookup_insert_eq by (eapply lookup_lt_Some; eauto).
      trivial.
  - intros n g h x o op h' W Hx Hrg Hc Ho Hop S HQ.
    destruct (wf_producer _ W n x o Hx Ho) as (op' & Hop' & Hcon & Hlt).
    assert (op' = op) as -> by congruence.
    assert (Hall : forall k, (n <= k)%nat ->
              values h' !! k = values (accumulated n x g h) !! k).
    { intros k Hk. rewrite HQ; trivial.
      rewrite contributions_operands by exact Hcon.
      eapply Forall_impl; [exact Hlt|]. simpl. intros. lia. }
    split.
    + intros k Hk. rewrite Hall by lia. simpl.
      apply list_lookup_insert_ne. lia.
    + intros y Hy _. assert (y = x) as -> by congruence.
      unfold grad_of. rewrite Hall by lia. simpl.
      rewrite list_lookup_insert_eq by (eapply lookup_lt_Some; eauto).
      trivial.
  - trivial.
  - intros i g l h h1 h2 W S1 S2 [HP _] HQ k Hk.
    rewrite fmap_cons in Hk. inversion Hk as [|? ? Hi Hl]. subst.
    rewrite HQ, HP; trivial.
Qed.

Lemma backward_root_grad root h x :
  well_formed h -> settled h -> values h !! root = Some x ->
  _requires_grad x = true ->
  exists h', backward root h = Returned tt h' /\ same_shape h h' /\
    settled h' /\ grad_of h' root = Some (new_grad x 1).
Proof.
  intros W St Hx Hrg.
  destruct (backward_returns root h W St)
    as (h1 & h' & E1 & E2 & E & S1 & S2 & St');
    [eapply lookup_lt_Some; eauto|].
  exists h'. split; trivial. split; [eapply same_shape_trans; eauto|].
  split; trivial.
  destruct (setup_keeps_grads (length (values h)) root h h1) as [G _];
    [rewrite E1; trivial|].
  destruct (same_shape_value _ _ _ _ S1 Hx) as (x1 & Hx1 & _ & Hrg1 & _).
  pose proof (same_shape_well_formed _ _ S1 W) as W1.
  destruct (calc_receiver _ _ _ _ _ W1 E2) as [_ Hg].
  rewrite (Hg x1 Hx1) by congruence.
  pose proof (grad_of_fmap _ _ root G) as Eg. unfold grad_of in Eg.
  rewrite Hx1, Hx in Eg. unfold new_grad. rewrite Eg. trivial.
Qed.

(** ** Gradients appear only where [backprop_calc] accumulated them *)

Lemma untouched_app n l1 l2 :
  untouched n (l1 ++ l2) <-> untouched n l1 /\ untouched n l2.
Proof. apply Forall_app. Qed.

Lemma grads_kept_refl h : grads_kept h h.
Proof.
  split; [exists []; rewrite app_nil_r; trivial|].
  intros k x Hx. exists x. auto.
Qed.

Lemma grads_kept_trans h1 h2 h3 :
  grads_kept h1 h2 -> grads_kept h2 h3 -> grads_kept h1 h3.
Proof.
  intros [[l1 L1] A] [[l2 L2] B]. split.
  - exists (l1 ++ l2). rewrite L2, L1, app_assoc. trivial.
  - intros k x3 H3. destruct (B k x3 H3) as (x2 & H2 & R2 & G2).
    destruct (A k x2 H2) as (x1 & H1 & R1 & G1).
    exists x1. split; trivial. split; [congruence|].
    intros C. rewrite (G2 C). apply G1.
    destruct C as [C | C]; [left; congruence | right].
    rewrite L2 in C. apply untouched_app in C. tauto.
Qed.

Lemma grads_kept_log h ops l :
  grads_kept h (mkHeap (values h) ops (log h ++ l)).
Proof. split; [eauto|]. intros k x Hx. exists x. auto. Qed.

Lemma grads_kept_registered h n x :
  values h !! n = Some x -> grads_kept h (registered n x h).
Proof.
  intros Hx. split; [simpl; eauto|]. intros k x' Hx'. simpl in Hx'.
  destruct (Nat.eq_dec k n) as [->|Hne].
  - rewrite list_lookup_insert_eq in Hx' by (eapply lookup_lt_Some; eauto).
    injection Hx' as <-. exists x. auto.
  - rewrite list_lookup_insert_ne in Hx' by congruence. exists x'. auto.
Qed.

Lemma grads_kept_accumulated h n x g :
  values h !! n = Some x -> _requires_grad x = true ->
  grads_kept h (accumulated n x g h).
Proof.
  intros Hx Hrg. split; [simpl; eauto|]. intros k x' Hx'. simpl in Hx'.
  destruct (Nat.eq_dec k n) as [->|Hne].
  - rewrite list_lookup_insert_eq in Hx' by (eapply lookup_lt_Some; eauto).
    injection Hx' as <-. exists x. split; trivial. split; trivial. simpl.
    intros [C | C]; [congruence|].
    apply untouched_app in C as [_ C]. inversion C as [|? ? C1 _].
    simpl in C1. rewrite Nat.eqb_refl in C1. discriminate.
  - rewrite list_lookup_insert_ne in Hx' by congruence. exists x'. auto.
Qed.

Lemma setup_grads_kept fuel n h h' :
  heap_of (Value_backprop_setup fuel n h) = Some h' -> grads_kept h h'.
Proof.
  apply setup_guarantee.
  - apply grads_kept_refl.
  - apply grads_kept_trans.
  - apply grads_kept_registered.
  - intros. apply grads_kept_log.
Qed.

Lemma calc_grads_kept fuel n g h h' :
  heap_of (Value_backprop_calc fuel n g h) = Some h' -> grads_kept h h'.
Proof.
  apply calc_guarantee.
  - apply grads_kept_refl.
  - apply grads_kept_trans.
  - apply grads_kept_accumulated.
  - intros. apply grads_kept_log.
  - intros. apply grads_kept_log.
Qed.

Lemma backward_grads_kept n h h' :
  heap_of (backward n h) = Some h' -> grads_kept h h'.
Proof.
  rewrite backward_unfold. intros E.
  apply bind_heap_of in E as [(a & h1 & E1 & E2) | (e & E1)].
  - apply grads_kept_trans with h1.
    + eapply setup_grads_kept. rewrite E1. reflexivity.
    + eapply calc_grads_kept. exact E2.
  - eapply setup_grads_kept. rewrite E1. reflexivity.
Qed.

Lemma absent_ok_kept h h' : grads_kept h h' -> absent_ok h -> absent_ok h'.
Proof.
  intros [[l L] K] A k x' Hx' C.
  destruct (K k x' Hx') as (x & Hx & R & G).
  rewrite (G C). apply (A k x Hx).
  destruct C as [C | C]; [left; congruence | right].
  rewrite L in C. apply untouched_app in C. tauto.
Qed.

(** ** The constructors keep the graph well formed *)

Lemma sumZ_app l1 l2 : sumZ (l1 ++ l2) = sumZ l1 + sumZ l2.
Proof. induction l1 as [|a l IH]; simpl; lia. Qed.

Lemma occ_above k l : Forall (fun i => (i < k)%nat) l -> occ k l = 0.
Proof.
  induction 1 as [|i l Hi _ IH]; simpl; trivial.
  destruct (Nat.eqb_spec i k); lia.
Qed.

Lemma owed_by_above h n x k :
  well_formed h -> values h !! n = Some x -> (length (values h) <= k)%nat ->
  owed_by (operators h) k x = 0.
Proof.
  intros W Hx Hk. unfold owed_by, due.
  destruct (1 <=? _backprop_count x); trivial.
  destruct (_op x) as [o|] eqn:Ho; trivial.
  destruct (wf_producer _ W n x o Hx Ho) as (op & -> & _ & Hlt).
  apply occ_above. eapply Forall_impl; [exact Hlt|]. simpl. intros i Hi.
  apply lookup_lt_Some in Hx. lia.
Qed.

Lemma owed_above h k :
  well_formed h -> (length (values h) <= k)%nat -> owed h k = 0.
Proof.
  intros W Hk. apply sumZ_zero. intros n z Hz.
  rewrite list_lookup_fmap in Hz.
  destruct (values h !! n) as [x|] eqn:Hx; [|discriminate].
  injection Hz as <-. eapply owed_by_above; eauto.
Qed.

Lemma owed_with_operator h op k :
  well_formed h -> owed (with_operator op h) k = owed h k.
Proof.
  intros W. unfold owed. simpl. f_equal.
  apply list_fmap_ext. intros n x Hx. unfold owed_by, due.
  destruct (1 <=? _backprop_count x); trivial.
  destruct (_op x) as [o|] eqn:Ho; trivial.
  destruct (wf_producer _ W n x o Hx Ho) as (op0 & Hop & _).
  rewrite Hop, (lookup_app_l_Some _ _ _ _ Hop). trivial.
Qed.

Lemma good_with_operator h op : good h -> good (with_operator op h).
Proof.
  intros (W & St & N). split; [|split].
  - split.
    + intros n x o Hx Ho.
      destruct (wf_producer _ W n x o Hx Ho) as (op0 & Hop & H).
      exists op0. split; trivial. apply lookup_app_l_Some. exact Hop.
    + apply (wf_owner _ W).
    + intros n x o op1 i Hx Ho Hop1.
      destruct (wf_producer _ W n x o Hx Ho) as (op0 & Hop & _).
      simpl in Hop1. rewrite (lookup_app_l_Some _ _ _ _ Hop) in Hop1.
      injection Hop1 as <-. apply (wf_requires _ W n x o op0 i); trivial.
  - intros k Hk. unfold balance. rewrite (owed_with_operator _ _ _ W).
    apply (St k Hk).
  - exact N.
Qed.

Lemma lookup_with_value h x n y :
  values (with_value x h) !! n = Some y ->
  values h !! n = Some y \/ (n = length (values h) /\ y = x).
Proof.
  simpl. intros E. apply lookup_app_Some in E as [E | [E1 E2]]; auto.
  right. destruct (n - length (values h))%nat as [|d] eqn:Hd;
    [|destruct d; discriminate].
  injection E2 as <-. split; trivial. lia.
Qed.

Lemma requires_with_value h x k :
  (k < length (values h))%nat ->
  requires (with_value x h) k = requires h k.
Proof.
  intros Hk. unfold requires. simpl. rewrite lookup_app_l; trivial.
Qed.

Lemma count_of_with_value h x k :
  _backprop_count x = 0 -> count_of (with_value x h) k = count_of h k.
Proof.
  intros Hc. unfold count_of. simpl.
  destruct (Nat.lt_ge_cases k (length (values h))) as [Hk | Hk].
  - rewrite lookup_app_l; trivial.
  - rewrite (lookup_ge_None_2 (values h)) by lia.
    rewrite lookup_app_r by lia.
    destruct (k - length (values h))%nat as [|[|d]]; simpl; trivial.
Qed.

(** A new [Value] whose producer, if any, is a new operator over objects of
    the store. *)
Lemma good_with_value h x :
  good h -> _backprop_count x = 0 ->
  (forall o, _op x = Some o ->
     exists op, operators h !! o = Some op /\ concrete op = true /\
       Forall (fun i => (i < length (values h))%nat) (operands op) /\
       (forall n y, values h !! n = Some y -> _op y <> Some o) /\
       (forall i, i ∈ operands op -> requires h i = true ->
          _requires_grad x = true)) ->
  good (with_value x h).
Proof.
  intros (W & St & N) Hc Hp. split; [|split].
  - split.
    + intros n y o Hy Ho.
      apply lookup_with_value in Hy as [Hy | [-> ->]].
      * apply (wf_producer _ W n y o Hy Ho).
      * destruct (Hp o Ho) as (op & Hop & Hcon & Hlt & _). eauto.
    + intros n n' y y' o Hy Hy' Ho Ho'.
      apply lookup_with_value in Hy as [Hy | [-> ->]];
        apply lookup_with_value in Hy' as [Hy' | [-> ->]]; trivial.
      * apply (wf_owner _ W n n' y y' o); trivial.
      * destruct (Hp o Ho') as (_ & _ & _ & _ & Hfresh & _).
        destruct (Hfresh n y Hy Ho).
      * destruct (Hp o Ho) as (_ & _ & _ & _ & Hfresh & _).
        destruct (Hfresh n' y' Hy' Ho').
    + intros n y o op i Hy Ho Hop Hi Hr. simpl in Hop.
      apply lookup_with_value in Hy as [Hy | [-> ->]].
      * destruct (wf_producer _ W n y o Hy Ho) as (op' & Hop' & _ & Hlt).
        assert (op' = op) as -> by congruence.
        apply (wf_requires _ W n y o op i); trivial.
        rewrite <- (requires_with_value h x); trivial.
        rewrite Forall_forall in Hlt. specialize (Hlt i Hi).
        apply lookup_lt_Some in Hy. lia.
      * destruct (Hp o Ho) as (op' & Hop' & _ & Hlt & _ & Hrg).
        assert (op' = op) as -> by congruence.
        apply (Hrg i Hi). rewrite <- (requires_with_value h x); trivial.
        rewrite Forall_forall in Hlt. apply (Hlt i Hi).
  - intros k Hk. unfold balance. rewrite (count_of_with_value _ _ _ Hc).
    assert (Ho : owed (with_value x h) k = owed h k).
    { unfold owed. simpl. rewrite fmap_app, sumZ_app. simpl.
      unfold owed_by at 2. rewrite Hc. simpl. lia. }
    rewrite Ho.
    destruct (Nat.lt_ge_cases k (length (values h))) as [Hlt | Hge].
    + rewrite requires_with_value in Hk by exact Hlt. apply (St k Hk).
    + rewrite (owed_above _ _ W Hge). unfold count_of.
      rewrite (lookup_ge_None_2 (values h)) by lia. lia.
  - intros k. rewrite (count_of_with_value _ _ _ Hc). apply N.
Qed.

Lemma arith_forward_cases f o a b h :
  arith_forward f o a b h =
    match values h !! a, values h !! b with
    | Some x1, Some x2 =>
        let rg := _requires_grad x1 || _requires_grad x2 in
        Returned (length (values h))
          (with_value (mkValue (f (_v x1) (_v x2)) rg None
                         (if rg then Some o else None) 0) h)
    | _, _ => Dangling
    end.
Proof.
  unfold arith_forward, BinaryOp_requires_grad, Value_requires_grad,
    Value_item, Value_init, bind, ret, get_value, with_value.
  destruct (values h !! a) as [x1|] eqn:Ha; trivial.
  destruct (_requires_grad x1); simpl; rewrite ?Ha;
    destruct (values h !! b) as [x2|] eqn:Hb; simpl; rewrite ?Ha, ?Hb;
    trivial.
Qed.

Lemma Value_add_cases a other h :
  Value_add a other h =
    match other with
    | OOther => Raised AssertionError h
    | OValue b =>
        arith_forward PrimFloat.add (length (operators h)) a b
          (with_operator (AddOp a b) h)
    | OFloat f =>
        arith_forward PrimFloat.add (length (operators h)) a
          (length (values h))
          (with_operator (AddOp a (length (values h)))
             (with_value (mkValue f false None None 0) h))
    end.
Proof.
  destruct other; trivial; unfold Value_add, bind; simpl;
    unfold Operator_forward, bind, get_operator; simpl;
    rewrite list_lookup_middle; trivial.
Qed.

Lemma Value_sub_cases a other h :
  Value_sub a other h =
    match other with
    | OOther => Raised AssertionError h
    | OValue b =>
        arith_forward PrimFloat.sub (length (operators h)) a b
          (with_operator (SubOp a b) h)
    | OFloat f =>
        arith_forward PrimFloat.sub (length (operators h)) a
          (length (values h))
          (with_operator (SubOp a (length (values h)))
             (with_value (mkValue f false None None 0) h))
    end.
Proof.
  destruct other; trivial; unfold Value_sub, bind; simpl;
    unfold Operator_forward, bind, get_operator; simpl;
    rewrite list_lookup_middle; trivial.
Qed.

Lemma Value_mul_cases a other h :
  Value_mul a other h =
    match other with
    | OOther => Raised AssertionError h
    | OValue b =>
        arith_forward PrimFloat.mul (length (operators h)) a b
          (with_operator (MulOp a b) h)
    | OFloat f =>
        arith_forward PrimFloat.mul (length (operators h)) a
          (length (values h))
          (with_operator (MulOp a (length (values h)))
             (with_value (mkValue f false None None 0) h))
    end.
Proof.
  destruct other; trivial; unfold Value_mul, bind; simpl;
    unfold Operator_forward, bind, get_operator; simpl;
    rewrite list_lookup_middle; trivial.
Qed.

Lemma pass_through_cases a h :
  run_command (PassThrough a) h =
    match values h !! a with
    | Some x1 =>
        Returned tt
          (with_value (mkValue (_v x1) (_requires_grad x1) None
                         (Some (length (operators h))) 0)
             (with_operator (PassThroughOp a 0) h))
    | None => Dangling
    end.
Proof.
  unfold run_command, bind. simpl.
  unfold Operator_forward, bind, get_operator. simpl.
  rewrite list_lookup_middle; trivial.
  unfold Value_item, Value_requires_grad, bind, get_value, ret. simpl.
  destruct (values h !! a) eqn:Ha; simpl; rewrite ?Ha; trivial.
Qed.

Lemma good_empty : good empty_heap.
Proof.
  split; [|split].
  - split; intros *; simpl; intros E; discriminate.
  - intros k Hk. discriminate.
  - intros k. unfold count_of. simpl. lia.
Qed.

Lemma good_leaf h v rg :
  good h -> good (with_value (mkValue v rg None None 0) h).
Proof. intros G. apply good_with_value; trivial. intros o E. discriminate. Qed.

Lemma arith_forward_good f op a b h n h' :
  good h -> concrete op = true -> operands op = [a; b] ->
  arith_forward f (length (operators h)) a b (with_operator op h)
    = Returned n h' ->
  good h'.
Proof.
  intros G Hcon Hops. rewrite arith_forward_cases. simpl.
  destruct (values h !! a) as [x1|] eqn:Ha; [|discriminate].
  destruct (values h !! b) as [x2|] eqn:Hb; [|discriminate].
  intros E. injection E as _ <-.
  apply good_with_value; trivial; [apply good_with_operator, G|].
  simpl. intros o Ho.
  destruct (_requires_grad x1 || _requires_grad x2); [|discriminate].
  injection Ho as <-. exists op.
  split; [apply list_lookup_middle; trivial|]. split; trivial.
  split; [|split; trivial].
  - rewrite Hops. repeat constructor; eapply lookup_lt_Some; eauto.
  - intros m y Hy Ho. destruct G as (W & _).
    destruct (wf_producer _ W m y _ Hy Ho) as (op' & Hop' & _).
    apply lookup_lt_Some in Hop'. lia.
Qed.

Lemma backward_returned_lt n h h' :
  backward n h = Returned tt h' -> (n < length (values h))%nat.
Proof.
  destruct (values h !! n) as [x|] eqn:Hx.
  { intros _. eapply lookup_lt_Some; eauto. }
  rewrite backward_unfold.
  destruct (length (values h)); simpl; [discriminate|].
  unfold bind at 1 2, get_value. rewrite Hx. discriminate.
Qed.

Lemma backward_good n h h' :
  good h -> backward n h = Returned tt h' -> good h'.
Proof.
  intros (W & St & N) E.
  pose proof (backward_returned_lt _ _ _ E) as Hn.
  destruct (backward_returns n h W St Hn)
    as (h1 & h2 & E1 & E2 & E3 & S1 & S2 & St2).
  assert (h2 = h') as -> by congruence.
  pose proof (same_shape_well_formed _ _ S1 W) as W1.
  split; [eapply same_shape_well_formed; eauto|]. split; trivial.
  destruct (setup_counters_kept _ _ _ _ W E1 N) as (N1 & _).
  destruct (calc_counters_kept _ _ _ _ _ W1 E2 N1) as (N2 & _).
  exact N2.
Qed.

Lemma bind_ret_returned {A} (m : M A) h h' :
  bind m (fun _ => ret tt) h = Returned tt h' ->
  exists a, m h = Returned a h'.
Proof.
  unfold bind, ret. destruct (m h) as [a h1 | | |]; try discriminate.
  intros E. injection E as <-. eauto.
Qed.

Lemma run_command_good c h h' :
  good h -> run_command c h = Returned tt h' -> good h'.
Proof.
  intros G. destruct c as [v rg | a b | a b | a b | a | n]; simpl.
  - intros E. injection E as <-. apply good_leaf, G.
  - intros E. apply bind_ret_returned in E as (n & E).
    rewrite Value_add_cases in E. destruct b as [f | b |].
    + apply (arith_forward_good _ (AddOp a (length (values h))) a
               (length (values h))
               (with_value (mkValue f false None None 0) h)) in E; trivial.
      apply good_leaf, G.
    + eapply (arith_forward_good _ (AddOp a b)) in E; trivial.
    + discriminate.
  - intros E. apply bind_ret_returned in E as (n & E).
    rewrite Value_sub_cases in E. destruct b as [f | b |].
    + apply (arith_forward_good _ (SubOp a (length (values h))) a
               (length (values h))
               (with_value (mkValue f false None None 0) h)) in E; trivial.
      apply good_leaf, G.
    + eapply (arith_forward_good _ (SubOp a b)) in E; trivial.
    + discriminate.
  - intros E. apply bind_ret_returned in E as (n & E).
    rewrite Value_mul_cases in E. destruct b as [f | b |].
    + apply (arith_forward_good _ (MulOp a (length (values h))) a
               (length (values h))
               (with_value (mkValue f false None None 0) h)) in E; trivial.
      apply good_leaf, G.
    + eapply (arith_forward_good _ (MulOp a b)) in E; trivial.
    + discriminate.
  - change (run_command (PassThrough a) h = Returned tt h' -> good h').
    rewrite pass_through_cases.
    destruct (values h !! a) as [x1|] eqn:Ha; [|discriminate].
    intros E. injection E as <-.
    apply good_with_value; trivial; [apply good_with_operator, G|].
    simpl. intros o Ho. injection Ho as <-. exists (PassThroughOp a 0).
    split; [apply list_lookup_middle; trivial|]. split; trivial.
    split; [|split].
    + repeat constructor. eapply lookup_lt_Some; eauto.
    + intros m y Hy Ho. destruct G as (W & _).
      destruct (wf_producer _ W m y _ Hy Ho) as (op' & Hop' & _).
      apply lookup_lt_Some in Hop'. lia.
    + intros i Hi Hr. apply list_elem_of_singleton in Hi as ->.
      unfold requires in Hr. simpl in Hr. rewrite Ha in Hr. exact Hr.
  - apply backward_good, G.
Qed.

(** Every store that a program over the public interface reaches is well
    formed and settled, with non-negative counters. *)
Lemma run_good p : forall h h',
  good h -> run p h = Returned tt h' -> good h'.
Proof.
  induction p as [|c p IH]; intros h h' G E.
  - injection E as <-. exact G.
  - simpl in E. unfold bind in E.
    destruct (run_command c h) as [[] h1 | | |] eqn:E1; try discriminate.
    apply (IH h1); trivial. eapply run_command_good; eauto.
Qed.

(** On such a store [backward] returns. *)
Lemma backward_total n h :
  good h -> (n < length (values h))%nat ->
  exists h', backward n h = Returned tt h' /\ good h'.
Proof.
  intros G Hn. destruct G as (W & St & N).
  destruct (backward_returns n h W St Hn) as (h1 & h' & _ & _ & E & _).
  exists h'. split; trivial. eapply backward_good; [|exact E].
  split; auto.
Qed.

(** ** Absent gradients along a program *)

Lemma absent_ok_with_value h x :
  absent_ok h -> grad x = None -> absent_ok (with_value x h).
Proof.
  intros A Hg k y Hy C.
  apply lookup_with_value in Hy as [Hy | [_ ->]]; trivial.
  apply (A k y Hy C).
Qed.

Lemma absent_ok_arith f o a b op h h' :
  absent_ok h ->
  heap_of (arith_forward f o a b (with_operator op h)) = Some h' ->
  absent_ok h'.
Proof.
  intros A. rewrite arith_forward_cases. simpl.
  destruct (values h !! a) as [x1|]; [|discriminate].
  destruct (values h !! b) as [x2|]; [|discriminate].
  simpl. intros E. injection E as <-.
  apply (absent_ok_with_value (with_operator op h)); trivial.
Qed.

Lemma bind_ret_heap_of {A} (m : M A) h h' :
  heap_of (bind m (fun _ => ret tt) h) = Some h' -> heap_of (m h) = Some h'.
Proof. unfold bind, ret. destruct (m h); trivial. Qed.

Lemma run_command_absent c h h' :
  absent_ok h -> heap_of (run_command c h) = Some h' -> absent_ok h'.
Proof.
  intros A. destruct c as [v rg | a b | a b | a b | a | n]; simpl.
  - intros E. injection E as <-. apply absent_ok_with_value; trivial.
  - intros E. apply bind_ret_heap_of in E.
    rewrite Value_add_cases in E. destruct b as [f | b |].
    + eapply (absent_ok_arith _ _ _ _ _ (with_value _ h)); [|exact E].
      apply absent_ok_with_value; trivial.
    + eapply absent_ok_arith; eauto.
    + injection E as <-. exact A.
  - intros E. apply bind_ret_heap_of in E.
    rewrite Value_sub_cases in E. destruct b as [f | b |].
    + eapply (absent_ok_arith _ _ _ _ _ (with_value _ h)); [|exact E].
      apply absent_ok_with_value; trivial.
    + eapply absent_ok_arith; eauto.
    + injection E as <-. exact A.
  - intros E. apply bind_ret_heap_of in E.
    rewrite Value_mul_cases in E. destruct b as [f | b |].
    + eapply (absent_ok_arith _ _ _ _ _ (with_value _ h)); [|exact E].
      apply absent_ok_with_value; trivial.
    + eapply absent_ok_arith; eauto.
    + injection E as <-. exact A.
  - change (heap_of (run_command (PassThrough a) h) = Some h' -> absent_ok h').
    rewrite pass_through_cases.
    destruct (values h !! a) as [x1|]; [|discriminate].
    intros E. injection E as <-.
    apply (absent_ok_with_value (with_operator _ h)); trivial.
  - intros E. eapply absent_ok_kept; [|exact A].
    apply (backward_grads_kept n). exact E.
Qed.

Lemma run_absent p : forall h h',
  absent_ok h -> heap_of (run p h) = Some h' -> absent_ok h'.
Proof.
  induction p as [|c p IH]; intros h h' A E.
  - injection E as <-. exact A.
  - simpl in E. apply bind_heap_of in E as [([] & h1 & E1 & E2) | (e & E1)].
    + apply (IH h1); trivial.
      eapply run_command_absent; [exact A|]. rewrite E1. reflexivity.
    + eapply run_command_absent; [exact A|]. rewrite E1. reflexivity.
Qed.

Lemma absent_ok_empty : absent_ok empty_heap.
Proof. intros k x E. discriminate. Qed.

(** ** IEEE arithmetic on the gradients *)

Lemma shr_exact_52 m e :
  canonical_mantissa prec emax m e = true ->
  shr_fexp prec emax (Zpos (4503599627370496 * m)) (-52 + e) loc_Exact =
    (Build_shr_record (Zpos m) false false, e).
Proof.
  intros Hc. unfold canonical_mantissa in Hc. apply Z.eqb_eq in Hc.
  unfold shr_fexp.
  assert (Hs : fexp prec emax
                 (Zdigits2 (Zpos (4503599627370496 * m)) + (-52 + e))
               - (-52 + e) = 52).
  { cbv [Pos.mul]. cbn [Zdigits2 digits2_pos].
    rewrite !Pos2Z.inj_succ.
    replace (fexp prec emax _) with e; [lia|].
    rewrite <- Hc at 1. f_equal. lia. }
  rewrite Hs. cbv [Pos.mul]. unfold shr. cbn [iter_pos shr_1 shr_record_of_loc orb].
  f_equal. lia.
Qed.

Lemma float_one_mul x : (1 * x)%float = x.
Proof.
  rewrite <- (SF2Prim_Prim2SF (1 * x)). rewrite <- (SF2Prim_Prim2SF x) at 2.
  f_equal. rewrite FloatAxioms.mul_spec.
  pose proof (Prim2SF_valid x) as V.
  change (Prim2SF 1) with (S754_finite false 4503599627370496 (-52)).
  destruct (Prim2SF x) as [s | s | | s m e];
    [destruct s; reflexivity | destruct s; reflexivity | reflexivity |].
  unfold SF64mul, SFmul. simpl xorb.
  unfold valid_binary, bounded in V. apply andb_prop in V as [Vc Ve].
  unfold binary_round_aux. rewrite (shr_exact_52 m e Vc).
  cbn [shr_m loc_of_shr_record round_nearest_even].
  unfold shr_fexp.
  unfold canonical_mantissa in Vc. apply Z.eqb_eq in Vc.
  cbn [Zdigits2]. rewrite Vc, Z.sub_diag. cbn [shr shr_record_of_loc shr_m].
  rewrite Ve. reflexivity.
Qed.

Lemma float_zero_add_eqb y : ((0 + y =? y) = (y =? y))%float.
Proof.
  rewrite !FloatAxioms.eqb_spec, FloatAxioms.add_spec.
  change (Prim2SF 0) with (S754_zero false).
  destruct (Prim2SF y) as [s | s | | s m e]; trivial.
  destruct s; reflexivity.
Qed.

Lemma float_eqb_refl y : is_nan y = false -> (y =? y)%float = true.
Proof. unfold is_nan. intros H. apply Bool.negb_false_iff in H. exact H. Qed.

(** ** More fuel changes nothing *)

Lemma extends_refl {A} (m : M A) : extends m m.
Proof. intros h _. reflexivity. Qed.

Lemma bind_extends {A B} (m m' : M A) (k k' : A -> M B) :
  extends m m' -> (forall a, extends (k a) (k' a)) ->
  extends (bind m k) (bind m' k').
Proof.
  intros Hm Hk h. unfold bind. intros H.
  rewrite (Hm h) by (intros E; rewrite E in H; congruence).
  destruct (m h) as [a h1 | | |]; trivial. apply Hk. exact H.
Qed.

Lemma operator_setup_extends (s s' : nat -> M unit) o :
  (forall n, extends (s n) (s' n)) ->
  extends (Operator_backprop_setup s o) (Operator_backprop_setup s' o).
Proof.
  intros Hs. unfold Operator_backprop_setup.
  apply bind_extends; [apply extends_refl|]. intros op.
  apply bind_extends; [apply extends_refl|]. intros _.
  destruct op; try apply extends_refl; try apply Hs;
    (apply bind_extends; [apply Hs | intros _; apply Hs]).
Qed.

Lemma operator_calc_extends (c c' : nat -> float -> M unit) o g :
  (forall n g, extends (c n g) (c' n g)) ->
  extends (Operator_backprop_calc c o g) (Operator_backprop_calc c' o g).
Proof.
  intros Hc. unfold Operator_backprop_calc.
  apply bind_extends; [apply extends_refl|]. intros op.
  apply bind_extends; [apply extends_refl|]. intros _.
  destruct op; try apply extends_refl.
  - apply bind_extends; [apply Hc | intros _; apply Hc].
  - apply bind_extends; [apply Hc | intros _; apply Hc].
  - apply bind_extends; [apply extends_refl|]. intros v2.
    apply bind_extends; [apply Hc|]. intros _.
    apply bind_extends; [apply extends_refl|]. intros v1. apply Hc.
  - apply bind_extends; [apply extends_refl|]. intros _. apply Hc.
Qed.

Lemma setup_fuel fuel : forall fuel' n, (fuel <= fuel')%nat ->
  extends (Value_backprop_setup fuel n) (Value_backprop_setup fuel' n).
Proof.
  induction fuel as [|fuel IH]; intros fuel' n Hf.
  - intros h H. destruct H. reflexivity.
  - destruct fuel' as [|fuel']; [lia|]. simpl.
    apply bind_extends; [apply extends_refl|]. intros x.
    apply bind_extends; [apply extends_refl|]. intros _.
    apply bind_extends; [apply extends_refl|]. intros _.
    destruct (_backprop_count x + 1 =? 1); [|apply extends_refl].
    destruct (_op x) as [o|]; [|apply extends_refl].
    apply operator_setup_extends. intros m. apply IH. lia.
Qed.

Lemma calc_fuel fuel : forall fuel' n g, (fuel <= fuel')%nat ->
  extends (Value_backprop_calc fuel n g) (Value_backprop_calc fuel' n g).
Proof.
  induction fuel as [|fuel IH]; intros fuel' n g Hf.
  - intros h H. destruct H. reflexivity.
  - destruct fuel' as [|fuel']; [lia|]. simpl.
    apply bind_extends; [apply extends_refl|]. intros x.
    apply bind_extends; [apply extends_refl|]. intros _.
    destruct (_requires_grad x); [|apply extends_refl].
    apply bind_extends; [apply extends_refl|]. intros _.
    apply bind_extends; [apply extends_refl|]. intros _.
    destruct (_backprop_count x - 1 <? 0); [apply extends_refl|].
    destruct (_backprop_count x - 1 =? 0); [|apply extends_refl].
    destruct (_op x) as [o|]; [|apply extends_refl].
    apply operator_calc_extends. intros m g'. apply IH. lia.
Qed.

(** Whatever [backward] does with fuel for every object of the store,
    [Value.backward] does with any larger fuel. *)
Lemma backward_enough_fuel fuel n h :
  (length (values h) <= fuel)%nat -> backward n h <> OutOfFuel ->
  Value_backward fuel n h = backward n h.
Proof.
  intros Hf. unfold backward.
  apply (bind_extends
           (Value_backprop_setup (length (values h)) n)
           (Value_backprop_setup fuel n)
           (fun _ => Value_backprop_calc (length (values h)) n 1%float)
           (fun _ => Value_backprop_calc fuel n 1%float)).
  - apply setup_fuel. exact Hf.
  - intros _. apply calc_fuel. exact Hf.
Qed.

(** ** The claims *)

Lemma backward_spec root h :
  good h -> (root < length (values h))%nat ->
  exists h1 h',
    Value_backprop_setup (length (values h)) root h = Returned tt h1 /\
    Value_backprop_calc (length (values h)) root 1%float h1
      = Returned tt h' /\
    backward root h = Returned tt h' /\ good h' /\ same_shape h h' /\
    exists l, log h' = log h ++ l /\ Forall count_written_ok l.
Proof.
  intros G Hn. pose proof G as (W & St & N).
  destruct (backward_returns root h W St Hn)
    as (h1 & h' & E1 & E2 & E & S1 & S2 & _).
  exists h1, h'. split; trivial. split; trivial. split; trivial.
  split; [eapply backward_good; eauto|].
  split; [eapply same_shape_trans; eauto|].
  pose proof (same_shape_well_formed _ _ S1 W) as W1.
  destruct (counters_kept_trans h h1 h') as (_ & l & L & F); trivial.
  - eapply setup_counters_kept; eauto.
  - eapply calc_counters_kept; eauto.
  - eauto.
Qed.

Lemma run_from_empty_good p h : run p empty_heap = Returned tt h -> good h.
Proof. apply run_good, good_empty. Qed.

Lemma idle_fresh h :
  Forall (fun x => _backprop_count x = 0) (values h) -> idle h.
Proof.
  intros F n x Hx _. rewrite Forall_lookup in F. apply (F n x Hx).
Qed.

(** Between two passes no produced [Value] is registered, when every
    produced [Value] requires gradients (as [forward] of [AddOp], [SubOp] and
    [MulOp] ensures). *)
Lemma idle_of_settled h :
  well_formed h -> settled h ->
  (forall n x, values h !! n = Some x -> _op x <> None ->
     _requires_grad x = true) ->
  idle h.
Proof.
  intros W St Hp n x Hx Ho.
  pose proof (settled_zero h W St n) as Hz.
  unfold requires, count_of in Hz. rewrite Hx in Hz.
  apply Hz, (Hp n x Hx Ho).
Qed.

Lemma producers_require_with_value h x :
  producers_require h -> (_op x <> None -> _requires_grad x = true) ->
  producers_require (with_value x h).
Proof.
  intros P Hx n y Hy.
  apply lookup_with_value in Hy as [Hy | [_ ->]]; [apply (P n y Hy) | trivial].
Qed.

Lemma producers_require_arith f o a b op h n h' :
  producers_require h ->
  arith_forward f o a b (with_operator op h) = Returned n h' ->
  producers_require h'.
Proof.
  intros P. rewrite arith_forward_cases. simpl.
  destruct (values h !! a) as [x1|]; [|discriminate].
  destruct (values h !! b) as [x2|]; [|discriminate].
  intros E. injection E as _ <-.
  apply (producers_require_with_value (with_operator op h)); trivial.
  simpl. destruct (_requires_grad x1 || _requires_grad x2); congruence.
Qed.

Lemma producers_require_same_shape h h' :
  same_shape h h' -> producers_require h -> producers_require h'.
Proof.
  intros S P n x' Hx' Ho.
  destruct (same_shape_value _ _ _ _ (same_shape_sym _ _ S) Hx')
    as (x & Hx & _ & Hrg & Hop).
  rewrite <- Hrg. apply (P n x Hx). congruence.
Qed.

Lemma run_command_producers_require c h h' :
  arithmetic c -> producers_require h ->
  run_command c h = Returned tt h' -> producers_require h'.
Proof.
  intros Hc P. destruct c as [v rg | a b | a b | a b | a | n]; simpl.
  - intros E. injection E as <-.
    apply producers_require_with_value; trivial. simpl. congruence.
  - intros E. apply bind_ret_returned in E as (n & E).
    rewrite Value_add_cases in E. destruct b as [f | b |]; [| |discriminate].
    + apply (producers_require_arith _ _ _ _ _ (with_value _ h)) in E;
        trivial.
      apply producers_require_with_value; trivial. simpl. congruence.
    + eapply producers_require_arith; eauto.
  - intros E. apply bind_ret_returned in E as (n & E).
    rewrite Value_sub_cases in E. destruct b as [f | b |]; [| |discriminate].
    + apply (producers_require_arith _ _ _ _ _ (with_value _ h)) in E;
        trivial.
      apply producers_require_with_value; trivial. simpl. congruence.
    + eapply producers_require_arith; eauto.
  - intros E. apply bind_ret_returned in E as (n & E).
    rewrite Value_mul_cases in E. destruct b as [f | b |]; [| |discriminate].
    + apply (producers_require_arith _ _ _ _ _ (with_value _ h)) in E;
        trivial.
      apply producers_require_with_value; trivial. simpl. congruence.
    + eapply producers_require_arith; eauto.
  - destruct Hc.
  - intros E. apply producers_require_same_shape with h; trivial.
    rewrite backward_unfold in E. unfold bind in E.
    destruct (Value_backprop_setup _ n h) as [[] h1 | | |] eqn:E1;
      try discriminate.
    apply same_shape_trans with h1.
    + eapply setup_same_shape. rewrite E1. reflexivity.
    + eapply calc_same_shape. rewrite E. reflexivity.
Qed.

(** Between the calls of a program over the interface of autograd.py no
    produced [Value] is registered. *)
Lemma arithmetic_idle p : forall h h',
  Forall arithmetic p -> good h -> producers_require h ->
  run p h = Returned tt h' -> idle h'.
Proof.
  induction p as [|c p IH]; intros h h' Hp G P E.
  - injection E as <-. destruct G as (W & St & _).
    apply idle_of_settled; trivial.
  - inversion Hp as [|? ? Hc Hp']. subst. simpl in E. unfold bind in E.
    destruct (run_command c h) as [[] h1 | | |] eqn:E1; try discriminate.
    apply (IH h1); trivial.
    + eapply run_command_good; eauto.
    + eapply run_command_producers_require; eauto.
Qed.

(** C1: on the diamond graph a = Value(2.0, requires_grad=True),
    b = a + Value(3.0), c = a * Value(4.0), out = b * c, [out.backward()]
    returns and leaves 28.0 as the gradient of [a]: the sum of the two
    contributions, 8.0 through [b] and 20.0 through [c], that [a] receives. *)
Theorem C1_diamond_gradient :
  exists a out h,
    short_multipath empty_heap = Returned (a, out) h /\
    value_calcs a (log h) = [8%float; 20%float] /\
    grad_of h a = Some 28%float.
Proof.
  eexists _, _, _. split; [vm_compute; reflexivity|].
  split; reflexivity.
Qed.

(** C2: with b = PassThroughOp(a).forward() (or b = a * 1.0), c = b + 4,
    d = b + 5 and out = c * d, one [out.backward()] calls [backprop_calc] of
    the operator that produced [b] exactly once, with the accumulated
    gradient 13.0, and the gradient of the leaf a = 2.0 is 13.0. *)
Theorem C2_single_propagation :
  (exists a b o h x,
     long_multipath empty_heap = Returned (a, b, o) h /\
     values h !! b = Some x /\ _op x = Some o /\
     operators h !! o = Some (PassThroughOp a 1) /\
     value_calcs b (log h) = [7%float; 6%float] /\
     operator_calcs o (log h) = [13%float] /\
     grad_of h a = Some 13%float) /\
  (exists a b o h x,
     long_multipath_mul empty_heap = Returned (a, b, o) h /\
     values h !! b = Some x /\ _op x = Some o /\
     value_calcs b (log h) = [7%float; 6%float] /\
     operator_calcs o (log h) = [13%float] /\
     grad_of h a = Some 13%float).
Proof.
  split; eexists _, _, _, _, _; (split; [vm_compute; reflexivity|]);
    repeat split; reflexivity.
Qed.

(** C3: [Value.backprop_setup] increments the counter, and calls
    [backprop_setup] of the producer only when the counter was 0; hence on a
    well-formed graph in which no produced [Value] is registered, one
    [backward()] calls [backprop_setup] exactly once on the producer of every
    [Value] from which the root is computed, whatever the number of its
    consumers, and on no other operator. *)
Theorem C3_setup_once (h : Heap) (root : nat) :
  good h -> idle h -> (root < length (values h))%nat ->
  (forall fuel n x, values h !! n = Some x -> _backprop_count x <> 0 ->
     Value_backprop_setup (S fuel) n h = Returned tt (registered n x h)) /\
  (forall fuel n x o, values h !! n = Some x -> _backprop_count x = 0 ->
     _op x = Some o ->
     Value_backprop_setup (S fuel) n h =
       Operator_backprop_setup (Value_backprop_setup fuel) o
         (registered n x h)) /\
  exists h', backward root h = Returned tt h' /\
    (forall m x o, reach h root m -> values h !! m = Some x ->
       _op x = Some o ->
       setups_of o (log h') = S (setups_of o (log h))) /\
    (forall o, (forall m x, reach h root m -> values h !! m = Some x ->
                  _op x <> Some o) ->
       setups_of o (log h') = setups_of o (log h)).
Proof.
  intros G I Hn. split; [|split].
  - intros fuel n x Hx Hc. rewrite (setup_unfold _ _ _ _ Hx).
    destruct (Z.eqb_spec (_backprop_count x + 1) 1); [lia | trivial].
  - intros fuel n x o Hx Hc Ho. rewrite (setup_unfold _ _ _ _ Hx), Hc, Ho.
    reflexivity.
  - destruct (backward_spec root h G Hn) as (h1 & h' & E1 & E2 & E & _).
    destruct G as (W & St & N).
    destruct (setup_once _ _ _ _ W I N E1) as [Hin Hout].
    assert (Hl : forall o, setups_of o (log h') = setups_of o (log h1)).
    { eapply calc_setups. rewrite E2. reflexivity. }
    exists h'. split; trivial. split.
    + intros m x o Hr Hx Ho. rewrite Hl. eapply Hin; eauto.
    + intros o Ho. rewrite Hl. apply Hout, Ho.
Qed.

Lemma diamond_graph_good : good diamond_graph.
Proof. apply (run_from_empty_good diamond_program). reflexivity. Qed.

Lemma diamond_graph_idle : idle diamond_graph.
Proof. apply idle_fresh. repeat constructor. Qed.

(** On the diamond graph, whose leaf [a] has two consumers, the operator
    that produced [b = a + 3] is set up once. *)
Lemma C3_setup_once_witness :
  good diamond_graph /\ idle diamond_graph /\
  (5 < length (values diamond_graph))%nat /\
  exists h', backward 5 diamond_graph = Returned tt h' /\
             setups_of 0 (log h') = 1%nat.
Proof.
  split; [exact diamond_graph_good|]. split; [exact diamond_graph_idle|].
  split; [simpl; lia|].
  destruct (C3_setup_once diamond_graph 5 diamond_graph_good
              diamond_graph_idle) as (_ & _ & h' & E & Hin & _);
    [simpl; lia|].
  exists h'. split; trivial.
  apply (Hin 2%nat (mkValue 5 true None (Some 0%nat) 0) 0%nat).
  - apply reach_operand with 5%nat (MulOp 2 4).
    + constructor.
    + reflexivity.
    + apply elem_of_cons. auto.
  - reflexivity.
  - reflexivity.
Defined.

(** C5 (as amended): in a pass started by [backward()] on a graph built
    through the public interface no counter is ever negative: the pass
    returns, every counter value that it writes and every counter that it
    leaves is non-negative, and the counter of every [Value] that requires
    gradients is zero at the end.  [backprop_calc] itself does not keep the
    counter from going below zero: on a [Value] that requires gradients and
    whose counter is not positive it adds the contribution to the gradient,
    decrements the counter and only then raises [AssertionError], so that
    the counter left in the store is negative. *)
Theorem C5_counter_of_a_pass (h : Heap) (root : nat) :
  good h -> (root < length (values h))%nat ->
  (exists h' l, backward root h = Returned tt h' /\
     log h' = log h ++ l /\ Forall count_written_ok l /\
     counts_nonneg h' /\
     forall k, requires h' k = true -> count_of h' k = 0) /\
  (forall fuel n g x, values h !! n = Some x -> _requires_grad x = true ->
     _backprop_count x <= 0 ->
     exists h',
       Value_backprop_calc (S fuel) n g h = Raised AssertionError h' /\
       count_of h' n = _backprop_count x - 1 /\ count_of h' n < 0 /\
       grad_of h' n = Some (new_grad x g) /\
       log h' = log h ++ [ValueCalc n g; CountDown n (_backprop_count x - 1)]
       /\ forall k, k <> n -> values h' !! k = values h !! k).
Proof.
  intros G Hn. split.
  - destruct (backward_spec root h G Hn)
      as (h1 & h' & _ & _ & E & (W' & St' & N') & _ & l & L & F).
    exists h', l. split; trivial. split; trivial. split; trivial.
    split; trivial. apply settled_zero; trivial.
  - intros fuel n g x Hx Hrg Hc. exists (accumulated n x g h).
    assert (Hcount : count_of (accumulated n x g h) n = _backprop_count x - 1).
    { unfold accumulated. rewrite (count_of_insert _ _ _ _ _ _ Hx).
      rewrite Nat.eqb_refl. reflexivity. }
    split; [|split; [exact Hcount|split; [lia|split; [|split]]]].
    + rewrite calc_unfold, Hx, Hrg.
      destruct (Z.ltb_spec (_backprop_count x - 1) 0); [trivial | lia].
    + unfold grad_of, accumulated. simpl.
      rewrite list_lookup_insert_eq by (eapply lookup_lt_Some; eauto).
      reflexivity.
    + reflexivity.
    + intros k Hk. simpl. apply list_lookup_insert_ne. congruence.
Qed.

Lemma C5_counter_of_a_pass_witness :
  good diamond_graph /\ (5 < length (values diamond_graph))%nat /\
  exists h', backward 5 diamond_graph = Returned tt h' /\
             counts_nonneg h' /\ count_of h' 0 = 0.
Proof.
  split; [exact diamond_graph_good|]. split; [simpl; lia|].
  destruct (C5_counter_of_a_pass diamond_graph 5 diamond_graph_good)
    as [(h' & l & E & _ & _ & N & Hz) _]; [simpl; lia|].
  exists h'. split; trivial. split; trivial.
  apply Hz.
  destruct (backward_spec 5 diamond_graph diamond_graph_good)
    as (_ & h2 & _ & _ & E2 & _ & S & _); [simpl; lia|].
  assert (h2 = h') as -> by congruence.
  rewrite (same_shape_requires _ _ _ S). reflexivity.
Defined.

(** C5 fails as stated: on x = Value(1.0, requires_grad=True), whose counter
    is 0, [x.backprop_calc(2.0)] raises [AssertionError] and leaves the
    counter at -1, below zero, and the gradient at 2.0. *)
Lemma C5_counterexample :
  exists h',
    count_of differentiable_leaf 0 = 0 /\
    Value_backprop_calc 1 0 2 differentiable_leaf
      = Raised AssertionError h' /\
    count_of h' 0 = -1 /\ (count_of h' 0 <? 0) = true /\
    grad_of h' 0 = Some 2%float.
Proof.
  eexists. split; [reflexivity|]. split; [vm_compute; reflexivity|].
  repeat split.
Qed.

(** C4 (as amended): for fresh leaves [a] and [b] that require gradients,
    [(a+b).backward()] leaves the gradients 1.0 and 1.0, [(a-b).backward()]
    the gradients 1.0 and -1.0, and [(a*b).backward()] the gradients
    [0.0 + 1.0 * b.item()] and [0.0 + 1.0 * a.item()], which compare equal
    ([==]) to [b.item()] and [a.item()] unless that value is NaN. *)
Theorem C4_two_leaves (va vb : float) :
  (exists a b out h,
     two_leaves Value_add va vb 1 empty_heap = Returned (a, b, out) h /\
     grad_of h a = Some 1%float /\ grad_of h b = Some 1%float) /\
  (exists a b out h,
     two_leaves Value_sub va vb 1 empty_heap = Returned (a, b, out) h /\
     grad_of h a = Some 1%float /\ grad_of h b = Some (-1)%float) /\
  (exists a b out h ga gb,
     two_leaves Value_mul va vb 1 empty_heap = Returned (a, b, out) h /\
     item_of h a = va /\ item_of h b = vb /\
     grad_of h a = Some ga /\ grad_of h b = Some gb /\
     ga = (0 + 1 * item_of h b)%float /\
     gb = (0 + 1 * item_of h a)%float /\
     (is_nan vb = false -> (ga =? item_of h b)%float = true) /\
     (is_nan va = false -> (gb =? item_of h a)%float = true)).
Proof.
  split; [|split].
  - eexists _, _, _, _. split; [vm_compute; reflexivity|].
    split; reflexivity.
  - eexists _, _, _, _. split; [vm_compute; reflexivity|].
    split; reflexivity.
  - eexists _, _, _, _, _, _. split; [vm_compute; reflexivity|].
    split; [reflexivity|]. split; [reflexivity|].
    split; [reflexivity|]. split; [reflexivity|].
    split; [reflexivity|]. split; [reflexivity|].
    change (item_of _ 1) with vb. change (item_of _ 0) with va.
    rewrite !float_one_mul, !float_zero_add_eqb.
    split; apply float_eqb_refl.
Qed.

(** C4 fails as stated: with b = Value(nan, requires_grad=True) the
    gradient of [a] after [(a*b).backward()] is NaN, which does not compare
    equal ([==]) to [b.item()]. *)
Lemma C4_counterexample :
  exists a b out h ga,
    two_leaves Value_mul 1 nan 1 empty_heap = Returned (a, b, out) h /\
    grad_of h a = Some ga /\ is_nan ga = true /\
    (ga =? item_of h b)%float = false.
Proof.
  eexists _, _, _, _, _. split; [vm_compute; reflexivity|].
  split; [reflexivity|]. split; reflexivity.
Qed.

Lemma unary_requires_grad_raises h o in1 x :
  operators h !! o = Some (UnaryOp in1) -> values h !! in1 = Some x ->
  _requires_grad x = false ->
  Operator_requires_grad o h = Raised AttributeError h.
Proof.
  intros Ho Hx Hrg.
  unfold Operator_requires_grad, bind, get_operator. rewrite Ho.
  unfold UnaryOp_requires_grad, Value_requires_grad, bind, get_value, ret.
  rewrite Hx, Hrg. reflexivity.
Qed.

Lemma binary_requires_grad_spec in1 in2 h x1 x2 :
  values h !! in1 = Some x1 -> values h !! in2 = Some x2 ->
  BinaryOp_requires_grad in1 in2 h =
    Returned (_requires_grad x1 || _requires_grad x2) h.
Proof.
  intros H1 H2.
  unfold BinaryOp_requires_grad, Value_requires_grad, bind, get_value, ret.
  rewrite H1. destruct (_requires_grad x1); simpl; trivial.
  rewrite H2. reflexivity.
Qed.

(** C6 on the code: for a binary operator [requires_grad()] is the
    disjunction of the flags of the operands, and [forward()] stores the
    operator as producer exactly when it is true; for u = UnaryOp(Value(1.0))
    [u.requires_grad()] raises [AttributeError] where the claim has it
    return false. *)
Theorem C6_requires_grad :
  (forall in1 in2 h x1 x2,
     values h !! in1 = Some x1 -> values h !! in2 = Some x2 ->
     BinaryOp_requires_grad in1 in2 h =
       Returned (_requires_grad x1 || _requires_grad x2) h) /\
  (forall f o in1 in2 h x1 x2,
     values h !! in1 = Some x1 -> values h !! in2 = Some x2 ->
     exists n h' y, arith_forward f o in1 in2 h = Returned n h' /\
       values h' !! n = Some y /\
       _requires_grad y = (_requires_grad x1 || _requires_grad x2) /\
       _op y = if _requires_grad y then Some o else None) /\
  Operator_requires_grad 0 unary_heap = Raised AttributeError unary_heap.
Proof.
  split; [|split].
  - apply binary_requires_grad_spec.
  - intros f o in1 in2 h x1 x2 H1 H2.
    rewrite arith_forward_cases, H1, H2. simpl.
    eexists _, _, _. split; [reflexivity|].
    split; [apply list_lookup_middle; reflexivity|].
    split; reflexivity.
  - reflexivity.
Qed.

(** C7 (as amended): [backward()] on a [Value] that does not require
    gradients and has no producer returns without calling a method of any
    other object: it increments the counter of that [Value] and changes
    nothing else in the store. *)
Theorem C7_backward_without_grad (h : Heap) (n : nat) (x : Value) :
  values h !! n = Some x -> _requires_grad x = false -> _op x = None ->
  backward n h =
    Returned tt
      (mkHeap
         (<[n := mkValue (_v x) false (grad x) None (_backprop_count x + 1)]>
            (values h))
         (operators h)
         (log h ++ [ValueSetup n (_backprop_count x + 1);
                    ValueCalc n 1%float])).
Proof.
  intros Hx Hrg Ho. rewrite backward_unfold.
  destruct (length (values h)) as [|fuel] eqn:Hl.
  { apply lookup_lt_Some in Hx. lia. }
  unfold bind. rewrite (setup_unfold _ _ _ _ Hx), Ho.
  assert (E : (if _backprop_count x + 1 =? 1
               then Returned tt (registered n x h)
               else Returned tt (registered n x h))
              = Returned tt (registered n x h))
    by (destruct (_backprop_count x + 1 =? 1); trivial).
  rewrite E, calc_unfold. unfold registered at 1. simpl.
  rewrite list_lookup_insert_eq by (eapply lookup_lt_Some; eauto).
  simpl. rewrite Hrg. unfold discarded, registered. simpl.
  rewrite Hrg, Ho, <- app_assoc. reflexivity.
Qed.

Lemma C7_backward_without_grad_witness :
  values plain_leaf !! 0%nat = Some (mkValue 1 false None None 0) /\
  backward 0 plain_leaf =
    Returned tt
      (mkHeap [mkValue 1 false None None 1] []
              [ValueSetup 0 1; ValueCalc 0 1%float]).
Proof.
  split; [reflexivity|].
  apply (C7_backward_without_grad plain_leaf 0
           (mkValue 1 false None None 0)); reflexivity.
Defined.

(** C7 fails as stated: [Value(1.0).backward()] changes the counter of the
    [Value] from 0 to 1; and with b = PassThroughOp(x).forward() over
    x = Value(1.0), [b.backward()] calls [backprop_setup] of the producer of
    [b] and changes the counter of [x]. *)
Lemma C7_counterexample :
  (exists h', backward 0 plain_leaf = Returned tt h' /\
     requires plain_leaf 0 = false /\
     count_of plain_leaf 0 = 0 /\ count_of h' 0 = 1) /\
  (exists h', backward 1 passed_leaf = Returned tt h' /\
     requires passed_leaf 1 = false /\
     setups_of 0 (log passed_leaf) = 0%nat /\
     setups_of 0 (log h') = 1%nat /\
     count_of passed_leaf 0 = 0 /\ count_of h' 0 = 1).
Proof.
  split; eexists; (split; [vm_compute; reflexivity|]); repeat split.
Qed.

(** C8: in every store that a program over the public interface reaches,
    whether its last call returned or raised, a [Value] that does not
    require gradients, and a [Value] on which [backprop_calc] was never
    called, has the gradient [None] (not 0.0), also after backward passes
    over graphs of which it is an operand. *)
Theorem C8_absent_gradient (p : list Command) (h : Heap) (k : nat)
    (x : Value) :
  heap_of (run p empty_heap) = Some h ->
  values h !! k = Some x ->
  _requires_grad x = false \/ untouched k (log h) ->
  grad x = None /\ grad x <> Some 0%float.
Proof.
  intros E Hx C.
  assert (G : grad x = None).
  { apply (run_absent p empty_heap h absent_ok_empty E k x Hx C). }
  rewrite G. split; [reflexivity | discriminate].
Qed.

(** After [out.backward()] on out = a + b with b = Value(3.0), the
    gradient of [b] is absent and that of [a] is 1.0. *)
Lemma C8_absent_gradient_witness :
  exists h x,
    heap_of (run no_requires_grad_program empty_heap) = Some h /\
    values h !! 1%nat = Some x /\ _requires_grad x = false /\
    grad_of h 0 = Some 1%float /\ grad x = None.
Proof.
  eexists _, _. split; [vm_compute; reflexivity|].
  split; [reflexivity|]. split; [reflexivity|]. split; [reflexivity|].
  eapply (C8_absent_gradient no_requires_grad_program _ 1).
  - vm_compute. reflexivity.
  - reflexivity.
  - left. reflexivity.
Defined.

Lemma backward_keeps_some n h h' k :
  heap_of (backward n h) = Some h' ->
  grad_of h k <> None -> grad_of h' k <> None.
Proof.
  intros E.
  assert (R : forall k, grad_of h k <> None -> grad_of h' k <> None);
    [|apply R].
  revert E. rewrite backward_unfold. intros E.
  assert (Hs : forall f m h1 h2,
            heap_of (Value_backprop_setup f m h1) = Some h2 ->
            forall k, grad_of h1 k <> None -> grad_of h2 k <> None).
  { intros f m h1 h2 E1 j. apply setup_keeps_grads in E1 as [E1 _].
    rewrite (grad_of_fmap _ _ j E1). trivial. }
  assert (Hc : forall f m g h1 h2,
            heap_of (Value_backprop_calc f m g h1) = Some h2 ->
            forall k, grad_of h1 k <> None -> grad_of h2 k <> None).
  { intros f m g. apply (calc_guarantee
      (fun h1 h2 => forall k, grad_of h1 k <> None -> grad_of h2 k <> None));
      auto.
    intros h1 i y g0 Hy _ j. unfold grad_of, accumulated. simpl.
    destruct (Nat.eq_dec j i) as [->|Hne].
    - rewrite list_lookup_insert_eq by (eapply lookup_lt_Some; eauto).
      discriminate.
    - rewrite list_lookup_insert_ne by congruence. trivial. }
  apply bind_heap_of in E as [(a & h1 & E1 & E2) | (e & E1)].
  - intros j Hj. eapply Hc; [exact E2|]. eapply Hs; [|exact Hj].
    rewrite E1. reflexivity.
  - eapply Hs. rewrite E1. reflexivity.
Qed.

(** C9 (as amended): gradients are not reset between passes.  On a graph
    built through the public interface two successive calls of
    [backward()] on the same output both return, and no gradient that is
    there after the first call is absent after the second.  Each call adds
    exactly 1.0 to the gradient of an output that requires gradients,
    starting from 0.0 when it has none: an output without gradient has 1.0
    after the first call and 2.0, twice that, after the second.  An output
    that does not require gradients keeps the gradient it had.  The leaves
    are not doubled: for out = a + b over two fresh leaves that require
    gradients each leaf has 1.0 after the first call and 3.0 after the
    second. *)
Theorem C9_second_backward (h : Heap) (root : nat) (x : Value) :
  good h -> values h !! root = Some x ->
  (exists h1 h2,
     backward root h = Returned tt h1 /\
     backward root h1 = Returned tt h2 /\
     (forall k, grad_of h1 k <> None -> grad_of h2 k <> None) /\
     (_requires_grad x = true ->
        grad_of h1 root = Some (new_grad x 1) /\
        grad_of h2 root = Some (new_grad x 1 + 1)%float /\
        (grad x = None ->
           grad_of h1 root = Some 1%float /\
           grad_of h2 root = Some 2%float)) /\
     (_requires_grad x = false ->
        grad_of h1 root = grad x /\ grad_of h2 root = grad x)) /\
  (forall va vb, exists a b out h1 h2,
     two_leaves Value_add va vb 1 empty_heap = Returned (a, b, out) h1 /\
     two_leaves Value_add va vb 2 empty_heap = Returned (a, b, out) h2 /\
     grad_of h1 a = Some 1%float /\ grad_of h1 b = Some 1%float /\
     grad_of h2 a = Some 3%float /\ grad_of h2 b = Some 3%float).
Proof.
  intros G Hx. split.
  2:{ intros va vb. eexists _, _, _, _, _.
      split; [vm_compute; reflexivity|]. split; [vm_compute; reflexivity|].
      repeat split. }
  assert (Hn : (root < length (values h))%nat)
    by (eapply lookup_lt_Some; eauto).
  destruct (backward_spec root h G Hn)
    as (_ & h1 & _ & _ & E1 & G1 & S1 & _).
  assert (Hn1 : (root < length (values h1))%nat).
  { destruct (same_shape_value _ _ _ _ S1 Hx) as (x1 & Hx1 & _).
    eapply lookup_lt_Some; eauto. }
  destruct (backward_spec root h1 G1 Hn1)
    as (_ & h2 & _ & _ & E2 & G2 & S2 & _).
  exists h1, h2. split; [exact E1|]. split; [exact E2|].
  destruct (same_shape_value _ _ _ _ S1 Hx) as (x1 & Hx1 & _ & Hrg1 & _).
  destruct (same_shape_value _ _ _ _ S2 Hx1) as (x2 & Hx2 & _ & Hrg2 & _).
  split; [|split].
  - intros k. apply (backward_keeps_some root). rewrite E2. reflexivity.
  - intros Hrg. destruct G as (W & St & _). destruct G1 as (W1 & St1 & _).
    destruct (backward_root_grad root h x W St Hx Hrg)
      as (h1' & E1' & _ & _ & R1).
    assert (h1' = h1) as -> by congruence.
    destruct (backward_root_grad root h1 x1 W1 St1 Hx1)
      as (h2' & E2' & _ & _ & R2); [congruence|].
    assert (h2' = h2) as -> by congruence.
    assert (R2' : grad_of h2 root = Some (new_grad x 1 + 1)%float).
    { rewrite R2. unfold new_grad at 1. unfold grad_of in R1.
      rewrite Hx1 in R1. rewrite R1. reflexivity. }
    split; [exact R1|]. split; [exact R2'|].
    intros Hg. rewrite R1, R2'. unfold new_grad. rewrite Hg.
    split; reflexivity.
  - intros Hrg.
    assert (K : forall n h0 h' y y', heap_of (backward n h0) = Some h' ->
              values h0 !! root = Some y -> values h' !! root = Some y' ->
              _requires_grad y = false -> grad y' = grad y).
    { intros n h0 h' y y' E Hy Hy' Hr.
      destruct (backward_grads_kept n h0 h' E) as (_ & K).
      destruct (K root y' Hy') as (y0 & Hy0 & Er & Eg).
      assert (y0 = y) as -> by congruence.
      apply Eg. left. congruence. }
    assert (A1 : grad x1 = grad x).
    { apply (K root h h1); trivial. rewrite E1. reflexivity. }
    assert (A2 : grad x2 = grad x1).
    { apply (K root h1 h2); trivial; [|congruence].
      rewrite E2. reflexivity. }
    unfold grad_of. rewrite Hx1, Hx2. split; congruence.
Qed.

Lemma sum_graph_good : good sum_graph.
Proof.
  apply (run_from_empty_good
           [NewValue 3 true; NewValue 2 true; Add 0 (OValue 1)]).
  reflexivity.
Qed.

Lemma scaled_graph_good : good scaled_graph.
Proof.
  apply (run_from_empty_good
           [NewValue 2 true; Mul 0 (OFloat 1); Mul 2 (OFloat 2);
            Backward 4]).
  reflexivity.
Qed.

(** For out = a + b (object 2) the gradient of [out] is 1.0 and then 2.0;
    for b = a * 1.0 (object 2) that already has the gradient 2.0 from
    [c.backward()] on c = b * 2.0, it is 3.0 and then 4.0; for Value(3.0)
    (object 1 of the diamond graph), which does not require gradients, it
    is absent both times. *)
Lemma C9_second_backward_witness :
  (good sum_graph /\
   exists h1 h2,
     backward 2 sum_graph = Returned tt h1 /\
     backward 2 h1 = Returned tt h2 /\
     grad_of h1 2 = Some 1%float /\ grad_of h2 2 = Some 2%float) /\
  (good scaled_graph /\ grad_of scaled_graph 2 = Some 2%float /\
   exists h1 h2,
     backward 2 scaled_graph = Returned tt h1 /\
     backward 2 h1 = Returned tt h2 /\
     grad_of h1 2 = Some 3%float /\ grad_of h2 2 = Some 4%float) /\
  (good diamond_graph /\
   exists h1 h2,
     backward 1 diamond_graph = Returned tt h1 /\
     backward 1 h1 = Returned tt h2 /\
     grad_of h1 1 = None /\ grad_of h2 1 = None).
Proof.
  split; [|split].
  3:{ split; [exact diamond_graph_good|].
      destruct (C9_second_backward diamond_graph 1
                  (mkValue 3 false None None 0) diamond_graph_good eq_refl)
        as ((h1 & h2 & E1 & E2 & _ & _ & R) & _).
      destruct (R eq_refl) as (R1 & R2).
      exists h1, h2. auto. }
  - split; [exact sum_graph_good|].
    destruct (C9_second_backward sum_graph 2
                (mkValue 5 true None (Some 0%nat) 0) sum_graph_good eq_refl)
      as ((h1 & h2 & E1 & E2 & _ & R & _) & _).
    destruct (R eq_refl) as (_ & _ & R0).
    destruct (R0 eq_refl) as (R1 & R2).
    exists h1, h2. auto.
  - split; [exact scaled_graph_good|]. split; [reflexivity|].
    destruct (C9_second_backward scaled_graph 2
                (mkValue 2 true (Some 2%float) (Some 0%nat) 0)
                scaled_graph_good eq_refl)
      as ((h1 & h2 & E1 & E2 & _ & R & _) & _).
    destruct (R eq_refl) as (R1 & R2 & _).
    exists h1, h2. split; [exact E1|]. split; [exact E2|].
    split; [exact R1 | exact R2].
Defined.

(** C9 fails as stated: for out = a + b over leaves that require
    gradients, the gradient of [a] is 1.0 after the first
    [out.backward()] and 3.0, not 2.0, after the second. *)
Lemma C9_counterexample :
  exists a b out h1 h2 g1 g2,
    two_leaves Value_add 3 2 1 empty_heap = Returned (a, b, out) h1 /\
    two_leaves Value_add 3 2 2 empty_heap = Returned (a, b, out) h2 /\
    grad_of h1 a = Some g1 /\ grad_of h2 a = Some g2 /\
    g1 = 1%float /\ g2 = 3%float /\ (g2 =? 2 * g1)%float = false.
Proof.
  eexists _, _, _, _, _, _, _. split; [vm_compute; reflexivity|].
  split; [vm_compute; reflexivity|]. repeat split.
Qed.

(** C10: [Value(v, requires_grad=False, op=o)] returns a new [Value] whose
    producer is [o]: the constructor neither raises nor drops the
    producer. *)
Theorem C10_init_keeps_producer (v : float) (o : nat) (h : Heap) :
  exists n h',
    Value_init v false (Some o) h = Returned n h' /\
    values h' !! n = Some (mkValue v false None (Some o) 0) /\
    operators h' = operators h /\
    forall k y, values h !! k = Some y -> values h' !! k = Some y.
Proof.
  eexists _, _. split; [reflexivity|]. simpl.
  split; [apply list_lookup_middle; reflexivity|]. split; trivial.
  intros k y Hy. apply lookup_app_l_Some. exact Hy.
Qed.

(** * Further properties of the code *)

(** ** The overloaded operators *)

Lemma lookup_with_value_old h x k y :
  values h !! k = Some y -> values (with_value x h) !! k = Some y.
Proof. intros Hy. simpl. apply lookup_app_l_Some. exact Hy. Qed.

Lemma arith_forward_observed f op a b h x1 x2 :
  values h !! a = Some x1 -> values h !! b = Some x2 ->
  exists n h',
    arith_forward f (length (operators h)) a b (with_operator op h)
      = Returned n h' /\
    n = length (values h) /\
    values h' !! n =
      Some (mkValue (f (_v x1) (_v x2))
              (_requires_grad x1 || _requires_grad x2) None
              (if _requires_grad x1 || _requires_grad x2
               then Some (length (operators h)) else None) 0) /\
    operators h' = operators h ++ [op] /\ log h' = log h /\
    (forall k y, values h !! k = Some y -> values h' !! k = Some y).
Proof.
  intros H1 H2. rewrite arith_forward_cases. simpl. rewrite H1, H2.
  eexists _, _. split; [reflexivity|]. split; [reflexivity|].
  split; [apply list_lookup_middle; reflexivity|].
  split; [reflexivity|]. split; [reflexivity|].
  intros k y Hy. apply lookup_app_l_Some. exact Hy.
Qed.

(** X1: [a + b], [a - b] and [a * b] on two [Value]s return a new [Value] whose
    [item()] is the sum, difference or product of the operands' items, which
    requires gradients when one operand does, and whose producer is set
    exactly in that case (to a new operator over [a] and [b]); it has no
    gradient, and no object of the store is changed. *)
Theorem binary_operators_forward (h : Heap) (a b : nat) (x1 x2 : Value) :
  values h !! a = Some x1 -> values h !! b = Some x2 ->
  forall method mk f,
    (method, mk, f) = (Value_add, AddOp, PrimFloat.add) \/
    (method, mk, f) = (Value_sub, SubOp, PrimFloat.sub) \/
    (method, mk, f) = (Value_mul, MulOp, PrimFloat.mul) ->
    exists n h',
      method a (OValue b) h = Returned n h' /\
      item_of h' n = f (_v x1) (_v x2) /\
      requires h' n = (_requires_grad x1 || _requires_grad x2) /\
      grad_of h' n = None /\ count_of h' n = 0 /\
      producer h' n =
        (if _requires_grad x1 || _requires_grad x2
         then Some (mk a b) else None) /\
      log h' = log h /\
      (forall k y, values h !! k = Some y -> values h' !! k = Some y) /\
      (forall o op, operators h !! o = Some op ->
         operators h' !! o = Some op).
Proof.
  intros H1 H2 method mk f Hm.
  assert (Hr : method a (OValue b) h =
               arith_forward f (length (operators h)) a b
                 (with_operator (mk a b) h)).
  { destruct Hm as [E | [E | E]]; injection E as -> -> ->.
    - apply (Value_add_cases a (OValue b)).
    - apply (Value_sub_cases a (OValue b)).
    - apply (Value_mul_cases a (OValue b)). }
  destruct (arith_forward_observed f (mk a b) a b h x1 x2 H1 H2)
    as (n & h' & E & Hn & Hv & Hops & Hl & Hold).
  exists n, h'. rewrite Hr. split; trivial.
  unfold item_of, requires, grad_of, count_of, producer. rewrite Hv. simpl.
  repeat (split; trivial).
  - destruct (_requires_grad x1 || _requires_grad x2); trivial.
    rewrite Hops. apply list_lookup_middle. reflexivity.
  - intros o op Ho. rewrite Hops. apply lookup_app_l_Some. exact Ho.
Qed.

Lemma binary_operators_forward_witness :
  exists n h',
    Value_mul 0 (OValue 1)
      (mkHeap [mkValue 2 false None None 0; mkValue 3 false None None 0]
              [] []) = Returned n h' /\
    item_of h' n = 6%float /\ requires h' n = false.
Proof.
  destruct (binary_operators_forward
              (mkHeap [mkValue 2 false None None 0;
                       mkValue 3 false None None 0] [] [])
              0 1 (mkValue 2 false None None 0) (mkValue 3 false None None 0)
              eq_refl eq_refl Value_mul MulOp PrimFloat.mul)
    as (n & h' & E & Hi & Hr & _); [auto|].
  exists n, h'. auto.
Defined.

(** X2: A float on the right of [+], [-] or [*] is first wrapped in a new
    [Value] that does not require gradients, so that [a + f] is
    [a + Value(f)]: the result has the item [a.item() + f] and requires
    gradients exactly when [a] does.  An operand that is neither a float nor
    a [Value] raises [AssertionError] before any object is created. *)
Theorem operand_coercion (h : Heap) (a : nat) (x1 : Value) (v : float) :
  values h !! a = Some x1 ->
  forall method f,
    (method, f) = (Value_add, PrimFloat.add) \/
    (method, f) = (Value_sub, PrimFloat.sub) \/
    (method, f) = (Value_mul, PrimFloat.mul) ->
    method a (OFloat v) h =
      bind (Value_init v false None) (fun b => method a (OValue b)) h /\
    method a OOther h = Raised AssertionError h /\
    exists n h',
      method a (OFloat v) h = Returned n h' /\
      item_of h' n = f (_v x1) v /\
      requires h' n = _requires_grad x1 /\
      values h' !! length (values h) = Some (mkValue v false None None 0) /\
      (forall k y, values h !! k = Some y -> values h' !! k = Some y).
Proof.
  intros H1 method f Hm.
  set (leaf := mkValue v false None None 0).
  assert (Hl : values (with_value leaf h) !! length (values h) = Some leaf)
    by (apply list_lookup_middle; reflexivity).
  pose proof (lookup_with_value_old h leaf a x1 H1) as H1'.
  assert (Hr : method a (OFloat v) h =
               bind (Value_init v false None)
                 (fun b => method a (OValue b)) h /\
               method a OOther h = Raised AssertionError h /\
               exists mk, forall b h0,
                 method a (OValue b) h0 =
                   arith_forward f (length (operators h0)) a b
                     (with_operator (mk a b) h0)).
  { destruct Hm as [E | [E | E]]; injection E as -> ->;
      (split; [reflexivity|]; split; [reflexivity|]).
    - exists AddOp. intros. apply (Value_add_cases a (OValue b)).
    - exists SubOp. intros. apply (Value_sub_cases a (OValue b)).
    - exists MulOp. intros. apply (Value_mul_cases a (OValue b)). }
  destruct Hr as (Hc & Ho & mk & Hv).
  split; trivial. split; trivial.
  destruct (arith_forward_observed f (mk a (length (values h))) a
              (length (values h)) (with_value leaf h) x1 leaf H1' Hl)
    as (n & h' & E & Hn & Hnew & _ & _ & Hold).
  exists n, h'. rewrite Hc. unfold bind at 1. simpl. rewrite Hv.
  split; [exact E|].
  unfold item_of, requires. rewrite Hnew. simpl.
  split; trivial. split; [apply Bool.orb_false_r|].
  split; [apply Hold, Hl|].
  intros k y Hy. apply Hold, lookup_with_value_old, Hy.
Qed.

Lemma operand_coercion_witness :
  exists n h',
    Value_add 0 (OFloat 2) plain_leaf = Returned n h' /\
    item_of h' n = 3%float /\ requires h' n = false.
Proof.
  destruct (operand_coercion plain_leaf 0 (mkValue 1 false None None 0) 2
              eq_refl Value_add PrimFloat.add)
    as (_ & _ & n & h' & E & Hi & Hr & _); [auto|].
  exists n, h'. auto.
Defined.

(** X3: The methods that the base classes leave unimplemented raise
    [RuntimeError]: [forward] of an instance of [Operator], [BinaryOp] or
    [UnaryOp] creates nothing; [backprop_setup] of an [Operator] registers
    nothing; and [backprop_calc] on a [Value] whose last contribution arrives
    and whose producer is such an instance raises after the gradient was
    accumulated and the counter set to 0, without reaching an operand. *)
Theorem unimplemented_operator_methods (h : Heap) (o : nat) (op : Operator) :
  operators h !! o = Some op -> concrete op = false ->
  Operator_forward o h = Raised RuntimeError h /\
  (op = Operator_ ->
   forall setup,
     Operator_backprop_setup setup o h
       = Raised RuntimeError (entered_setup o h)) /\
  forall fuel n g x,
    values h !! n = Some x -> _requires_grad x = true ->
    _backprop_count x = 1 -> _op x = Some o ->
    exists h',
      Value_backprop_calc (S fuel) n g h = Raised RuntimeError h' /\
      grad_of h' n = Some (new_grad x g) /\ count_of h' n = 0 /\
      values h' = values (accumulated n x g h) /\
      log h' = log h ++ [ValueCalc n g; CountDown n 0; OperatorCalc o
                                                         (new_grad x g)].
Proof.
  intros Ho Hc. split; [|split].
  - unfold Operator_forward, bind, get_operator. rewrite Ho.
    destruct op; try discriminate; reflexivity.
  - intros -> setup. rewrite operator_setup_cases, Ho. reflexivity.
  - intros fuel n g x Hx Hrg Hcount Hop.
    rewrite calc_unfold, Hx, Hrg, Hcount, Hop. simpl.
    unfold Operator_backprop_calc, bind, get_operator. simpl. rewrite Ho.
    assert (Hn : (n < length (values h))%nat)
      by (eapply lookup_lt_Some; eauto).
    destruct op; try discriminate; simpl;
      (eexists; split; [reflexivity|]);
      unfold grad_of, count_of; simpl;
      rewrite list_lookup_insert_eq by exact Hn; simpl;
      rewrite Hcount, <- app_assoc; simpl; auto.
Qed.

Lemma unimplemented_operator_methods_witness :
  concrete (UnaryOp 0) = false /\
  Operator_forward 0 unary_heap = Raised RuntimeError unary_heap.
Proof.
  split; [reflexivity|].
  apply (unimplemented_operator_methods unary_heap 0 (UnaryOp 0));
    reflexivity.
Defined.

(** ** What building and differentiating leave alone *)

Lemma construction_extends (c : Command) (h h' : Heap) :
  constructs c -> heap_of (run_command c h) = Some h' ->
  exists vs os,
    values h' = values h ++ vs /\ operators h' = operators h ++ os /\
    log h' = log h /\
    Forall (fun x => grad x = None /\ _backprop_count x = 0) vs.
Proof.
  intros Hc.
  assert (Ha : forall f o a b h0 op vs0,
            values h0 = values h ++ vs0 -> operators h0 = operators h ->
            log h0 = log h ->
            Forall (fun x => grad x = None /\ _backprop_count x = 0) vs0 ->
            heap_of (arith_forward f o a b (with_operator op h0)) = Some h' ->
            exists vs os,
              values h' = values h ++ vs /\
              operators h' = operators h ++ os /\ log h' = log h /\
              Forall (fun x => grad x = None /\ _backprop_count x = 0) vs).
  { intros f o a b h0 op vs0 Hv Ho Hl Hf. rewrite arith_forward_cases. simpl.
    destruct (values h0 !! a) as [x1|]; [|discriminate].
    destruct (values h0 !! b) as [x2|]; [|discriminate].
    simpl. intros E. injection E as <-. simpl.
    eexists (vs0 ++ [_]), [op]. rewrite Hv, Ho, Hl, <- app_assoc.
    split; trivial. split; trivial. split; trivial.
    apply Forall_app. split; trivial. repeat constructor. }
  assert (Hleaf : forall v,
            values (with_value (mkValue v false None None 0) h)
              = values h ++ [mkValue v false None None 0] /\
            Forall (fun x => grad x = None /\ _backprop_count x = 0)
              [mkValue v false None None 0])
    by (intros; split; [reflexivity | repeat constructor]).
  assert (Hnil : values h = values h ++ [] /\
                 Forall (fun x : Value =>
                           grad x = None /\ _backprop_count x = 0) [])
    by (split; [symmetry; apply app_nil_r | constructor]).
  assert (Hsame : exists vs os,
            values h = values h ++ vs /\ operators h = operators h ++ os /\
            log h = log h /\
            Forall (fun x => grad x = None /\ _backprop_count x = 0) vs).
  { exists [], []. rewrite !app_nil_r. repeat split. constructor. }
  destruct c as [v rg | a b | a b | a b | a | n]; simpl.
  - intros E. injection E as <-. exists [mkValue v rg None None 0], [].
    simpl. rewrite app_nil_r. repeat split. repeat constructor.
  - intros E. apply bind_ret_heap_of in E. rewrite Value_add_cases in E.
    destruct b as [f | b |].
    + destruct (Hleaf f) as [Hv Hf].
      eapply Ha; [exact Hv | | | exact Hf | exact E]; reflexivity.
    + destruct Hnil as [Hv Hf].
      eapply Ha; [exact Hv | | | exact Hf | exact E]; reflexivity.
    + injection E as <-. exact Hsame.
  - intros E. apply bind_ret_heap_of in E. rewrite Value_sub_cases in E.
    destruct b as [f | b |].
    + destruct (Hleaf f) as [Hv Hf].
      eapply Ha; [exact Hv | | | exact Hf | exact E]; reflexivity.
    + destruct Hnil as [Hv Hf].
      eapply Ha; [exact Hv | | | exact Hf | exact E]; reflexivity.
    + injection E as <-. exact Hsame.
  - intros E. apply bind_ret_heap_of in E. rewrite Value_mul_cases in E.
    destruct b as [f | b |].
    + destruct (Hleaf f) as [Hv Hf].
      eapply Ha; [exact Hv | | | exact Hf | exact E]; reflexivity.
    + destruct Hnil as [Hv Hf].
      eapply Ha; [exact Hv | | | exact Hf | exact E]; reflexivity.
    + injection E as <-. exact Hsame.
  - change (heap_of (run_command (PassThrough a) h) = Some h' ->
            exists vs os,
              values h' = values h ++ vs /\
              operators h' = operators h ++ os /\ log h' = log h /\
              Forall (fun x => grad x = None /\ _backprop_count x = 0) vs).
    rewrite pass_through_cases.
    destruct (values h !! a) as [x1|]; [|discriminate].
    intros E. injection E as <-. eexists [_], [_]. simpl.
    repeat split. repeat constructor.
  - destruct Hc.
Qed.

(** X4: Creating a [Value] and applying an operator write no existing object
    and call no method of the two phases: every [Value] and every operator
    of the store is found unchanged after the call, the log is the same, and
    each new [Value] has no gradient and counter 0; this also when the call
    raises. *)
Theorem construction_keeps_objects (c : Command) (h h' : Heap) :
  constructs c -> heap_of (run_command c h) = Some h' ->
  (forall k x, values h !! k = Some x -> values h' !! k = Some x) /\
  (forall o op, operators h !! o = Some op -> operators h' !! o = Some op) /\
  log h' = log h /\
  (forall k x, values h !! k = None -> values h' !! k = Some x ->
     grad x = None /\ _backprop_count x = 0).
Proof.
  intros Hc E.
  destruct (construction_extends c h h' Hc E) as (vs & os & Hv & Ho & Hl & Hf).
  split; [|split; [|split]].
  - intros k x Hx. rewrite Hv. apply lookup_app_l_Some. exact Hx.
  - intros o op Hop. rewrite Ho. apply lookup_app_l_Some. exact Hop.
  - exact Hl.
  - intros k x Hn Hx. rewrite Hv in Hx.
    apply lookup_ge_None in Hn. rewrite lookup_app_r in Hx by exact Hn.
    rewrite Forall_lookup in Hf. apply (Hf _ _ Hx).
Qed.

(** [Value(1.0) + 2.0] leaves the [Value] it is applied to as it is, and
    the sum (object 2) has no gradient. *)
Lemma construction_keeps_objects_witness :
  exists h', heap_of (run_command (Add 0 (OFloat 2)) plain_leaf) = Some h' /\
    values h' !! 0%nat = Some (mkValue 1 false None None 0) /\
    grad_of h' 2 = None /\ item_of h' 2 = 3%float.
Proof.
  assert (E : exists h',
            heap_of (run_command (Add 0 (OFloat 2)) plain_leaf) = Some h').
  { eexists. vm_compute. reflexivity. }
  destruct E as (h' & E). exists h'. split; [exact E|].
  destruct (construction_keeps_objects (Add 0 (OFloat 2)) plain_leaf h' I E)
    as (Hv & _).
  split; [apply Hv; reflexivity|].
  vm_compute in E. injection E as <-. split; reflexivity.
Defined.

Lemma backward_same_shape n h h' :
  heap_of (backward n h) = Some h' -> same_shape h h'.
Proof.
  rewrite backward_unfold. intros E.
  apply bind_heap_of in E as [(a & h1 & E1 & E2) | (e & E1)].
  - apply same_shape_trans with h1.
    + eapply setup_same_shape. rewrite E1. reflexivity.
    + eapply calc_same_shape. exact E2.
  - eapply setup_same_shape. rewrite E1. reflexivity.
Qed.

(** X5: Whatever a program does, and whether it ends by returning or raising,
    no object disappears and no [Value] changes its item, its
    [requires_grad] flag or its producer: only gradients and counters are
    ever written. *)
Theorem program_keeps_values (p : list Command) :
  forall h h' k x,
    heap_of (run p h) = Some h' -> values h !! k = Some x ->
    exists x', values h' !! k = Some x' /\ _v x' = _v x /\
               _requires_grad x' = _requires_grad x /\ _op x' = _op x.
Proof.
  assert (Hstep : forall c h h' k x,
            heap_of (run_command c h) = Some h' -> values h !! k = Some x ->
            exists x', values h' !! k = Some x' /\ _v x' = _v x /\
              _requires_grad x' = _requires_grad x /\ _op x' = _op x).
  { intros c h h' k x E Hx. destruct c as [v rg | a b | a b | a b | a | n].
    1-5: match type of E with
         | heap_of (run_command ?c0 _) = _ =>
             destruct (construction_extends c0 h h' I E)
               as (vs & os & Hv & _)
         end;
         exists x; rewrite Hv; split; [apply lookup_app_l_Some, Hx | auto].
    apply backward_same_shape in E.
    apply (same_shape_value _ _ _ _ E Hx). }
  induction p as [|c p IH]; intros h h' k x E Hx.
  - injection E as <-. exists x. auto.
  - simpl in E. apply bind_heap_of in E as [([] & h1 & E1 & E2) | (e & E1)].
    + destruct (Hstep c h h1 k x) as (x1 & Hx1 & Ev & Er & Eo);
        [rewrite E1; reflexivity | exact Hx |].
      destruct (IH h1 h' k x1 E2 Hx1) as (x' & Hx' & Ev' & Er' & Eo').
      exists x'. split; trivial. repeat split; congruence.
    + apply (Hstep c h h' k x); [rewrite E1; reflexivity | exact Hx].
Qed.

(** After two calls of [out.backward()] on out = a + b, [a] is still the
    leaf of item 3.0 that requires gradients. *)
Lemma program_keeps_values_witness :
  values sum_graph !! 0%nat = Some (mkValue 3 true None None 0) /\
  exists h' x',
    heap_of (run [Backward 2; Backward 2] sum_graph) = Some h' /\
    values h' !! 0%nat = Some x' /\ _v x' = 3%float /\
    _requires_grad x' = true /\ _op x' = None.
Proof.
  split; [reflexivity|].
  assert (E : exists h',
            heap_of (run [Backward 2; Backward 2] sum_graph) = Some h').
  { eexists. vm_compute. reflexivity. }
  destruct E as (h' & E).
  destruct (program_keeps_values _ _ _ 0%nat
              (mkValue 3 true None None 0) E eq_refl)
    as (x' & Hx' & Hv & Hr & Ho).
  exists h', x'. auto.
Defined.

Lemma setup_counters_only (fuel n : nat) (h h' : Heap) :
  heap_of (Value_backprop_setup fuel n h) = Some h' ->
  operators h' = operators h /\
  length (values h') = length (values h) /\
  forall k x, values h !! k = Some x ->
    exists c, _backprop_count x <= c /\
      values h' !! k =
        Some (mkValue (_v x) (_requires_grad x) (grad x) (_op x) c).
Proof.
  revert n h h'.
  apply (setup_guarantee
    (fun h h' =>
       operators h' = operators h /\
       length (values h') = length (values h) /\
       forall k x, values h !! k = Some x ->
         exists c, _backprop_count x <= c /\
           values h' !! k =
             Some (mkValue (_v x) (_requires_grad x) (grad x) (_op x) c))).
  - intros h. split; trivial. split; trivial.
    intros k x Hx. exists (_backprop_count x). split; [lia|].
    rewrite Hx. destruct x; reflexivity.
  - intros h1 h2 h3 (A1 & A2 & A3) (B1 & B2 & B3).
    split; [congruence|]. split; [congruence|].
    intros k x Hx. destruct (A3 k x Hx) as (c1 & Hc1 & Hx1).
    destruct (B3 k _ Hx1) as (c2 & Hc2 & Hx2). simpl in *.
    exists c2. split; [lia | exact Hx2].
  - intros h n x Hx. split; trivial. simpl.
    split; [apply length_insert|].
    intros k y Hy. destruct (Nat.eq_dec k n) as [->|Hne].
    + assert (y = x) as -> by congruence.
      exists (_backprop_count x + 1). split; [lia|].
      apply list_lookup_insert_eq. eapply lookup_lt_Some; eauto.
    + exists (_backprop_count y). split; [lia|].
      rewrite list_lookup_insert_ne by congruence.
      rewrite Hy. destruct y; reflexivity.
  - intros h o. split; trivial. split; trivial.
    intros k x Hx. exists (_backprop_count x). split; [lia|]. simpl.
    rewrite Hx. destruct x; reflexivity.
Qed.

(** X6: The setup phase writes counters only: after [backprop_setup], also
    when it raises, every [Value] has the gradient, the item, the flag and
    the producer it had and a counter that is not smaller, no object was
    created and no operator was written. *)
Theorem setup_writes_counters_only (fuel n : nat) (h h' : Heap) :
  heap_of (Value_backprop_setup fuel n h) = Some h' ->
  operators h' = operators h /\
  length (values h') = length (values h) /\
  forall k, grad_of h' k = grad_of h k /\ item_of h' k = item_of h k /\
            requires h' k = requires h k /\ producer h' k = producer h k /\
            count_of h k <= count_of h' k.
Proof.
  intros E. destruct (setup_counters_only fuel n h h' E) as (Ho & Hlen & Hv).
  split; [exact Ho|]. split; [exact Hlen|]. intros k.
  unfold grad_of, item_of, requires, producer, count_of. rewrite Ho.
  destruct (values h !! k) as [x|] eqn:Hx.
  - destruct (Hv k x Hx) as (c & Hc & ->). simpl. repeat split; trivial.
  - apply lookup_ge_None in Hx. rewrite <- Hlen in Hx.
    apply lookup_ge_None in Hx. rewrite Hx. repeat split; lia.
Qed.

(** The setup phase of [out.backward()] in the diamond graph registers [a]
    twice and leaves its gradient absent. *)
Lemma setup_writes_counters_only_witness :
  exists h',
    heap_of (Value_backprop_setup 6 5 diamond_graph) = Some h' /\
    grad_of h' 0 = None /\ count_of h' 0 = 2.
Proof.
  assert (E : exists h',
            heap_of (Value_backprop_setup 6 5 diamond_graph) = Some h').
  { eexists. vm_compute. reflexivity. }
  destruct E as (h' & E). exists h'. split; [exact E|].
  destruct (setup_writes_counters_only 6 5 diamond_graph h' E)
    as (_ & _ & Hk).
  destruct (Hk 0%nat) as (Hg & _). split; [rewrite Hg; reflexivity|].
  vm_compute in E. injection E as <-. reflexivity.
Defined.

(** X7: [backprop_calc] never writes a [Value] that does not require gradients:
    a contribution handed to it is dropped, and its counter, which the setup
    phase incremented, is not decremented.  So after [backward()], also when
    it raises, such a [Value] has its gradient, item and producer of before
    and a counter that is not smaller. *)
Theorem non_differentiable_never_released (n : nat) (h h' : Heap) (k : nat)
    (x : Value) :
  heap_of (backward n h) = Some h' ->
  values h !! k = Some x -> _requires_grad x = false ->
  (forall fuel m g h1 h2,
     heap_of (Value_backprop_calc fuel m g h1) = Some h2 ->
     values h1 !! k = Some x -> values h2 !! k = Some x) /\
  exists c, _backprop_count x <= c /\
    values h' !! k = Some (mkValue (_v x) false (grad x) (_op x) c).
Proof.
  intros E Hx Hrg.
  assert (Hc : forall fuel m g h1 h2,
            heap_of (Value_backprop_calc fuel m g h1) = Some h2 ->
            forall j y, values h1 !! j = Some y ->
              _requires_grad y = false -> values h2 !! j = Some y).
  { intros fuel m g. apply (calc_guarantee
      (fun h1 h2 => forall j y, values h1 !! j = Some y ->
         _requires_grad y = false -> values h2 !! j = Some y)); auto.
    intros h1 i z g0 Hz Hzr j y Hy Hyr. simpl.
    rewrite list_lookup_insert_ne; trivial. intros ->. congruence. }
  split.
  - intros fuel m g h1 h2 E1 H1. apply (Hc fuel m g h1 h2 E1 k x H1 Hrg).
  - rewrite backward_unfold in E.
    apply bind_heap_of in E as [(a & h1 & E1 & E2) | (e & E1)].
    + destruct (setup_counters_only (length (values h)) n h h1)
        as (_ & _ & Hs);
        [rewrite E1; reflexivity|].
      destruct (Hs k x Hx) as (c & Hle & Hx1). rewrite Hrg in Hx1.
      exists c. split; trivial.
      apply (Hc _ _ _ _ _ E2 k _ Hx1). reflexivity.
    + destruct (setup_counters_only (length (values h)) n h h')
        as (_ & _ & Hs);
        [rewrite E1; reflexivity|].
      destruct (Hs k x Hx) as (c & Hle & Hx1). rewrite Hrg in Hx1. eauto.
Qed.

Lemma non_differentiable_never_released_witness :
  exists h',
    heap_of (backward 5 diamond_graph) = Some h' /\
    values h' !! 1%nat = Some (mkValue 3 false None None 1).
Proof.
  assert (E : exists h', heap_of (backward 5 diamond_graph) = Some h').
  { eexists. vm_compute. reflexivity. }
  destruct E as (h' & E). exists h'. split; [exact E|].
  destruct (non_differentiable_never_released 5 diamond_graph h' 1
              (mkValue 3 false None None 0) E eq_refl eq_refl)
    as (_ & c & _ & Hx').
  vm_compute in E. injection E as <-.
  vm_compute in Hx'. injection Hx' as <-. reflexivity.
Defined.

Lemma calc_frame fuel n g h h' :
  well_formed h -> Value_backprop_calc fuel n g h = Returned tt h' ->
  forall k, ~ reach h n k -> values h' !! k = values h !! k.
Proof.
  revert n g h h'.
  apply (calc_returned_ind
    (fun n g h h' => forall k, ~ reach h n k ->
       values h' !! k = values h !! k)
    (fun l h h' => forall k, (forall i, i ∈ l.*1 -> ~ reach h i k) ->
       values h' !! k = values h !! k)).
  - trivial.
  - intros n g h x W Hx _ _ _ k Hk. simpl.
    apply list_lookup_insert_ne. intros ->. apply Hk. constructor.
  - intros n g h x o op h' W Hx Hrg Hc Ho Hop S HQ k Hk.
    destruct (wf_producer _ W n x o Hx Ho) as (op' & Hop' & Hcon & _).
    assert (op' = op) as -> by congruence.
    pose proof (same_shape_accumulated h n x g Hx) as S1.
    assert (S2 : same_shape h
              (entered_calc o op (new_grad x g) (accumulated n x g h))).
    { eapply same_shape_trans; [exact S1|].
      apply same_shape_entered_calc. exact Hop. }
    rewrite HQ.
    + simpl. apply list_lookup_insert_ne. intros ->. apply Hk. constructor.
    + rewrite contributions_operands by exact Hcon.
      intros i Hi Hr. apply Hk. apply reach_trans with i.
      * apply reach_operand with n op; [constructor | | exact Hi].
        unfold producer. rewrite Hx, Ho. exact Hop.
      * apply (reach_same_shape _ h) in Hr; trivial.
        apply same_shape_sym. exact S2.
  - trivial.
  - intros i g l h h1 h2 W S1 S2 HP HQ k Hk.
    rewrite fmap_cons in Hk. cbn [fst] in Hk.
    rewrite HQ, HP; trivial.
    + apply Hk, elem_of_cons. auto.
    + intros j Hj Hr. apply (Hk j); [apply elem_of_cons; auto|].
      apply (reach_same_shape h1); trivial. apply same_shape_sym, S1.
Qed.

(** X8: [backward()] writes only the [Value]s from which its receiver is
    computed: every other [Value] of the store, for instance one of another
    expression, keeps its gradient and its counter. *)
Theorem backward_writes_below_root (h : Heap) (root : nat) :
  good h -> (root < length (values h))%nat ->
  exists h', backward root h = Returned tt h' /\
    forall k, ~ reach h root k -> values h' !! k = values h !! k.
Proof.
  intros G Hn.
  destruct (backward_spec root h G Hn) as (h1 & h' & E1 & E2 & E & _).
  destruct G as (W & _).
  assert (S1 : same_shape h h1)
    by (eapply setup_same_shape; rewrite E1; reflexivity).
  exists h'. split; trivial. intros k Hk.
  rewrite (calc_frame _ _ _ _ _ (same_shape_well_formed _ _ S1 W) E2).
  - apply (setup_frame _ _ _ _ W E1 k Hk).
  - intros Hr. apply Hk. apply (reach_same_shape h1); trivial.
    apply same_shape_sym, S1.
Qed.

Lemma reach_le h a b : well_formed h -> reach h a b -> (b <= a)%nat.
Proof.
  intros W. induction 1 as [|m op i _ IH Hp Hi]; [lia|].
  unfold producer in Hp.
  destruct (values h !! m) as [x|] eqn:Hx; [|discriminate].
  destruct (_op x) as [o|] eqn:Ho; [|discriminate].
  destruct (wf_producer _ W m x o Hx Ho) as (op' & Hop' & _ & Hlt).
  assert (op' = op) as -> by congruence.
  rewrite Forall_forall in Hlt. specialize (Hlt i Hi). lia.
Qed.

(** In the diamond graph, [b.backward()] on b = a + 3 leaves c = a * 4
    (object 4) as it is. *)
Lemma backward_writes_below_root_witness :
  good diamond_graph /\ (2 < length (values diamond_graph))%nat /\
  exists h', backward 2 diamond_graph = Returned tt h' /\
             values h' !! 4%nat = values diamond_graph !! 4%nat.
Proof.
  split; [exact diamond_graph_good|]. split; [simpl; lia|].
  destruct (backward_writes_below_root diamond_graph 2 diamond_graph_good)
    as (h' & E & Hf); [simpl; lia|].
  exists h'. split; [exact E|]. apply Hf. intros Hr.
  apply (reach_le diamond_graph 2 4) in Hr; [lia|].
  apply diamond_graph_good.
Defined.

(** ** [requires_grad] along the graph *)

Lemma existsb_ext {A} (f g : A -> bool) l :
  (forall a, a ∈ l -> f a = g a) -> existsb f l = existsb g l.
Proof.
  induction l as [|a l IH]; intros H; trivial. simpl.
  rewrite (H a), IH; trivial.
  - intros b Hb. apply H, elem_of_cons. auto.
  - apply elem_of_cons. auto.
Qed.

Lemma requires_consistent_with_operator h op :
  well_formed h -> requires_consistent h ->
  requires_consistent (with_operator op h).
Proof.
  intros W C n x o op0 Hx Ho Hop.
  destruct (wf_producer _ W n x o Hx Ho) as (op1 & Hop1 & _).
  simpl in Hop. rewrite (lookup_app_l_Some _ _ _ _ Hop1) in Hop.
  injection Hop as <-. apply (C n x o op1 Hx Ho Hop1).
Qed.

Lemma requires_consistent_with_value h x :
  well_formed h -> requires_consistent h ->
  (forall o op, _op x = Some o -> operators h !! o = Some op ->
     Forall (fun i => (i < length (values h))%nat) (operands op) /\
     _requires_grad x = existsb (requires h) (operands op)) ->
  requires_consistent (with_value x h).
Proof.
  intros W C Hnew n y o op Hy Ho Hop. simpl in Hop.
  assert (Hext : forall l, Forall (fun i => (i < length (values h))%nat) l ->
            existsb (requires (with_value x h)) l = existsb (requires h) l).
  { intros l Hl. apply existsb_ext. intros i Hi.
    rewrite Forall_forall in Hl. apply requires_with_value, Hl, Hi. }
  apply lookup_with_value in Hy as [Hy | [_ ->]].
  - destruct (wf_producer _ W n y o Hy Ho) as (op' & Hop' & _ & Hlt).
    assert (op' = op) as -> by congruence.
    rewrite Hext; [apply (C n y o op Hy Ho Hop)|].
    eapply Forall_impl; [exact Hlt|]. simpl. intros i Hi.
    apply lookup_lt_Some in Hy. lia.
  - destruct (Hnew o op Ho Hop) as [Hlt E]. rewrite Hext; trivial.
Qed.

Lemma requires_consistent_arith f op a b h n h' :
  good h -> requires_consistent h -> operands op = [a; b] ->
  arith_forward f (length (operators h)) a b (with_operator op h)
    = Returned n h' ->
  requires_consistent h'.
Proof.
  intros (W & St & N) C Hops. rewrite arith_forward_cases. simpl.
  destruct (values h !! a) as [x1|] eqn:Ha; [|discriminate].
  destruct (values h !! b) as [x2|] eqn:Hb; [|discriminate].
  intros E. injection E as _ <-.
  apply (requires_consistent_with_value (with_operator op h)).
  - apply (good_with_operator h op). split; auto.
  - apply requires_consistent_with_operator; trivial.
  - simpl. intros o op0 Ho Hop0.
    destruct (_requires_grad x1 || _requires_grad x2) eqn:Hrg;
      [|discriminate].
    injection Ho as <-.
    rewrite list_lookup_middle in Hop0 by reflexivity.
    injection Hop0 as <-. rewrite Hops. split.
    + repeat constructor; eapply lookup_lt_Some; eauto.
    + simpl. unfold requires. simpl. rewrite Ha, Hb, Bool.orb_false_r.
      symmetry. exact Hrg.
Qed.

Lemma run_command_requires_consistent c h h' :
  good h -> requires_consistent h ->
  run_command c h = Returned tt h' -> requires_consistent h'.
Proof.
  intros G C. pose proof G as (W & _).
  assert (Hleaf : forall v,
            good (with_value (mkValue v false None None 0) h) /\
            requires_consistent (with_value (mkValue v false None None 0) h)).
  { intros v. split; [apply good_leaf, G|].
    apply requires_consistent_with_value; trivial. discriminate. }
  destruct c as [v rg | a b | a b | a b | a | n]; simpl.
  - intros E. injection E as <-.
    apply requires_consistent_with_value; trivial. discriminate.
  - intros E. apply bind_ret_returned in E as (n & E).
    rewrite Value_add_cases in E. destruct b as [f | b |]; [| |discriminate].
    + destruct (Hleaf f) as [G1 C1].
      apply (requires_consistent_arith _ (AddOp a (length (values h))) a
               (length (values h)) _ _ _ G1 C1 eq_refl E).
    + apply (requires_consistent_arith _ (AddOp a b) a b _ _ _ G C eq_refl E).
  - intros E. apply bind_ret_returned in E as (n & E).
    rewrite Value_sub_cases in E. destruct b as [f | b |]; [| |discriminate].
    + destruct (Hleaf f) as [G1 C1].
      apply (requires_consistent_arith _ (SubOp a (length (values h))) a
               (length (values h)) _ _ _ G1 C1 eq_refl E).
    + apply (requires_consistent_arith _ (SubOp a b) a b _ _ _ G C eq_refl E).
  - intros E. apply bind_ret_returned in E as (n & E).
    rewrite Value_mul_cases in E. destruct b as [f | b |]; [| |discriminate].
    + destruct (Hleaf f) as [G1 C1].
      apply (requires_consistent_arith _ (MulOp a (length (values h))) a
               (length (values h)) _ _ _ G1 C1 eq_refl E).
    + apply (requires_consistent_arith _ (MulOp a b) a b _ _ _ G C eq_refl E).
  - change (run_command (PassThrough a) h = Returned tt h' ->
            requires_consistent h').
    rewrite pass_through_cases.
    destruct (values h !! a) as [x1|] eqn:Ha; [|discriminate].
    intros E. injection E as <-.
    apply (requires_consistent_with_value (with_operator _ h)).
    + apply (good_with_operator h _ G).
    + apply requires_consistent_with_operator; trivial.
    + simpl. intros o op Ho Hop. injection Ho as <-.
      rewrite list_lookup_middle in Hop by reflexivity.
      injection Hop as <-. simpl. split.
      * repeat constructor. eapply lookup_lt_Some; eauto.
      * unfold requires. simpl. rewrite Ha, Bool.orb_false_r. reflexivity.
  - intros E.
    assert (S : same_shape h h')
      by (apply (backward_same_shape n); rewrite E; reflexivity).
    intros m x' o op' Hx' Ho' Hop'.
    destruct (same_shape_value _ _ _ _ (same_shape_sym _ _ S) Hx')
      as (x & Hx & _ & Hr & Hox).
    destruct (same_shape_operator _ _ _ _ (same_shape_sym _ _ S) Hop')
      as (op & Hop & Hops & _).
    rewrite <- Hr, (C m x o op Hx) by congruence.
    rewrite Hops. apply existsb_ext. intros i _.
    symmetry. apply same_shape_requires, S.
Qed.

(** X9: In every store that a program over the public interface builds, a
    [Value] that has a producer requires gradients exactly when one of the
    operands of the producer does, and a [Value] that does not require
    gradients has no differentiable operand. *)
Theorem requires_grad_follows_operands (p : list Command) (h : Heap) :
  run p empty_heap = Returned tt h ->
  requires_consistent h /\
  forall n x op i, values h !! n = Some x -> producer h n = Some op ->
    _requires_grad x = false -> i ∈ operands op -> requires h i = false.
Proof.
  intros E.
  assert (H : forall p h0 h1, good h0 -> requires_consistent h0 ->
            run p h0 = Returned tt h1 ->
            good h1 /\ requires_consistent h1).
  { clear. induction p as [|c p IH]; intros h0 h1 G C E.
    - injection E as <-. auto.
    - simpl in E. unfold bind in E.
      destruct (run_command c h0) as [[] h2 | | |] eqn:E1; try discriminate.
      apply (IH h2); trivial.
      + eapply run_command_good; eauto.
      + eapply run_command_requires_consistent; eauto. }
  destruct (H p empty_heap h good_empty) as [(W & _) C]; trivial.
  { intros n x o op Hx. discriminate. }
  split; trivial.
  intros n x op i Hx Hp Hrg Hi. unfold producer in Hp. rewrite Hx in Hp.
  destruct (_op x) as [o|] eqn:Ho; [|discriminate].
  destruct (requires h i) eqn:Hr; trivial.
  rewrite <- Hrg. symmetry.
  apply (wf_requires _ W n x o op i); trivial.
Qed.

Lemma requires_grad_follows_operands_witness :
  run diamond_program empty_heap = Returned tt diamond_graph /\
  requires_consistent diamond_graph.
Proof.
  split; [reflexivity|].
  apply (requires_grad_follows_operands diamond_program diamond_graph).
  reflexivity.
Defined.

(** ** Every registered contribution is delivered *)

Lemma value_calcs_app k l1 l2 :
  value_calcs k (l1 ++ l2) = value_calcs k l1 ++ value_calcs k l2.
Proof. apply omap_app. Qed.

Lemma received_app k l1 l2 :
  received k (l1 ++ l2) = (received k l1 + received k l2)%nat.
Proof. unfold received, value_calcs. rewrite omap_app. apply length_app. Qed.

Lemma calcs_of_app o l1 l2 :
  calcs_of o (l1 ++ l2) = (calcs_of o l1 + calcs_of o l2)%nat.
Proof. unfold calcs_of, operator_calcs. rewrite omap_app. apply length_app. Qed.

Lemma setup_calls_no_calc fuel n h h' :
  heap_of (Value_backprop_setup fuel n h) = Some h' ->
  (forall k, received k (log h') = received k (log h)) /\
  (forall o, calcs_of o (log h') = calcs_of o (log h)).
Proof.
  revert n h h'.
  apply (setup_guarantee
    (fun h h' => (forall k, received k (log h') = received k (log h)) /\
                 (forall o, calcs_of o (log h') = calcs_of o (log h)))).
  - auto.
  - intros h1 h2 h3 [A1 A2] [B1 B2]. split; intros; congruence.
  - intros h n x _. cbn [log registered]. split; intros.
    + unfold received. rewrite value_calcs_app, length_app. simpl. lia.
    + unfold calcs_of, operator_calcs. rewrite omap_app, length_app.
      simpl. lia.
  - intros h o. cbn [log entered_setup]. split; intros.
    + unfold received. rewrite value_calcs_app, length_app. simpl. lia.
    + unfold calcs_of, operator_calcs. rewrite omap_app, length_app.
      simpl. lia.
Qed.

Lemma calc_keeps_non_differentiable fuel n g h h' :
  heap_of (Value_backprop_calc fuel n g h) = Some h' ->
  forall k x, values h !! k = Some x -> _requires_grad x = false ->
    values h' !! k = Some x.
Proof.
  revert n g h h'.
  apply (calc_guarantee
    (fun h1 h2 => forall j y, values h1 !! j = Some y ->
       _requires_grad y = false -> values h2 !! j = Some y)); auto.
  intros h1 i z g0 Hz Hzr j y Hy Hyr. simpl.
  rewrite list_lookup_insert_ne; trivial. intros ->. congruence.
Qed.

Lemma registrations_app k l1 l2 :
  registrations k (l1 ++ l2) = (registrations k l1 + registrations k l2)%nat.
Proof. unfold registrations. rewrite omap_app. apply length_app. Qed.

Lemma received_cons k e l :
  received k (e :: l) =
    ((if is_value_calc k e then 1 else 0) + received k l)%nat.
Proof.
  unfold received. destruct e; simpl; try reflexivity.
  destruct (Nat.eqb k n); reflexivity.
Qed.

Lemma calcs_of_cons o e l :
  calcs_of o (e :: l) =
    ((if is_operator_calc o e then 1 else 0) + calcs_of o l)%nat.
Proof.
  unfold calcs_of. destruct e; simpl; try reflexivity.
  destruct (Nat.eqb o o0); reflexivity.
Qed.

Lemma registrations_cons k e l :
  registrations k (e :: l) =
    (match e with
     | ValueSetup n _ => if Nat.eqb k n then 1 else 0
     | _ => 0
     end + registrations k l)%nat.
Proof.
  unfold registrations. destruct e; simpl; try reflexivity.
  destruct (Nat.eqb k n); reflexivity.
Qed.

(** Counting the calls in a log that ends with given events. *)
Ltac count_events :=
  rewrite ?received_app, ?calcs_of_app, ?registrations_app,
    ?received_cons, ?calcs_of_cons, ?registrations_cons;
  change (received ?k []) with 0%nat;
  change (calcs_of ?o []) with 0%nat;
  change (registrations ?k []) with 0%nat;
  cbn [is_value_calc is_operator_calc]; cbn beta iota.

(** The counter of a [Value] that requires gradients goes down by one for
    each call of [backprop_calc] on it. *)
Lemma calc_received fuel n g h h' :
  well_formed h -> Value_backprop_calc fuel n g h = Returned tt h' ->
  forall k, requires h k = true ->
    count_of h' k + Z.of_nat (received k (log h')) =
    count_of h k + Z.of_nat (received k (log h)).
Proof.
  revert n g h h'.
  apply (calc_returned_ind
    (fun _ _ h h' => forall k, requires h k = true ->
       count_of h' k + Z.of_nat (received k (log h')) =
       count_of h k + Z.of_nat (received k (log h)))
    (fun _ h h' => forall k, requires h k = true ->
       count_of h' k + Z.of_nat (received k (log h')) =
       count_of h k + Z.of_nat (received k (log h)))).
  - intros n g h x W Hx Hrg k Hk.
    change (count_of (discarded n g h) k) with (count_of h k).
    cbn [log discarded]. count_events.
    destruct (Nat.eqb_spec k n) as [->|]; [|lia].
    unfold requires in Hk. rewrite Hx in Hk. congruence.
  - intros n g h x W Hx Hrg Hc _ k _. unfold accumulated.
    rewrite (count_of_insert _ _ _ _ _ _ Hx). cbn [log _backprop_count].
    count_events. rewrite (Nat.eqb_sym k n).
    destruct (Nat.eqb_spec n k) as [->|]; [|lia].
    unfold count_of. rewrite Hx. lia.
  - intros n g h x o op h' W Hx Hrg Hc Ho Hop S HQ k Hk.
    rewrite HQ.
    2:{ erewrite same_shape_requires; [exact Hk|].
        eapply same_shape_trans; [apply (same_shape_accumulated h n x g Hx)|].
        apply same_shape_entered_calc. exact Hop. }
    change (count_of (entered_calc o op (new_grad x g)
                        (accumulated n x g h)) k)
      with (count_of (accumulated n x g h) k).
    unfold accumulated at 1.
    rewrite (count_of_insert _ _ _ _ _ _ Hx).
    cbn [log entered_calc accumulated _backprop_count].
    count_events. rewrite (Nat.eqb_sym k n).
    destruct (Nat.eqb_spec n k) as [->|]; [|lia].
    unfold count_of. rewrite Hx. lia.
  - trivial.
  - intros i g l h h1 h2 W S1 S2 HP HQ k Hk. rewrite HQ, HP; trivial.
    rewrite (same_shape_requires _ _ _ S1). exact Hk.
Qed.

(** The counter of a [Value] goes up by one for each call of
    [backprop_setup] on it. *)
Lemma setup_registrations fuel n h h' :
  heap_of (Value_backprop_setup fuel n h) = Some h' ->
  forall k, count_of h' k - Z.of_nat (registrations k (log h')) =
            count_of h k - Z.of_nat (registrations k (log h)).
Proof.
  revert n h h'.
  apply (setup_guarantee
    (fun h h' => forall k,
       count_of h' k - Z.of_nat (registrations k (log h')) =
       count_of h k - Z.of_nat (registrations k (log h)))).
  - trivial.
  - intros h1 h2 h3 A B k. rewrite B. apply A.
  - intros h n x Hx k. rewrite (count_of_registered _ _ _ _ Hx).
    cbn [log registered]. count_events. rewrite (Nat.eqb_sym k n).
    destruct (Nat.eqb n k); lia.
  - intros h o k. cbn [log entered_setup].
    change (count_of (entered_setup o h) k) with (count_of h k).
    count_events. lia.
Qed.

Lemma calc_registers_nothing fuel n g h h' :
  heap_of (Value_backprop_calc fuel n g h) = Some h' ->
  forall k, registrations k (log h') = registrations k (log h).
Proof.
  revert n g h h'.
  apply (calc_guarantee
    (fun h h' => forall k,
       registrations k (log h') = registrations k (log h))).
  - trivial.
  - intros h1 h2 h3 A B k. rewrite B. apply A.
  - intros. cbn [log accumulated]. count_events. lia.
  - intros. cbn [log discarded]. count_events. lia.
  - intros. cbn [log entered_calc]. count_events. lia.
Qed.

(** X10: In a pass over a graph built through the public interface
    [backprop_calc] is called on each [Value] that requires gradients as many
    times as [backprop_setup] was called on it: every contribution that the
    setup phase announced is delivered, and none besides. *)
Theorem calls_match_registrations (h : Heap) (root : nat) :
  good h -> (root < length (values h))%nat ->
  exists h' l, backward root h = Returned tt h' /\ log h' = log h ++ l /\
    forall k, requires h k = true -> received k l = registrations k l.
Proof.
  intros G Hn.
  destruct (backward_spec root h G Hn)
    as (h1 & h' & E1 & E2 & E & G' & S & l & Hl & _).
  destruct G as (W & St & N). destruct G' as (W' & St' & N').
  assert (S1 : same_shape h h1)
    by (eapply setup_same_shape; rewrite E1; reflexivity).
  pose proof (same_shape_well_formed _ _ S1 W) as W1.
  exists h', l. split; [exact E|]. split; [exact Hl|]. intros k Hk.
  pose proof (settled_zero h W St k Hk) as Z0.
  assert (Hk' : requires h' k = true)
    by (rewrite (same_shape_requires _ _ _ S); exact Hk).
  pose proof (settled_zero h' W' St' k Hk') as Z'.
  assert (Hk1 : requires h1 k = true)
    by (rewrite (same_shape_requires _ _ _ S1); exact Hk).
  pose proof (calc_received _ _ _ _ _ W1 E2 k Hk1) as C.
  assert (H1 : heap_of (Value_backprop_setup (length (values h)) root h)
               = Some h1) by (rewrite E1; reflexivity).
  assert (H2 : heap_of (Value_backprop_calc (length (values h)) root 1%float
                          h1) = Some h') by (rewrite E2; reflexivity).
  pose proof (setup_registrations _ _ _ _ H1 k) as R1.
  destruct (setup_calls_no_calc _ _ _ _ H1) as (C1 & _). specialize (C1 k).
  pose proof (calc_registers_nothing _ _ _ _ _ H2 k) as R2.
  rewrite Hl, received_app in C. rewrite Hl, registrations_app in R2.
  lia.
Qed.

(** In the diamond graph [a] is registered twice and receives two
    contributions. *)
Lemma calls_match_registrations_witness :
  good diamond_graph /\ (5 < length (values diamond_graph))%nat /\
  exists h' l, backward 5 diamond_graph = Returned tt h' /\
    log h' = log diamond_graph ++ l /\
    received 0 l = 2%nat /\ registrations 0 l = 2%nat.
Proof.
  split; [exact diamond_graph_good|]. split; [simpl; lia|].
  destruct (calls_match_registrations diamond_graph 5 diamond_graph_good)
    as (h' & l & E & Hl & Hr); [simpl; lia|].
  exists h', l. split; [exact E|]. split; [exact Hl|].
  assert (Hv : registrations 0 l = 2%nat).
  { vm_compute in E. injection E as <-. vm_compute in Hl. subst l.
    reflexivity. }
  split; [rewrite (Hr 0%nat eq_refl)|]; exact Hv.
Defined.

(** ** The gradient is the sum of the contributions *)

Lemma accumulate_app g0 l1 l2 :
  accumulate g0 (l1 ++ l2) = accumulate (accumulate g0 l1) l2.
Proof. apply foldl_app. Qed.

Lemma accumulate_some a l : exists g, accumulate (Some a) l = Some g.
Proof. revert a. induction l as [|g0 l IH]; intros a; simpl; eauto. Qed.

Lemma grad_of_accumulated h n x g k :
  values h !! n = Some x ->
  grad_of (accumulated n x g h) k =
    if Nat.eqb k n then Some (new_grad x g) else grad_of h k.
Proof.
  intros Hx. unfold grad_of, accumulated. simpl.
  destruct (Nat.eqb_spec k n) as [->|Hne].
  - rewrite list_lookup_insert_eq by (eapply lookup_lt_Some; eauto).
    reflexivity.
  - rewrite list_lookup_insert_ne by congruence. reflexivity.
Qed.

Lemma accumulated_step h n x g k c :
  values h !! n = Some x ->
  grad_of (accumulated n x g h) k =
    accumulate (grad_of h k) (value_calcs k [ValueCalc n g; CountDown n c]).
Proof.
  intros Hx. rewrite (grad_of_accumulated _ _ _ _ _ Hx). cbn.
  destruct (Nat.eqb k n) eqn:E; [|reflexivity].
  apply Nat.eqb_eq in E as ->. cbn. unfold new_grad, grad_of.
  rewrite Hx. reflexivity.
Qed.

(** [backprop_calc] adds to the gradient of each [Value] that requires
    gradients the contributions it is called with, in the order of the
    calls. *)
Lemma calc_accumulates fuel n g h h' :
  well_formed h -> Value_backprop_calc fuel n g h = Returned tt h' ->
  exists l, log h' = log h ++ l /\
    forall k, requires h k = true ->
      grad_of h' k = accumulate (grad_of h k) (value_calcs k l).
Proof.
  revert n g h h'.
  apply (calc_returned_ind
    (fun _ _ h h' => exists l, log h' = log h ++ l /\
       forall k, requires h k = true ->
         grad_of h' k = accumulate (grad_of h k) (value_calcs k l))
    (fun _ h h' => exists l, log h' = log h ++ l /\
       forall k, requires h k = true ->
         grad_of h' k = accumulate (grad_of h k) (value_calcs k l))).
  - intros n g h x W Hx Hrg. exists [ValueCalc n g].
    split; [reflexivity|]. intros k Hk. cbn.
    destruct (Nat.eqb_spec k n) as [->|]; [|reflexivity].
    unfold requires in Hk. rewrite Hx in Hk. congruence.
  - intros n g h x W Hx Hrg Hc _.
    exists [ValueCalc n g; CountDown n (_backprop_count x - 1)].
    split; [reflexivity|]. intros k _. apply accumulated_step. exact Hx.
  - intros n g h x o op h' W Hx Hrg Hc Ho Hop S (l & Hl & HQ).
    exists ([ValueCalc n g; CountDown n (_backprop_count x - 1)] ++
            [OperatorCalc o (new_grad x g)] ++ l).
    split.
    { rewrite Hl. cbn [log entered_calc accumulated].
      rewrite <- !app_assoc. reflexivity. }
    intros k Hk. rewrite HQ.
    2:{ erewrite same_shape_requires; [exact Hk|].
        eapply same_shape_trans; [apply (same_shape_accumulated h n x g Hx)|].
        apply same_shape_entered_calc. exact Hop. }
    change (grad_of (entered_calc o op (new_grad x g)
                       (accumulated n x g h)) k)
      with (grad_of (accumulated n x g h) k).
    rewrite (accumulated_step _ _ _ _ _ (_backprop_count x - 1) Hx).
    rewrite !value_calcs_app, !accumulate_app. reflexivity.
  - intros h W. exists []. split; [rewrite app_nil_r; reflexivity|].
    reflexivity.
  - intros i g l h h1 h2 W S1 S2 (l1 & H1 & HP) (l2 & H2 & HQ).
    exists (l1 ++ l2). split; [rewrite H2, H1, app_assoc; reflexivity|].
    intros k Hk. rewrite HQ, HP, value_calcs_app, accumulate_app; trivial.
    rewrite (same_shape_requires _ _ _ S1). exact Hk.
Qed.

Lemma setup_log fuel n h h' :
  heap_of (Value_backprop_setup fuel n h) = Some h' ->
  exists l, log h' = log h ++ l /\ forall k, value_calcs k l = [].
Proof.
  revert n h h'.
  apply (setup_guarantee
    (fun h h' => exists l, log h' = log h ++ l /\
                           forall k, value_calcs k l = [])).
  - intros h. exists []. split; [rewrite app_nil_r|]; reflexivity.
  - intros h1 h2 h3 (l1 & H1 & A) (l2 & H2 & B). exists (l1 ++ l2).
    split; [rewrite H2, H1, app_assoc; reflexivity|].
    intros k. rewrite value_calcs_app, A, B. reflexivity.
  - intros h n x _. eexists. split; reflexivity.
  - intros h o. eexists. split; reflexivity.
Qed.

(** X11: After [backward()] on a graph built through the public interface, the
    gradient of each [Value] that requires gradients is what it was before
    plus the contributions passed to its [backprop_calc] during the pass,
    added one by one in the order of the calls and starting from 0.0 when no
    gradient was there; the gradient of any other [Value] is unchanged. *)
Theorem gradient_is_sum_of_contributions (h : Heap) (root : nat) :
  good h -> (root < length (values h))%nat ->
  exists h' l, backward root h = Returned tt h' /\ log h' = log h ++ l /\
    (forall k, requires h k = true ->
       grad_of h' k = accumulate (grad_of h k) (value_calcs k l)) /\
    (forall k, requires h k = false -> grad_of h' k = grad_of h k).
Proof.
  intros G Hn.
  destruct (backward_spec root h G Hn)
    as (h1 & h' & E1 & E2 & E & _ & _ & _).
  destruct G as (W & _).
  assert (H1 : heap_of (Value_backprop_setup (length (values h)) root h)
               = Some h1) by (rewrite E1; reflexivity).
  assert (H2 : heap_of (Value_backprop_calc (length (values h)) root 1%float
                          h1) = Some h') by (rewrite E2; reflexivity).
  pose proof (setup_same_shape _ _ _ _ H1) as S1.
  pose proof (same_shape_well_formed _ _ S1 W) as W1.
  destruct (setup_log _ _ _ _ H1) as (l1 & L1 & C1).
  destruct (setup_keeps_grads _ _ _ _ H1) as (Gr & _).
  destruct (calc_accumulates _ _ _ _ _ W1 E2) as (l2 & L2 & A).
  exists h', (l1 ++ l2). split; [exact E|].
  split; [rewrite L2, L1, app_assoc; reflexivity|]. split.
  - intros k Hk.
    rewrite A by (rewrite (same_shape_requires _ _ _ S1); exact Hk).
    rewrite value_calcs_app, C1, (grad_of_fmap _ _ _ Gr). reflexivity.
  - intros k Hk. rewrite <- (grad_of_fmap _ _ k Gr).
    unfold requires in Hk. unfold grad_of.
    destruct (values h !! k) as [x|] eqn:Hx.
    + destruct (same_shape_value _ _ _ _ S1 Hx) as (x1 & Hx1 & _ & Erg & _).
      rewrite (calc_keeps_non_differentiable _ _ _ _ _ H2 k x1 Hx1), Hx1;
        [reflexivity | congruence].
    + assert (V1 : values h1 !! k = None).
      { destruct (values h1 !! k) as [x1|] eqn:Hx1; trivial.
        destruct (same_shape_value _ _ _ _ (same_shape_sym _ _ S1) Hx1)
          as (y & Hy & _). congruence. }
      assert (V' : values h' !! k = None).
      { destruct (values h' !! k) as [x'|] eqn:Hx'; trivial.
        assert (S2 : same_shape h1 h')
          by (eapply calc_same_shape; exact H2).
        destruct (same_shape_value _ _ _ _ (same_shape_sym _ _ S2) Hx')
          as (y & Hy & _). congruence. }
      rewrite V1, V'. reflexivity.
Qed.

(** In the diamond graph [a] receives 8.0 and then 20.0, and its gradient is
    (0.0 + 8.0) + 20.0. *)
Lemma gradient_is_sum_of_contributions_witness :
  good diamond_graph /\ (5 < length (values diamond_graph))%nat /\
  exists h' l, backward 5 diamond_graph = Returned tt h' /\
    log h' = log diamond_graph ++ l /\
    value_calcs 0 l = [8; 20]%float /\ grad_of h' 0 = Some 28%float.
Proof.
  split; [exact diamond_graph_good|]. split; [simpl; lia|].
  destruct (gradient_is_sum_of_contributions diamond_graph 5
              diamond_graph_good) as (h' & l & E & Hl & Hr & _); [simpl; lia|].
  exists h', l. split; [exact E|]. split; [exact Hl|].
  assert (Hv : value_calcs 0 l = [8; 20]%float).
  { vm_compute in E. injection E as <-. vm_compute in Hl. subst l.
    reflexivity. }
  split; [exact Hv|]. rewrite (Hr 0%nat eq_refl), Hv. reflexivity.
Defined.

(** ** Every differentiable [Value] under the root is reached *)

(** The setup phase registers every [Value] that requires gradients and from
    which the root is computed. *)
Lemma setup_reaches fuel root h h1 :
  good h -> Value_backprop_setup fuel root h = Returned tt h1 ->
  forall k, reach h root k -> requires h k = true -> 1 <= count_of h1 k.
Proof.
  intros (W & St & N) E.
  destruct (setup_closure _ _ _ _ W E N) as (Hm & Hroot & Hcl).
  assert (S : same_shape h h1)
    by (eapply setup_same_shape; rewrite E; reflexivity).
  induction 1 as [|m op i Hr IH Hp Hi]; intros Hk; trivial.
  assert (Hm' : requires h m = true).
  { unfold producer in Hp.
    destruct (values h !! m) as [x|] eqn:Hx; [|discriminate].
    destruct (_op x) as [o|] eqn:Ho; [|discriminate].
    unfold requires. rewrite Hx.
    apply (wf_requires _ W m x o op i Hx Ho Hp Hi Hk). }
  specialize (IH Hm').
  destruct (producer_same_shape _ _ _ _ S Hp) as (op' & Hp' & Eops).
  refine (Hcl m IH _ op' i Hp' _).
  - intros H0. rewrite (settled_zero h W St m Hm') in H0. lia.
  - rewrite Eops. exact Hi.
Qed.

(** X12: After [backward()] on a graph built through the public interface every
    [Value] that requires gradients and from which the receiver is computed
    has a gradient: none of them is left at [None]. *)
Theorem differentiable_reached_gets_gradient (h : Heap) (root : nat) :
  good h -> (root < length (values h))%nat ->
  exists h', backward root h = Returned tt h' /\
    forall k, reach h root k -> requires h k = true ->
      exists g, grad_of h' k = Some g.
Proof.
  intros G Hn.
  destruct (backward_spec root h G Hn)
    as (h1 & h' & E1 & E2 & E & G' & S & _).
  pose proof (setup_reaches _ _ _ _ G E1) as Hreg.
  destruct G as (W & St & N). destruct G' as (W' & St' & N').
  assert (S1 : same_shape h h1)
    by (eapply setup_same_shape; rewrite E1; reflexivity).
  pose proof (same_shape_well_formed _ _ S1 W) as W1.
  destruct (calc_accumulates _ _ _ _ _ W1 E2) as (l & Hl & A).
  exists h'. split; [exact E|]. intros k Hr Hk.
  assert (Hk1 : requires h1 k = true)
    by (rewrite (same_shape_requires _ _ _ S1); exact Hk).
  assert (Hk' : requires h' k = true)
    by (rewrite (same_shape_requires _ _ _ S); exact Hk).
  pose proof (calc_received _ _ _ _ _ W1 E2 k Hk1) as C.
  rewrite Hl, received_app, (settled_zero h' W' St' k Hk') in C.
  specialize (Hreg k Hr Hk). rewrite (A k Hk1).
  unfold received in C at 2.
  destruct (value_calcs k l) as [|g0 l0]; [simpl in C; lia|].
  simpl. apply accumulate_some.
Qed.

(** In the diamond graph [a] (object 0) is below [out] (object 5) and has a
    gradient after [out.backward()]. *)
Lemma differentiable_reached_gets_gradient_witness :
  good diamond_graph /\ (5 < length (values diamond_graph))%nat /\
  exists h', backward 5 diamond_graph = Returned tt h' /\
    exists g, grad_of h' 0 = Some g.
Proof.
  split; [exact diamond_graph_good|]. split; [simpl; lia|].
  destruct (differentiable_reached_gets_gradient diamond_graph 5
              diamond_graph_good) as (h' & E & Hg); [simpl; lia|].
  exists h'. split; [exact E|]. apply Hg; [|reflexivity].
  apply reach_operand with 2%nat (AddOp 0 1).
  - apply reach_operand with 5%nat (MulOp 2 4).
    + constructor.
    + reflexivity.
    + apply elem_of_cons. auto.
  - reflexivity.
  - apply elem_of_cons. auto.
Defined.

(** ** Each operator propagates once *)

(** The calls of [backprop_calc] of an operator are as many as its outputs
    that went from registered to released. *)
Lemma calc_calcs fuel n g h h' :
  well_formed h -> Value_backprop_calc fuel n g h = Returned tt h' ->
  forall o, Z.of_nat (calcs_of o (log h')) + active h' o =
            Z.of_nat (calcs_of o (log h)) + active h o.
Proof.
  revert n g h h'.
  apply (calc_returned_ind
    (fun _ _ h h' => forall o,
       Z.of_nat (calcs_of o (log h')) + active h' o =
       Z.of_nat (calcs_of o (log h)) + active h o)
    (fun _ h h' => forall o,
       Z.of_nat (calcs_of o (log h')) + active h' o =
       Z.of_nat (calcs_of o (log h)) + active h o)).
  - intros n g h x W Hx Hrg o.
    change (active (discarded n g h) o) with (active h o).
    cbn [log discarded]. count_events. lia.
  - intros n g h x W Hx Hrg Hc Hor o. unfold accumulated.
    rewrite (active_insert _ _ _ _ _ _ Hx). cbn [log].
    count_events. unfold active_by. cbn [_backprop_count _op].
    destruct (Z.leb_spec 1 (_backprop_count x)),
             (Z.leb_spec 1 (_backprop_count x - 1));
      destruct (_op x) as [o'|] eqn:Ho; try lia;
      destruct Hor as [Hor|Hor]; try discriminate; try lia.
  - intros n g h x o0 op h' W Hx Hrg Hc Ho Hop S HQ o.
    rewrite HQ.
    change (active (entered_calc o0 op (new_grad x g)
                      (accumulated n x g h)) o)
      with (active (accumulated n x g h) o).
    unfold accumulated at 2. rewrite (active_insert _ _ _ _ _ _ Hx).
    cbn [log entered_calc accumulated]. count_events.
    unfold active_by. cbn [_backprop_count _op]. rewrite Hc, Ho.
    change (1 <=? 1) with true. change (1 <=? 1 - 1) with false.
    cbn beta iota. destruct (Nat.eqb o o0); lia.
  - trivial.
  - intros i g l h h1 h2 W S1 S2 HP HQ o. rewrite HQ, HP. reflexivity.
Qed.

Lemma active_ext h h' o :
  same_shape h h' ->
  (forall i x x', values h !! i = Some x -> values h' !! i = Some x' ->
     active_by o x = active_by o x') ->
  active h o = active h' o.
Proof.
  intros S H. unfold active. f_equal. apply list_eq. intros i.
  rewrite !list_lookup_fmap.
  destruct (values h !! i) as [x|] eqn:Hx.
  - destruct (same_shape_value _ _ _ _ S Hx) as (x' & Hx' & _).
    rewrite Hx'. simpl. f_equal. eauto.
  - destruct (values h' !! i) as [x'|] eqn:Hx'; trivial.
    destruct (same_shape_value _ _ _ _ (same_shape_sym _ _ S) Hx')
      as (y & Hy & _). congruence.
Qed.

(** X13: In a pass over a graph built through the public interface
    [backprop_calc] of the producer of each [Value] that requires gradients
    and from which the receiver is computed is called exactly once, however
    many paths lead to that [Value]; [backprop_calc] of any other operator
    is not called. *)
Theorem producer_propagates_once (h : Heap) (root : nat) :
  good h -> (root < length (values h))%nat ->
  exists h', backward root h = Returned tt h' /\
    (forall m x o, reach h root m -> values h !! m = Some x ->
       _requires_grad x = true -> _op x = Some o ->
       calcs_of o (log h') = S (calcs_of o (log h))) /\
    (forall o, (forall m x, reach h root m -> values h !! m = Some x ->
                  _requires_grad x = true -> _op x <> Some o) ->
       calcs_of o (log h') = calcs_of o (log h)).
Proof.
  intros G Hn.
  destruct (backward_spec root h G Hn)
    as (h1 & h' & E1 & E2 & E & G' & S & _).
  pose proof (setup_reaches _ _ _ _ G E1) as Hreg.
  destruct G as (W & St & N). destruct G' as (W' & St' & N').
  assert (H1 : heap_of (Value_backprop_setup (length (values h)) root h)
               = Some h1) by (rewrite E1; reflexivity).
  assert (H2 : heap_of (Value_backprop_calc (length (values h)) root 1%float
                          h1) = Some h') by (rewrite E2; reflexivity).
  pose proof (setup_same_shape _ _ _ _ H1) as S1.
  pose proof (calc_same_shape _ _ _ _ _ H2) as S2.
  pose proof (same_shape_well_formed _ _ S1 W) as W1.
  pose proof (calc_calcs _ _ _ _ _ W1 E2) as Hc.
  destruct (setup_calls_no_calc _ _ _ _ H1) as (_ & Hs).
  exists h'. split; [exact E|]. split.
  - intros m x o Hr Hx Hrg Ho.
    assert (Hk : requires h m = true) by (unfold requires; rewrite Hx; trivial).
    destruct (same_shape_value _ _ _ _ S1 Hx) as (x1 & Hx1 & _ & _ & Ho1).
    destruct (same_shape_value _ _ _ _ S Hx) as (x' & Hx' & _ & _ & Ho').
    specialize (Hc o). rewrite Hs in Hc.
    rewrite (active_owner h1 m x1 o W1 Hx1) in Hc by congruence.
    rewrite (active_owner h' m x' o W' Hx') in Hc by congruence.
    specialize (Hreg m Hr Hk). unfold count_of in Hreg. rewrite Hx1 in Hreg.
    assert (Z' : count_of h' m = 0).
    { apply (settled_zero h' W' St').
      rewrite (same_shape_requires _ _ _ S). exact Hk. }
    unfold count_of in Z'. rewrite Hx' in Z'. rewrite Z' in Hc.
    destruct (Z.leb_spec 1 (_backprop_count x1)); simpl in Hc; lia.
  - intros o Ho. specialize (Hc o). rewrite Hs in Hc.
    assert (Ha : active h1 o = active h' o); [|lia].
    apply active_ext; trivial. intros i x1 x' Hx1 Hx'.
    destruct (_requires_grad x1) eqn:Hrg.
    2:{ rewrite (calc_keeps_non_differentiable _ _ _ _ _ H2 i x1 Hx1 Hrg)
          in Hx'. congruence. }
    destruct (same_shape_value _ _ _ _ S2 Hx1) as (y' & Hy' & _ & _ & Eo').
    assert (y' = x') as -> by congruence.
    destruct (same_shape_value _ _ _ _ (same_shape_sym _ _ S1) Hx1)
      as (x & Hx & _ & Erg & Eo).
    unfold active_by. rewrite Eo'.
    destruct (_op x1) as [o'|] eqn:Ho1.
    2:{ destruct (1 <=? _backprop_count x1), (1 <=? _backprop_count x');
          reflexivity. }
    destruct (Nat.eqb_spec o o') as [<-|Hne].
    2:{ destruct (1 <=? _backprop_count x1), (1 <=? _backprop_count x');
          reflexivity. }
    assert (Hk : requires h i = true)
      by (unfold requires; rewrite Hx; congruence).
    assert (Hnr : ~ reach h root i).
    { intros Hr. apply (Ho i x Hr Hx); congruence. }
    pose proof (setup_frame _ _ _ _ W E1 i Hnr) as F.
    pose proof (settled_zero h W St i Hk) as Z0.
    unfold count_of in Z0. rewrite <- F, Hx1 in Z0.
    assert (Z' : count_of h' i = 0).
    { apply (settled_zero h' W' St').
      rewrite (same_shape_requires _ _ _ S). exact Hk. }
    unfold count_of in Z'. rewrite Hx' in Z'.
    rewrite Z0, Z'. reflexivity.
Qed.

(** In the diamond graph the [AddOp] that produced b = a + 3 (operator 0)
    propagates once when [out.backward()] runs, and the [MulOp] that
    produced c = a * 4 (operator 1) not at all when [b.backward()] runs. *)
Lemma producer_propagates_once_witness :
  good diamond_graph /\ (5 < length (values diamond_graph))%nat /\
  (exists h', backward 5 diamond_graph = Returned tt h' /\
     calcs_of 0 (log h') = 1%nat) /\
  (exists h', backward 2 diamond_graph = Returned tt h' /\
     calcs_of 1 (log h') = 0%nat).
Proof.
  split; [exact diamond_graph_good|]. split; [simpl; lia|]. split.
  - destruct (producer_propagates_once diamond_graph 5 diamond_graph_good)
      as (h' & E & Hone & _); [simpl; lia|].
    exists h'. split; [exact E|].
    apply (Hone 2%nat (mkValue 5 true None (Some 0%nat) 0)); trivial.
    apply reach_operand with 5%nat (MulOp 2 4).
    + constructor.
    + reflexivity.
    + apply elem_of_cons. auto.
  - destruct (producer_propagates_once diamond_graph 2 diamond_graph_good)
      as (h' & E & _ & Hnone); [simpl; lia|].
    exists h'. split; [exact E|].
    apply (Hnone 1%nat). intros m x Hr Hx Hrg Ho.
    apply (reach_le _ _ _ (proj1 diamond_graph_good)) in Hr.
    assert (Hm : (m < 3)%nat) by lia. clear Hr.
    do 3 (destruct m as [|m]; [vm_compute in Hx; injection Hx as <-;
                                 discriminate|]).
    lia.
Defined.

(** ** Further graphs *)

(** X14: test_simple_multiop_backprop for any four leaves: after
    [(a - b + c * d).backward()] the gradient of [a] is 1.0, that of [b] is
    -1.0, that of [c] is [0.0 + 1.0 * d.item()] and that of [d] is
    [0.0 + 1.0 * c.item()], which compare equal ([==]) to [d.item()] and
    [c.item()] unless that value is NaN; [out.item()] is
    [(a - b) + c * d] ([out] is object 6). *)
Theorem simple_multiop_gradients (va vb vc vd : float) :
  exists a b c d h gc gd,
    simple_multiop va vb vc vd empty_heap = Returned (a, b, c, d) h /\
    item_of h 6 = ((va - vb) + vc * vd)%float /\
    grad_of h a = Some 1%float /\ grad_of h b = Some (-1)%float /\
    grad_of h c = Some gc /\ grad_of h d = Some gd /\
    gc = (0 + 1 * vd)%float /\ gd = (0 + 1 * vc)%float /\
    (is_nan vd = false -> (gc =? vd)%float = true) /\
    (is_nan vc = false -> (gd =? vc)%float = true).
Proof.
  eexists _, _, _, _, _, _, _. split; [vm_compute; reflexivity|].
  split; [reflexivity|]. split; [reflexivity|]. split; [reflexivity|].
  split; [reflexivity|]. split; [reflexivity|].
  split; [reflexivity|]. split; [reflexivity|].
  rewrite !float_one_mul, !float_zero_add_eqb.
  split; apply float_eqb_refl.
Qed.

(** X15: test_long_multipath_backprop2 for any value of [a]: with b = a * 1.0,
    c = PassThroughOp(b).forward() and out = (c * 3.0) + (c * 4.0), after
    [out.backward()] the gradients of [a], [b] and [c] are 7.0, and
    [backprop_calc] of the [PassThroughOp] was called once, with 7.0. *)
Theorem long_multipath2_gradients (va : float) :
  exists a b c passthrough h,
    long_multipath2 va empty_heap = Returned (a, b, c, passthrough) h /\
    grad_of h a = Some 7%float /\ grad_of h b = Some 7%float /\
    grad_of h c = Some 7%float /\
    operators h !! passthrough = Some (PassThroughOp b 1) /\
    operator_calcs passthrough (log h) = [7%float] /\
    value_calcs c (log h) = [3; 4]%float.
Proof.
  eexists _, _, _, _, _. split; [vm_compute; reflexivity|].
  split; [reflexivity|]. split; [reflexivity|]. split; [reflexivity|].
  split; [reflexivity|]. split; reflexivity.
Qed.

(** X16: An operator over the same [Value] twice: after [(x + x).backward()] the
    gradient of [x] is 2.0, after [(x - x).backward()] it is 0.0, and after
    [(x * x).backward()] it is [(0.0 + x.item()) + x.item()]; in each case
    [x] was registered twice, received two contributions, and its counter is
    back at 0. *)
Theorem same_operand_gradients (v : float) :
  (exists x out h,
     same_operand Value_add v empty_heap = Returned (x, out) h /\
     grad_of h x = Some 2%float /\ value_calcs x (log h) = [1; 1]%float /\
     registrations x (log h) = 2%nat /\ count_of h x = 0) /\
  (exists x out h,
     same_operand Value_sub v empty_heap = Returned (x, out) h /\
     grad_of h x = Some 0%float /\ value_calcs x (log h) = [1; -1]%float /\
     registrations x (log h) = 2%nat /\ count_of h x = 0) /\
  (exists x out h,
     same_operand Value_mul v empty_heap = Returned (x, out) h /\
     grad_of h x = Some ((0 + v) + v)%float /\
     value_calcs x (log h) = [(1 * v)%float; (1 * v)%float] /\
     registrations x (log h) = 2%nat /\ count_of h x = 0).
Proof.
  split; [|split].
  - eexists _, _, _. split; [vm_compute; reflexivity|].
    split; [reflexivity|]. split; [reflexivity|]. split; reflexivity.
  - eexists _, _, _. split; [vm_compute; reflexivity|].
    split; [reflexivity|]. split; [reflexivity|]. split; reflexivity.
  - eexists _, _, _. split; [vm_compute; reflexivity|].
    split; [|split; [reflexivity|split; reflexivity]].
    change (grad_of _ 0) with (Some ((0 + 1 * v) + 1 * v)%float).
    rewrite !float_one_mul. reflexivity.
Qed.
